(** * Lerc1Decode: a shallow embedding of the pure-Python Lerc1 decoder

    Source: OtherLanguages/Python/PurePython_Lerc1Only/Lerc1Decode.py

    The module is read as Python 3: [/] is true division, [//] is floor
    division, [struct.unpack_from] raises [struct.error] when the
    requested bytes do not lie inside the buffer, and an exception that is
    not caught propagates to the caller.

    Conventions of the embedding:
    - a blob is a [list byte]; Python integers are [Z];
    - a call that can raise returns [res A], either [Ok a] or [Raise e];
    - code that mutates the sample array runs in a state-and-error monad
      whose state survives an exception, as the array does in Python;
    - Python floats are taken through the interface [PyFloat]; the
      instance [ieee] implements it with the IEEE 754 operations of the
      standard library's [SpecFloat];
    - the sample array, whose size the header alone decides, is allocated
      on a machine [PyMemory] that bounds the length of a sequence.

    The file has three parts: the embedding of the module, the
    definitions that the properties are stated with (and the sample
    inputs), and the properties with their proofs. *)

From Stdlib Require Import ZArith Lia Bool List.
From Stdlib Require Import Strings.Byte.
From Stdlib Require Import Floats.SpecFloat.
From stdpp Require Import base list.

Local Open Scope Z_scope.

(** ** Exceptions and results *)

Inductive exn : Set :=
| StructError        (* struct.error *)
| IndexError
| AssertionError
| TypeError
| ValueError
| StopIteration
| OverflowError
| ZeroDivisionError
| AttributeError
| MemoryError.

Inductive res (A : Type) : Type :=
| Ok (a : A)
| Raise (e : exn).
Arguments Ok {A} a.
Arguments Raise {A} e.

Definition rbind {A B} (m : res A) (k : A -> res B) : res B :=
  match m with
  | Ok a => k a
  | Raise e => Raise e
  end.

Declare Scope res_scope.
Delimit Scope res_scope with res.
Notation "'let*' x ':=' m 'in' k" := (rbind m (fun x => k))
  (at level 10, x pattern, m at level 100, k at level 200) : res_scope.
Local Open Scope res_scope.

Definition py_assert (b : bool) : res unit :=
  if b then Ok tt else Raise AssertionError.

(** ** Bytes and [struct.unpack_from] *)

Definition bytes := list byte.

#[global] Instance byte_eq_dec : EqDecision byte := Byte.byte_eq_dec.

Definition byte_val (b : byte) : Z := Z.of_N (Byte.to_N b).

(** [len(seq)]. *)
Definition len {A} (l : list A) : Z := Z.of_nat (length l).

(** [struct.unpack_from(fmt, blob, offset)] first checks that the
    [size] bytes of [fmt] lie inside the buffer; a negative offset counts
    from the end.  The check is the same for every format, so it is
    modelled once: [slice_at] returns the bytes the format will decode. *)
Definition slice_at (blob : bytes) (offset size : Z) : res bytes :=
  let off := if offset <? 0 then offset + len blob else offset in
  if (off <? 0) || (len blob - off <? size)
  then Raise StructError
  else Ok (take (Z.to_nat size) (drop (Z.to_nat off) blob)).

(** Little-endian unsigned value of a byte string. *)
Fixpoint le_uint (bs : bytes) : Z :=
  match bs with
  | [] => 0
  | b :: bs' => byte_val b + 256 * le_uint bs'
  end.

(** Two's complement reading of an unsigned [bits]-bit value. *)
Definition to_signed (bits u : Z) : Z :=
  if u <? 2 ^ (bits - 1) then u else u - 2 ^ bits.

(** Formats "B", "b", "<H", "<h", "<I". *)
Definition unpack_B (blob : bytes) (offset : Z) : res Z :=
  let* bs := slice_at blob offset 1 in Ok (le_uint bs).
Definition unpack_b (blob : bytes) (offset : Z) : res Z :=
  let* bs := slice_at blob offset 1 in Ok (to_signed 8 (le_uint bs)).
Definition unpack_H (blob : bytes) (offset : Z) : res Z :=
  let* bs := slice_at blob offset 2 in Ok (le_uint bs).
Definition unpack_h (blob : bytes) (offset : Z) : res Z :=
  let* bs := slice_at blob offset 2 in Ok (to_signed 16 (le_uint bs)).
Definition unpack_I (blob : bytes) (offset : Z) : res Z :=
  let* bs := slice_at blob offset 4 in Ok (le_uint bs).

(** Format [str(n) + "B"] (and "B" itself, with [n = 1], where the code
    keeps the tuple): the [n] bytes as a tuple. *)
Definition unpack_nB (n : Z) (blob : bytes) (offset : Z) : res bytes :=
  slice_at blob offset n.

(** [t * n] on a tuple: [n] copies of [t] one after the other, none when
    [n <= 0]. *)
Definition tuple_repeat {A} (t : list A) (n : Z) : list A :=
  mjoin (replicate (Z.to_nat n) t).

(** Splits a byte string into consecutive 4-byte little-endian words. *)
Fixpoint le_words (n : nat) (bs : bytes) : list Z :=
  match n with
  | O => []
  | S n' => le_uint (take 4 bs) :: le_words n' (drop 4 bs)
  end.

(** Format ["<" + str(n) + "I"]. *)
Definition unpack_nI (n : Z) (blob : bytes) (offset : Z) : res (list Z) :=
  let* bs := slice_at blob offset (n * 4) in Ok (le_words (Z.to_nat n) bs).

(** ** decode_RLE *)

(** The variables of the [while] loop. *)
Record rle_state : Type := RleState {
  rle_offset : Z;
  rle_size : Z;
  rle_result : bytes
}.

(** One pass through the body of [while size > 2]. *)
Definition rle_body (blob : bytes) (st : rle_state) : res rle_state :=
  let '(RleState offset size result) := st in
  let* count := unpack_h blob offset in
  let offset := offset + 2 in
  if count <? 0 then
    let* b := unpack_nB 1 blob offset in
    let result := result ++ tuple_repeat b (- count) in
    let count := 1 in
    Ok (RleState (offset + count) (size - (2 + count)) result)
  else
    let* bs := unpack_nB count blob offset in
    let result := result ++ bs in
    Ok (RleState (offset + count) (size - (2 + count)) result).

(** The loop, by recursion on a bound on the number of passes.  Every pass
    lowers [size] by at least 2, so [size] passes are enough
    ([rle_loop_unfold] is the equation of the loop without the bound);
    the branch for an exhausted bound is never reached. *)
Fixpoint rle_loop_upto (n : nat) (blob : bytes) (st : rle_state)
  : res rle_state :=
  if 2 <? rle_size st then
    match n with
    | O => Ok st
    | S n' =>
        let* st' := rle_body blob st in rle_loop_upto n' blob st'
    end
  else Ok st.

Definition rle_loop (blob : bytes) (st : rle_state) : res rle_state :=
  rle_loop_upto (Z.to_nat (rle_size st)) blob st.

Definition end_marker : Z := -32768.

(** [decode_RLE(blob, offset, size)]: [Ok None] is Python's [return None]. *)
Definition decode_RLE (blob : bytes) (offset size : Z) : res (option bytes) :=
  let* st := rle_loop blob (RleState offset size []) in
  let* marker := unpack_h blob (rle_offset st) in
  if negb (marker =? end_marker) then Ok None
  else Ok (Some (rle_result st)).

(** ** Python integers: shifts, division, indexing *)

(** [a >> n] and [a << n] raise [ValueError] on a negative shift count. *)
Definition py_rshift (a n : Z) : res Z :=
  if n <? 0 then Raise ValueError else Ok (Z.shiftr a n).
Definition py_lshift (a n : Z) : res Z :=
  if n <? 0 then Raise ValueError else Ok (Z.shiftl a n).

(** [a // b]; Python's floor division is [Z.div]. *)
Definition py_floordiv (a b : Z) : res Z :=
  if b =? 0 then Raise ZeroDivisionError else Ok (a / b).

(** [seq[i]] position: a negative index counts from the end, anything
    outside raises [IndexError]. *)
Definition py_index (n : nat) (i : Z) : res nat :=
  let j := if i <? 0 then i + Z.of_nat n else i in
  if (j <? 0) || (Z.of_nat n <=? j) then Raise IndexError
  else Ok (Z.to_nat j).

Definition py_getitem {A} (l : list A) (i : Z) : res A :=
  let* j := py_index (length l) i in
  match l !! j with
  | Some a => Ok a
  | None => Raise IndexError
  end.

(** [tuple[i]] for the three-way selectors [("<I", "<H", "B")[bc]]. *)
Definition select3 {A} (a0 a1 a2 : A) (i : Z) : res A :=
  py_getitem [a0; a1; a2] i.

(** [range(start, stop)] and [range(start, stop, step)]. *)
Definition py_range (start stop : Z) : list Z :=
  map (fun i => start + Z.of_nat i) (seq 0 (Z.to_nat (stop - start))).

Definition py_range_step (start stop step : Z) : res (list Z) :=
  if step =? 0 then Raise ValueError
  else if 0 <? step then
    Ok (map (fun i => start + Z.of_nat i * step)
            (seq 0 (Z.to_nat ((stop - start + step - 1) / step))))
  else
    Ok (map (fun i => start + Z.of_nat i * step)
            (seq 0 (Z.to_nat ((start - stop - step - 1) / (- step))))).

(** [dloop(xr, yr)]: a double loop, x inner, y outer. *)
Definition dloop (xr yr : list Z) : list (Z * Z) :=
  flat_map (fun y => map (fun x => (x, y)) xr) yr.

(** [array.array('I', ...)[i] = x]: an unsigned 32-bit slot. *)
Definition array_I_set (a : list Z) (i : Z) (x : Z) : res (list Z) :=
  if (x <? 0) || (2 ^ 32 <=? x) then Raise OverflowError
  else let* j := py_index (length a) i in Ok (<[j := x]> a).

(** [array.array('B', t)] from a tuple of integers. *)
Fixpoint array_B (t : list Z) : res bytes :=
  match t with
  | [] => Ok []
  | x :: t' =>
      if (x <? 0) || (256 <=? x) then Raise OverflowError
      else
        match Byte.of_N (Z.to_N x) with
        | Some b => let* bs := array_B t' in Ok (b :: bs)
        | None => Raise OverflowError
        end
  end.

(** ** read_qval *)

(** The loop that rebuilds the last, partly stored word:
    [for i in range(extra_bytes): v8 |= values8[i] << (8 * (i + 4 - extra_bytes))].
    [values8] has [extra_bytes] items, and the shift counts are positive
    because [extra_bytes] is a remainder modulo 4. *)
Fixpoint v8_loop (extra_bytes : Z) (values8 : bytes) (i : Z) (v8 : Z) : Z :=
  match values8 with
  | [] => v8
  | b :: rest =>
      v8_loop extra_bytes rest (i + 1)
              (Z.lor v8 (Z.shiftl (byte_val b) (8 * (i + 4 - extra_bytes))))
  end.

(** The variables of the unpacking loop; [q_src] is what the iterator
    [src] has not given out yet. *)
Record qval_state : Type := QvalState {
  q_values : list Z;
  q_bits_left : Z;
  q_v : Z;
  q_src : list Z
}.

(** The body of [for dst in range(count)]. *)
Definition qval_body (nbits mask : Z) (dst : Z) (st : qval_state)
  : res qval_state :=
  let '(QvalState values bits_left v src) := st in
  if nbits <=? bits_left then
    let* sh := py_rshift v (bits_left - nbits) in
    let* values := array_I_set values dst (Z.land mask sh) in
    let bits_left := bits_left - nbits in
    Ok (QvalState values bits_left v src)
  else
    let* sh := py_lshift v (nbits - bits_left) in
    let vtmp := Z.land mask sh in
    match src with
    | [] => Raise StopIteration
    | v :: src =>
        let bits_left := bits_left + (32 - nbits) in
        let* sh := py_rshift v bits_left in
        let* values := array_I_set values dst (vtmp + sh) in
        Ok (QvalState values bits_left v src)
    end.

Fixpoint qval_loop (nbits mask : Z) (dsts : list Z) (st : qval_state)
  : res qval_state :=
  match dsts with
  | [] => Ok st
  | dst :: rest =>
      let* st := qval_body nbits mask dst st in
      qval_loop nbits mask rest st
  end.

(** [read_qval(blob, offset)]: returns [(values, offset)], with
    [values = None] when the header byte announces no bits. *)
Definition read_qval (blob : bytes) (offset : Z)
  : res (option (list Z) * Z) :=
  let* nbits := unpack_B blob offset in
  let offset := offset + 1 in
  let bc := Z.shiftr nbits 6 in
  let nbits := Z.land nbits 63 in
  if nbits =? 0 then Ok (None, offset)
  else
    let* unpack_count := select3 unpack_I unpack_H unpack_B bc in
    let* count := unpack_count blob offset in
    let* width := select3 4 2 1 bc in
    let offset := offset + width in
    let nbytes := (count * nbits + 7) / 8 in
    let nint := nbytes / 4 in
    let* values32 := unpack_nI nint blob offset in
    let offset := offset + nint * 4 in
    let extra_bytes := nbytes - nint * 4 in
    let* (values32, offset) :=
      if negb (0 =? extra_bytes) then
        let* values8 := unpack_nB extra_bytes blob offset in
        let offset := offset + extra_bytes in
        let v8 := v8_loop extra_bytes values8 0 0 in
        Ok (values32 ++ [v8], offset)
      else Ok (values32, offset) in
    let values := replicate (Z.to_nat count) 0 in
    let bits_left := 32 in
    let mask := Z.shiftl 1 nbits - 1 in
    match values32 with
    | [] => Raise StopIteration
    | v :: src =>
        let* st := qval_loop nbits mask (py_range 0 count)
                             (QvalState values bits_left v src) in
        Ok (Some (q_values st), offset)
    end.

(** ** State that survives an exception

    [read_block] writes into the caller's [array.array('f')].  A
    computation [M S A] takes the state [S] (the array) and gives back the
    state as it then is, with the result or the exception. *)
Definition M (S A : Type) : Type := S -> S * res A.

Definition mret {S A} (a : A) : M S A := fun d => (d, Ok a).
Definition mbind {S A B} (m : M S A) (k : A -> M S B) : M S B :=
  fun d => match m d with
           | (d', Ok a) => k a d'
           | (d', Raise e) => (d', Raise e)
           end.
Definition mlift {S A} (r : res A) : M S A := fun d => (d, r).

Declare Scope m_scope.
Delimit Scope m_scope with M.
Notation "'let!' x ':=' m 'in' k" := (mbind m (fun x => k))
  (at level 10, x pattern, m at level 100, k at level 200) : m_scope.
Local Open Scope m_scope.

(** ** Python floats

    The decoder does little arithmetic on floats: it reads them from the
    blob, doubles the half step, computes [mval + Q * n], clamps with
    [min] and keeps samples in an [array.array('f')], which narrows every
    stored value to single precision.  These operations are the interface
    of the float arithmetic; [ieee] below implements it. *)
Class PyFloat (float : Type) : Type := {
  of_int : Z -> float;              (* the float of a Python int *)
  of_f32 : Z -> float;              (* format "<f", from the 32 bits read *)
  of_f64 : Z -> float;              (* format "<d", from the 64 bits read *)
  fadd : float -> float -> float;   (* a + b *)
  fmul : float -> float -> float;   (* a * b *)
  fdiv : float -> float -> float;   (* a / b *)
  flt : float -> float -> bool;     (* a < b *)
  feq : float -> float -> bool;     (* a == b *)
  f_to_int : float -> res Z;        (* int(a) *)
  store_f32 : float -> float        (* a after a stay in an array('f') *)
}.

(** ** Memory

    The sample array of [read_tiles] has as many items as the header
    announces, up to 2 ^ 64 for a blob of 66 bytes, so whether it can be
    built depends on the machine and not on the blob.  [max_items] is the
    length of the longest sequence that the interpreter can allocate; a
    longer one raises [MemoryError].  The other sequences of the module are
    unpacked from bytes of the blob, their length is bounded by a multiple
    of the length of the blob, and they are taken to fit. *)
Class PyMemory : Type := {
  max_items : Z
}.

Section Decoder.
Context {float : Type} {F : PyFloat float} {Mem : PyMemory}.

(** The literals [0.0] and [1.0]. *)
Definition f0 : float := of_int 0.
Definition f1 : float := of_int 1.

(** A Python number: the minimum of a block is an int when it is stored
    as "<h" or "b", a float when it is stored as "<f". *)
Inductive num : Type :=
| NInt (n : Z)
| NFloat (x : float).

Definition as_float (a : num) : float :=
  match a with
  | NInt n => of_int n
  | NFloat x => x
  end.

(** [a / b] on ints: true division, always a float. *)
Definition py_truediv (a b : Z) : res num :=
  if b =? 0 then Raise ZeroDivisionError
  else Ok (NFloat (fdiv (of_int a) (of_int b))).

(** [t * n] where [n] may be any number: a float count is a [TypeError]. *)
Definition seq_repeat {A} (t : list A) (n : num) : res (list A) :=
  match n with
  | NInt k => Ok (tuple_repeat t k)
  | NFloat _ => Raise TypeError
  end.

(** [min(a, b)]: [b] when [b < a], else [a]. *)
Definition py_min (a b : float) : float :=
  if flt b a then b else a.

Definition unpack_f (blob : bytes) (offset : Z) : res float :=
  let* bs := slice_at blob offset 4 in Ok (of_f32 (le_uint bs)).

(** ** bitmask *)

Record bitmask : Type := Bitmask {
  bm_w : Z;
  bm_h : Z;
  bm_data : bytes
}.

(** [bitmask.__init__(self, w, h, val, data)]. *)
Definition bitmask_init (w h : Z) (val : Z) (data : option bytes)
  : res bitmask :=
  let* sz := py_truediv (w * h + 7) 8 in
  let* data :=
    match data with
    | None => let* t := seq_repeat [val] sz in array_B t
    | Some d => Ok d
    end in
  Ok (Bitmask w h data).

(** [bitmask.at(self, x, y)]. *)
Definition bitmask_at (self : bitmask) (x y : Z) : res bool :=
  let l := y * bm_w self + x in
  let* b := py_getitem (bm_data self) (l / 8) in
  let* bit := py_rshift 128 (l mod 8) in
  Ok (negb (0 =? Z.land (byte_val b) bit)).

(** [data[i] = x] on an [array.array('f')]. *)
Definition array_f_set (i : Z) (x : num) : M (list float) unit :=
  fun d => match py_index (length d) i with
           | Ok j => (<[j := store_f32 (as_float x)]> d, Ok tt)
           | Raise e => (d, Raise e)
           end.

(** ** read_block *)

(** Mode 0, [for x, y in dloop(rx, ry): if mask.at(x, y) != 0: ...]. *)
Fixpoint raw_loop (mask : bitmask) (blob : bytes)
         (cells : list (Z * Z)) (offset : Z) : M (list float) Z :=
  match cells with
  | [] => mret offset
  | (x, y) :: rest =>
      let! valid := mlift (bitmask_at mask x y) in
      if valid then
        let! s := mlift (unpack_f blob offset) in
        let! _ := array_f_set (y * bm_w mask + x) (NFloat s) in
        raw_loop mask blob rest (offset + 4)
      else raw_loop mask blob rest offset
  end.

(** Constant mode, [for x, y in dloop(rx, ry): data[y * mask.w + x] = mval]. *)
Fixpoint const_loop (mask : bitmask) (mval : num) (cells : list (Z * Z))
  : M (list float) unit :=
  match cells with
  | [] => mret tt
  | (x, y) :: rest =>
      let! _ := array_f_set (y * bm_w mask + x) mval in
      const_loop mask mval rest
  end.

(** Quantized mode; [src] is what the iterator over [ival] has left. *)
Fixpoint quant_loop (mask : bitmask) (mval : num) (Q max_val : float)
         (cells : list (Z * Z)) (src : list Z) : M (list float) unit :=
  match cells with
  | [] => mret tt
  | (x, y) :: rest =>
      let! valid := mlift (bitmask_at mask x y) in
      if valid then
        match src with
        | [] => mlift (Raise StopIteration)
        | n :: src =>
            let s := py_min (fadd (as_float mval) (fmul Q (of_int n))) max_val in
            let! _ := array_f_set (y * bm_w mask + x) (NFloat s) in
            quant_loop mask mval Q max_val rest src
        end
      else quant_loop mask mval Q max_val rest src
  end.

(** Formats "<f", "<h", "b" of the minimum, chosen by [mf]. *)
Definition unpack_min_f (blob : bytes) (offset : Z) : res num :=
  let* x := unpack_f blob offset in Ok (NFloat x).
Definition unpack_min_h (blob : bytes) (offset : Z) : res num :=
  let* n := unpack_h blob offset in Ok (NInt n).
Definition unpack_min_b (blob : bytes) (offset : Z) : res num :=
  let* n := unpack_b blob offset in Ok (NInt n).

(** The minimum of modes 1 to 3: read when bit 0 of the mode is set. *)
Definition read_mval (flags mf : Z) (blob : bytes) (offset : Z)
  : res (num * Z) :=
  if negb (0 =? Z.land flags 1) then
    let* unpack_min := select3 unpack_min_f unpack_min_h unpack_min_b mf in
    let* mval := unpack_min blob offset in
    let* width := select3 4 2 1 mf in
    Ok (mval, offset + width)
  else Ok (NFloat f0, offset).

(** [read_block(data, rx, ry, mask, Q, max_val, blob, offset)], with
    [data] the state of the monad. *)
Definition read_block (rx ry : list Z) (mask : bitmask) (Q max_val : float)
           (blob : bytes) (offset : Z) : M (list float) Z :=
  let! flags := mlift (unpack_B blob offset) in
  let offset := offset + 1 in
  let mf := Z.shiftr flags 6 in
  let flags := Z.land flags 63 in
  let! _ := mlift (py_assert (flags <? 4)) in
  if flags =? 0 then raw_loop mask blob (dloop rx ry) offset
  else
    let! (mval, offset) := mlift (read_mval flags mf blob offset) in
    if negb (0 =? Z.land flags 2) then
      let! _ := const_loop mask mval (dloop rx ry) in
      mret offset
    else
      let! (ival, offset) := mlift (read_qval blob offset) in
      match ival with
      | None => mlift (Raise TypeError)
      | Some ival =>
          let! _ := quant_loop mask mval Q max_val (dloop rx ry) ival in
          mret offset
      end.

(** ** class lerc *)

(** One block-grid descriptor, [nbY, nbX, nB, val] of format "<IIIf". *)
Record descriptor : Type := Descriptor {
  nbY : Z;
  nbX : Z;
  nB : Z;
  maxVal : float
}.

(** The attributes of a [lerc] object.  An attribute that has not been
    assigned is [None]; the four [m_*] attributes are assigned together,
    and so are the four [v_*] attributes, so each group is one field. *)
Record lerc : Type := Lerc {
  valid : option bool;
  lerc_h : option Z;
  lerc_w : option Z;
  lerc_u : option float;
  lerc_m : option descriptor;     (* m_nbY, m_nbX, m_nB, m_maxVal *)
  lerc_v : option descriptor;     (* v_nbY, v_nbX, v_nB, v_maxVal *)
  lerc_mask : option bitmask      (* mask *)
}.

Definition new_object : lerc := Lerc None None None None None None None.

(** [self.attr]: reading an attribute that is not there. *)
Definition attr {A} (a : option A) : res A :=
  match a with
  | Some x => Ok x
  | None => Raise AttributeError
  end.

Definition set_valid (b : bool) (self : lerc) : lerc :=
  Lerc (Some b) (lerc_h self) (lerc_w self) (lerc_u self)
       (lerc_m self) (lerc_v self) (lerc_mask self).
Definition set_hwu (h w : Z) (u : float) (self : lerc) : lerc :=
  Lerc (valid self) (Some h) (Some w) (Some u)
       (lerc_m self) (lerc_v self) (lerc_mask self).
Definition set_u (u : float) (self : lerc) : lerc :=
  Lerc (valid self) (lerc_h self) (lerc_w self) (Some u)
       (lerc_m self) (lerc_v self) (lerc_mask self).
Definition set_m (d : descriptor) (self : lerc) : lerc :=
  Lerc (valid self) (lerc_h self) (lerc_w self) (lerc_u self)
       (Some d) (lerc_v self) (lerc_mask self).
Definition set_v (d : descriptor) (self : lerc) : lerc :=
  Lerc (valid self) (lerc_h self) (lerc_w self) (lerc_u self)
       (lerc_m self) (Some d) (lerc_mask self).
Definition set_mask (m : bitmask) (self : lerc) : lerc :=
  Lerc (valid self) (lerc_h self) (lerc_w self) (lerc_u self)
       (lerc_m self) (lerc_v self) (Some m).

Definition magic : bytes :=
  [x43; x6e; x74; x5a; x49; x6d; x61; x67; x65; x20].   (* b"CntZImage " *)

(** The field of [n] bytes at [start] in the bytes a format covers. *)
Definition field (bs : bytes) (start n : nat) : Z :=
  le_uint (take n (drop start bs)).

(** Format "<IIIId" and format "<IIIf". *)
Definition unpack_IIIId (blob : bytes) (offset : Z)
  : res (Z * Z * Z * Z * float) :=
  let* bs := slice_at blob offset 24 in
  Ok (field bs 0 4, field bs 4 4, field bs 8 4, field bs 12 4,
      of_f64 (field bs 16 8)).

Definition unpack_IIIf (blob : bytes) (offset : Z) : res descriptor :=
  let* bs := slice_at blob offset 16 in
  Ok (Descriptor (field bs 0 4) (field bs 4 4) (field bs 8 4)
                 (of_f32 (field bs 12 4))).

(** The [try] block of [lerc.__init__]: the object as the block leaves it,
    and whether the block raised. *)
Definition init_try (blob : bytes) (self : lerc) : lerc * res unit :=
  let self := set_valid (bool_decide (take 10 blob = magic)) self in
  match py_assert (bool_decide (take 10 blob = magic)) with
  | Raise e => (self, Raise e)
  | Ok _ =>
  match unpack_IIIId blob 10 with
  | Raise e => (self, Raise e)
  | Ok (fileVersion, imageType, h, w, u) =>
  let self := set_hwu h w u self in
  let self := set_u (fmul u (of_int 2)) self in
  match py_assert ((fileVersion =? 11) && (imageType =? 8)) with
  | Raise e => (self, Raise e)
  | Ok _ =>
  match unpack_IIIf blob 34 with
  | Raise e => (self, Raise e)
  | Ok first =>
  let store_values (d : descriptor) (self : lerc) := (set_v d self, Ok tt) in
  if 66 + nB first <=? len blob then
    match py_assert ((0 =? Z.lor (nbX first) (nbY first))
                     && (feq f1 (maxVal first) || feq f0 (maxVal first))) with
    | Raise e => (self, Raise e)
    | Ok _ =>
    let self := set_m first self in
    match unpack_IIIf blob (50 + nB first) with
    | Raise e => (self, Raise e)
    | Ok second => store_values second self
    end
    end
  else store_values first self
  end end end end.

(** [lerc(blob)]: the [except] clause clears the flag. *)
Definition lerc_init (blob : bytes) : lerc :=
  match init_try blob new_object with
  | (self, Ok _) => self
  | (self, Raise _) => set_valid false self
  end.

(** [lerc.decode_mask(self, blob)]. *)
Definition decode_mask (self : lerc) (blob : bytes) : res bitmask :=
  let* m := attr (lerc_m self) in
  if 0 =? nB m then
    let* w := attr (lerc_w self) in
    let* h := attr (lerc_h self) in
    let* val := f_to_int (fmul (maxVal m) (of_int 255)) in
    bitmask_init w h val None
  else
    let* w := attr (lerc_w self) in
    let* h := attr (lerc_h self) in
    let* data := decode_RLE blob 50 (nB m) in
    bitmask_init w h 255 data.

(** [t * n] on a tuple whose length comes from the header: the length of
    the result is checked before the tuple is built. *)
Definition tuple_repeat_alloc {A} (t : list A) (n : Z) : res (list A) :=
  if max_items <? len t * Z.max 0 n then Raise MemoryError
  else Ok (tuple_repeat t n).

(** [array.array('f', t)]: every item is narrowed to single precision. *)
Definition array_f (t : list float) : res (list float) :=
  if max_items <? len t then Raise MemoryError
  else Ok (map store_f32 t).

(** The loop of [read_tiles] over the block origins. *)
Fixpoint tiles_loop (self : lerc) (w h bw bh : Z) (blob : bytes)
         (origins : list (Z * Z)) (offset : Z) : M (list float) Z :=
  match origins with
  | [] => mret offset
  | (x, y) :: rest =>
      let rx := py_range x (x + Z.min bw (w - x)) in
      let ry := py_range y (y + Z.min bh (h - y)) in
      let! mask := mlift (attr (lerc_mask self)) in
      let! u := mlift (attr (lerc_u self)) in
      let! v := mlift (attr (lerc_v self)) in
      let! offset := read_block rx ry mask u (maxVal v) blob offset in
      tiles_loop self w h bw bh blob rest offset
  end.

(** [lerc.read_tiles(self, blob)].  The sample array,
    [array.array('f', (0.0, ) * self.w * self.h)], takes three
    allocations: the row [(0.0, ) * self.w], the tuple of all the cells,
    and the array. *)
Definition read_tiles (self : lerc) (blob : bytes) : res (list float) :=
  let* h := attr (lerc_h self) in
  let* v := attr (lerc_v self) in
  let* bh := py_floordiv h (nbY v) in
  let* w := attr (lerc_w self) in
  let* bw := py_floordiv w (nbX v) in
  let* m := attr (lerc_m self) in
  let offset := 66 + nB m in
  let* row := tuple_repeat_alloc [f0] w in
  let* cells := tuple_repeat_alloc row h in
  let* result := array_f cells in
  let* xr := py_range_step 0 w bw in
  let* yr := py_range_step 0 h bh in
  match tiles_loop self w h bw bh blob (dloop xr yr) offset result with
  | (result, Ok _) => Ok result
  | (_, Raise e) => Raise e
  end.

(** What [decode] returns: [(None,) * 3] or the sample array. *)
Inductive decoded : Type :=
| NoResult
| Samples (data : list float).

(** [lerc.decode(self, blob)]: the object after the call and the result. *)
Definition decode (self : lerc) (blob : bytes) : lerc * res decoded :=
  match attr (valid self) with
  | Raise e => (self, Raise e)
  | Ok ok =>
  if negb ok then (self, Ok NoResult)
  else
    let with_mask (self : lerc) :=
      (self, let* data := read_tiles self blob in Ok (Samples data)) in
    match lerc_mask self with
    | None =>
        match decode_mask self blob with
        | Raise e => (self, Raise e)
        | Ok mask => with_mask (set_mask mask self)
        end
    | Some _ => with_mask self
    end
  end.

End Decoder.

(** ** IEEE 754 floats

    The float arithmetic of CPython on the usual platforms: a float is a
    binary64 value, an [array.array('f')] slot is a binary32 value.  The
    operations are the ones of the standard library's [SpecFloat], on
    values kept in the canonical binary64 form. *)
Module IEEE.

(** The value of the bits of an interchange format with [mw] stored
    mantissa bits and [ew] exponent bits. *)
Definition of_bits (mw ew : Z) (x : Z) : spec_float :=
  let m := Z.land x (2 ^ mw - 1) in
  let e := Z.land (Z.shiftr x mw) (2 ^ ew - 1) in
  let s := Z.testbit x (mw + ew) in
  let bias := 2 ^ (ew - 1) - 1 in
  if e =? 0 then
    match m with
    | Zpos p => S754_finite s p (1 - bias - mw)
    | _ => S754_zero s
    end
  else if e =? 2 ^ ew - 1 then
    if m =? 0 then S754_infinity s else S754_nan
  else
    match m + 2 ^ mw with
    | Zpos p => S754_finite s p (e - bias - mw)
    | _ => S754_nan
    end.

(** A finite value as a binary64 (exact when it is a binary32). *)
Definition to_double (x : spec_float) : spec_float :=
  match x with
  | S754_finite s m e => binary_round 53 1024 s m e
  | _ => x
  end.

(** Rounding to binary32, to nearest even, overflowing to infinity. *)
Definition to_single (x : spec_float) : spec_float :=
  match x with
  | S754_finite s m e => binary_round 24 128 s m e
  | _ => x
  end.

(** [int(x)]: truncation; infinities and NaN raise. *)
Definition trunc (x : spec_float) : res Z :=
  match x with
  | S754_zero _ => Ok 0
  | S754_infinity _ => Raise OverflowError
  | S754_nan => Raise ValueError
  | S754_finite s m e =>
      let a := if 0 <=? e then Zpos m * 2 ^ e else Zpos m / 2 ^ (- e) in
      Ok (if s then - a else a)
  end.

#[global] Instance ieee : PyFloat spec_float := {|
  of_int n := binary_normalize 53 1024 n 0 false;
  of_f32 bits := to_double (of_bits 23 8 bits);
  of_f64 bits := of_bits 52 11 bits;
  fadd := SFadd 53 1024;
  fmul := SFmul 53 1024;
  fdiv := SFdiv 53 1024;
  flt := SFltb;
  feq := SFeqb;
  f_to_int := trunc;
  store_f32 x := to_double (to_single x)
|}.

End IEEE.

(** The machine of the examples, a small one: sequences of up to 2 ^ 24
    items. *)
#[global] Instance sample_memory : PyMemory := {|
  max_items := 2 ^ 24
|}.

(** ** Writing blobs

    The decoder has no encoder next to it; these are the encodings of the
    format, used to write blobs down. *)

(** The byte of value [z mod 256]. *)
Definition byte_of (z : Z) : byte :=
  match Byte.of_N (Z.to_N (z mod 256)) with
  | Some b => b
  | None => x00
  end.

(** [n] bytes, little-endian, of [z]. *)
Fixpoint le_bytes (n : nat) (z : Z) : bytes :=
  match n with
  | O => []
  | S n' => byte_of z :: le_bytes n' (z / 256)
  end.

(** ** The reference packer of the bit-packed integers

    The repository holds the decoder only.  The packer of the round trip
    is written from the format: a header byte with the bits per value and
    the selector of the count field, the count, then the values MSB-first
    in 32-bit little-endian words, the unused low-order bytes of the last
    word not stored. *)

(** Modelled from the spec: the three encodings of the count field (u32,
    u16, u8) and the selector in the top two bits of the header byte, of
    the packer that the repository does not have. *)
Inductive count_field : Set := CountU32 | CountU16 | CountU8.

Definition selector (cf : count_field) : Z :=
  match cf with CountU32 => 0 | CountU16 => 1 | CountU8 => 2 end.

Definition count_width (cf : count_field) : Z :=
  match cf with CountU32 => 4 | CountU16 => 2 | CountU8 => 1 end.

(** Modelled from the spec: the bit stream of the missing packer, the
    values one after the other, [nbits] bits each, first value in the most
    significant bits. *)
Fixpoint concat_bits (nbits : Z) (vals : list Z) : Z :=
  match vals with
  | [] => 0
  | x :: rest => x * 2 ^ (nbits * len rest) + concat_bits nbits rest
  end.

(** Modelled from the spec: the [n] 32-bit words of the bit stream [p] of
    the missing packer, most significant word first. *)
Fixpoint be_words (n : nat) (p : Z) : list Z :=
  match n with
  | O => []
  | S n' => p / 2 ^ (32 * Z.of_nat n') :: be_words n' (p mod 2 ^ (32 * Z.of_nat n'))
  end.

(** Modelled from the spec: the words of the missing packer, the bit
    stream padded with zero bits to whole 32-bit words. *)
Definition pack_words (nbits : Z) (vals : list Z) : list Z :=
  let total := nbits * len vals in
  let nwords := (total + 31) / 32 in
  be_words (Z.to_nat nwords)
           (concat_bits nbits vals * 2 ^ (32 * nwords - total)).

(** Modelled from the spec: the words as the missing packer stores them,
    little-endian, and of the last word only the high-order bytes that the
    [nbytes] of the stream reach. *)
Fixpoint stored_words (ws : list Z) (nbytes : Z) : bytes :=
  match ws with
  | [] => []
  | w :: rest =>
      if 4 <=? nbytes then le_bytes 4 w ++ stored_words rest (nbytes - 4)
      else drop (Z.to_nat (4 - nbytes)) (le_bytes 4 w)
  end.

(** Modelled from the spec: the reference packer, missing from the
    repository: header byte, count field, stored words. *)
Definition pack_qval (cf : count_field) (nbits : Z) (vals : list Z) : bytes :=
  let count := len vals in
  let nbytes := (count * nbits + 7) / 8 in
  byte_of (64 * selector cf + nbits)
  :: le_bytes (Z.to_nat (count_width cf)) count
  ++ stored_words (pack_words nbits vals) nbytes.

(** * Definitions used to state the properties *)

(** ** decode_RLE *)

(** The run-length format as the specification words it, on its own
    reading of the buffer: the byte at a position, the signed 16-bit
    little-endian value at a position and the [n] bytes from a position,
    each absent when it does not lie inside the buffer. *)
Definition byte_at (blob : bytes) (pos : Z) : option byte :=
  if pos <? 0 then None else blob !! Z.to_nat pos.

Definition int16_at (blob : bytes) (pos : Z) : option Z :=
  match byte_at blob pos, byte_at blob (pos + 1) with
  | Some lo, Some hi =>
      let u := byte_val lo + 256 * byte_val hi in
      Some (if u <? 32768 then u else u - 65536)
  | _, _ => None
  end.

Fixpoint bytes_at (blob : bytes) (pos : Z) (n : nat) : option bytes :=
  match n with
  | O => Some []
  | S n' =>
      match byte_at blob pos, bytes_at blob (pos + 1) n' with
      | Some b, Some bs => Some (b :: bs)
      | _, _ => None
      end
  end.

(** [rle_spec blob cursor budget acc r]: with [budget] bytes of budget
    left, the source cursor at [cursor] and the bytes [acc] produced so
    far, the decoder ends with [r]: the bytes, no result ([Ok None]), or
    the error of a read outside the buffer. *)
Inductive rle_spec (blob : bytes) : Z -> Z -> bytes -> res (option bytes) -> Prop :=
| rle_repeat cursor budget acc count b r :
    3 <= budget ->
    int16_at blob cursor = Some count ->
    count < 0 ->
    byte_at blob (cursor + 2) = Some b ->
    rle_spec blob (cursor + 2 + 1) (budget - (2 + 1))
             (acc ++ replicate (Z.to_nat (- count)) b) r ->
    rle_spec blob cursor budget acc r
| rle_literal cursor budget acc count bs r :
    3 <= budget ->
    int16_at blob cursor = Some count ->
    0 <= count ->
    bytes_at blob (cursor + 2) (Z.to_nat count) = Some bs ->
    rle_spec blob (cursor + 2 + count) (budget - (2 + count)) (acc ++ bs) r ->
    rle_spec blob cursor budget acc r
| rle_count_truncated cursor budget acc :
    3 <= budget ->
    int16_at blob cursor = None ->
    rle_spec blob cursor budget acc (Raise StructError)
| rle_repeat_truncated cursor budget acc count :
    3 <= budget ->
    int16_at blob cursor = Some count ->
    count < 0 ->
    byte_at blob (cursor + 2) = None ->
    rle_spec blob cursor budget acc (Raise StructError)
| rle_literal_truncated cursor budget acc count :
    3 <= budget ->
    int16_at blob cursor = Some count ->
    0 <= count ->
    bytes_at blob (cursor + 2) (Z.to_nat count) = None ->
    rle_spec blob cursor budget acc (Raise StructError)
| rle_end_found cursor budget acc :
    budget < 3 ->
    int16_at blob cursor = Some (-32768) ->
    rle_spec blob cursor budget acc (Ok (Some acc))
| rle_end_missing cursor budget acc marker :
    budget < 3 ->
    int16_at blob cursor = Some marker ->
    marker <> -32768 ->
    rle_spec blob cursor budget acc (Ok None)
| rle_end_truncated cursor budget acc :
    budget < 3 ->
    int16_at blob cursor = None ->
    rle_spec blob cursor budget acc (Raise StructError).

(** What [decode_RLE] does from a state of its loop on. *)
Definition rle_finish (blob : bytes) (st : rle_state) : res (option bytes) :=
  let* st := rle_loop blob st in
  let* marker := unpack_h blob (rle_offset st) in
  if negb (marker =? end_marker) then Ok None
  else Ok (Some (rle_result st)).

(** ** read_qval *)

(** A 32-bit word. *)
Definition is_word (w : Z) : Prop := 0 <= w < 2 ^ 32.

(** What holds of the variables of the unpacking loop at every pass. *)
Record qval_ok (n : Z) (st : qval_state) : Prop := QvalOk {
  qok_values : Forall (fun x => 0 <= x < 2 ^ n) (q_values st);
  qok_bits : 0 <= q_bits_left st <= 32;
  qok_v : is_word (q_v st);
  qok_src : Forall is_word (q_src st)
}.


(** The words of the format, most significant first, as one number. *)
Fixpoint words_val (ws : list Z) : Z :=
  match ws with
  | [] => 0
  | w :: rest => w * 2 ^ (32 * len rest) + words_val rest
  end.

(** The bits that the unpacking loop has not given out yet, as one number:
    the low [bits_left] bits of the current word, then the words to come. *)
Definition pending (st : qval_state) : Z :=
  (q_v st mod 2 ^ q_bits_left st) * 2 ^ (32 * len (q_src st))
  + words_val (q_src st).

(** The words as whole little-endian words. *)
Definition words_bytes (ws : list Z) : bytes :=
  flat_map (le_bytes 4) ws.


(** ** bitmask under Python 2

    [bitmask.__init__] as Python 2 runs the same source text: there [/] on
    two ints is floor division, so the size is an int and the uniform fill
    is built. *)
Definition bitmask_init_py2 (w h : Z) (val : Z) (data : option bytes)
  : res bitmask :=
  let* sz := py_floordiv (w * h + 7) 8 in
  let* data :=
    match data with
    | None => array_B (tuple_repeat [val] sz)
    | Some d => Ok d
    end in
  Ok (Bitmask w h data).

Section SessionProperties.
Context {float : Type} {F : PyFloat float}.
Local Abbreviation descriptor := (@descriptor float) (only parsing).
Local Abbreviation lerc := (@lerc float) (only parsing).
Local Abbreviation num := (@num float) (only parsing).

(** ** The header parser *)

(** The test of the [assert] on the first descriptor. *)
Definition mask_check (d : descriptor) : bool :=
  (0 =? Z.lor (nbX d) (nbY d)) && (feq f1 (maxVal d) || feq f0 (maxVal d)).

(** How the constructor leaves the object, by the first step that fails. *)
Inductive init_outcome (blob : bytes) : lerc -> Prop :=
| init_bad_magic :
    take 10 blob <> magic ->
    init_outcome blob (Lerc (Some false) None None None None None None)
| init_short_header e :
    take 10 blob = magic ->
    unpack_IIIId blob 10 = Raise e ->
    init_outcome blob (Lerc (Some false) None None None None None None)
| init_bad_version fileVersion imageType h w u :
    take 10 blob = magic ->
    unpack_IIIId blob 10 = Ok (fileVersion, imageType, h, w, u) ->
    (fileVersion =? 11) && (imageType =? 8) = false ->
    init_outcome blob (Lerc (Some false) (Some h) (Some w)
                            (Some (fmul u (of_int 2))) None None None)
| init_no_descriptor fileVersion imageType h w u e :
    take 10 blob = magic ->
    unpack_IIIId blob 10 = Ok (fileVersion, imageType, h, w, u) ->
    (fileVersion =? 11) && (imageType =? 8) = true ->
    unpack_IIIf blob 34 = Raise e ->
    init_outcome blob (Lerc (Some false) (Some h) (Some w)
                            (Some (fmul u (of_int 2))) None None None)
| init_values_only fileVersion imageType h w u first :
    take 10 blob = magic ->
    unpack_IIIId blob 10 = Ok (fileVersion, imageType, h, w, u) ->
    (fileVersion =? 11) && (imageType =? 8) = true ->
    unpack_IIIf blob 34 = Ok first ->
    len blob < 66 + nB first ->
    init_outcome blob (Lerc (Some true) (Some h) (Some w)
                            (Some (fmul u (of_int 2))) None (Some first) None)
| init_mask_refused fileVersion imageType h w u first :
    take 10 blob = magic ->
    unpack_IIIId blob 10 = Ok (fileVersion, imageType, h, w, u) ->
    (fileVersion =? 11) && (imageType =? 8) = true ->
    unpack_IIIf blob 34 = Ok first ->
    66 + nB first <= len blob ->
    mask_check first = false ->
    init_outcome blob (Lerc (Some false) (Some h) (Some w)
                            (Some (fmul u (of_int 2))) None None None)
| init_no_values fileVersion imageType h w u first e :
    take 10 blob = magic ->
    unpack_IIIId blob 10 = Ok (fileVersion, imageType, h, w, u) ->
    (fileVersion =? 11) && (imageType =? 8) = true ->
    unpack_IIIf blob 34 = Ok first ->
    66 + nB first <= len blob ->
    mask_check first = true ->
    unpack_IIIf blob (50 + nB first) = Raise e ->
    init_outcome blob (Lerc (Some false) (Some h) (Some w)
                            (Some (fmul u (of_int 2))) (Some first) None None)
| init_mask_and_values fileVersion imageType h w u first second :
    take 10 blob = magic ->
    unpack_IIIId blob 10 = Ok (fileVersion, imageType, h, w, u) ->
    (fileVersion =? 11) && (imageType =? 8) = true ->
    unpack_IIIf blob 34 = Ok first ->
    66 + nB first <= len blob ->
    mask_check first = true ->
    unpack_IIIf blob (50 + nB first) = Ok second ->
    init_outcome blob (Lerc (Some true) (Some h) (Some w)
                            (Some (fmul u (of_int 2)))
                            (Some first) (Some second) None).

(** C2 as the specification states it: a blob long enough for a mask
    descriptor whose first descriptor fails the validation gives a valid
    session with the first descriptor as the value descriptor. *)
Definition failed_mask_becomes_values (blob : bytes) : Prop :=
  forall first,
    unpack_IIIf blob 34 = Ok first ->
    66 + nB first <= len blob ->
    mask_check first = false ->
    valid (lerc_init blob) = Some true /\
    lerc_v (lerc_init blob) = Some first.

(** ** decode *)

(** The attributes that [__init__] sets are the same in both objects. *)
Definition same_header (a b : lerc) : Prop :=
  valid a = valid b /\ lerc_h a = lerc_h b /\ lerc_w a = lerc_w b /\
  lerc_u a = lerc_u b /\ lerc_m a = lerc_m b /\ lerc_v a = lerc_v b.

(** The [mask] attribute that a call of [decode] must leave: the cached
    mask when there is one, else the mask that [decode_mask] returns to a
    valid session, and no attribute when there is none to cache. *)
Definition mask_after (self : lerc) (blob : bytes) : option bitmask :=
  match lerc_mask self with
  | Some mask => Some mask
  | None =>
      match valid self with
      | Some true =>
          match decode_mask self blob with
          | Ok mask => Some mask
          | Raise _ => None
          end
      | _ => None
      end
  end.

End SessionProperties.

(** ** Sample blobs *)

(** A run-length region of 9 bytes: the byte 7 three times (count -3), the
    two bytes 1 and 2 (count 2), and the end marker. *)
Definition rle_sample : bytes :=
  [xfd; xff; x07; x02; x00; x01; x02; x00; x80].

Definition header_bytes (h w half_step : Z) : bytes :=
  magic ++ le_bytes 4 11 ++ le_bytes 4 8 ++ le_bytes 4 h ++ le_bytes 4 w
        ++ le_bytes 8 half_step.

Definition descriptor_bytes (nbY nbX nB val : Z) : bytes :=
  le_bytes 4 nbY ++ le_bytes 4 nbX ++ le_bytes 4 nB ++ le_bytes 4 val.

(** A 1x1 image: half step 0.5, a mask descriptor with fill 1.0 and a
    5-byte mask region (one literal run of one byte, then [marker] where
    the end marker goes), a value descriptor of one block with maximum
    10.0, and one block of the constant 7. *)
Definition blob_1x1 (marker : Z) : bytes :=
  header_bytes 1 1 0x3FE0000000000000
  ++ descriptor_bytes 0 0 5 0x3F800000
  ++ (le_bytes 2 1 ++ [x80] ++ le_bytes 2 marker)
  ++ descriptor_bytes 1 1 2 0x41200000
  ++ [x83; x07].

(** The same image with a mask descriptor of byte count 0 and fill 1.0. *)
Definition blob_uniform : bytes :=
  header_bytes 1 1 0x3FE0000000000000
  ++ descriptor_bytes 0 0 0 0x3F800000
  ++ descriptor_bytes 1 1 2 0x41200000
  ++ [x83; x07].

(** A blob long enough for two descriptors whose first descriptor has one
    block row and one block column. *)
Definition blob_tiled_first : bytes :=
  header_bytes 1 1 0x3FE0000000000000
  ++ descriptor_bytes 1 1 0 0x3F800000
  ++ descriptor_bytes 1 1 2 0x41200000
  ++ [x83; x07].

Section BlockProperties.
Context {float : Type} {F : PyFloat float}.
Local Abbreviation descriptor := (@descriptor float) (only parsing).
Local Abbreviation lerc := (@lerc float) (only parsing).
Local Abbreviation num := (@num float) (only parsing).

(** ** read_block *)

(** After [read_block] every pixel of the block holds the minimum that
    the block stores (or 0.0 when it stores none). *)
Definition block_filled_with_min (rx ry : list Z) (mask : bitmask)
           (Q max_val : float) (blob : bytes) (offset : Z)
           (data : list float) : Prop :=
  forall flags mval offset',
    unpack_B blob offset = Ok flags ->
    read_mval (Z.land flags 63) (Z.shiftr flags 6) blob (offset + 1)
      = Ok (mval, offset') ->
    forall x y, x ∈ rx -> y ∈ ry ->
      py_getitem (fst (read_block rx ry mask Q max_val blob offset data))
                 (y * bm_w mask + x)
      = Ok (store_f32 (as_float mval)).

(** Every slot of [data'] either is as it is in [data] or holds a value
    that the bound is not less than. *)
Definition writes_clamped (max_val : float) (data data' : list float) : Prop :=
  forall i : nat,
    data' !! i = data !! i \/
    exists s, data' !! i = Some s /\ flt max_val s = false.

Definition block_clamped (rx ry : list Z) (mask : bitmask)
           (Q max_val : float) (blob : bytes) (offset : Z)
           (data : list float) : Prop :=
  writes_clamped max_val data
                 (fst (read_block rx ry mask Q max_val blob offset data)).

End BlockProperties.

Section StatedBlockProperties.
Context {float : Type} {F : PyFloat float}.
Local Abbreviation descriptor := (@descriptor float) (only parsing).
Local Abbreviation lerc := (@lerc float) (only parsing).
Local Abbreviation num := (@num float) (only parsing).

(** C4 as the specification states it: a block of mode 1 is filled with
    its minimum. *)
Definition mode1_fills_block (rx ry : list Z) (mask : bitmask)
           (Q max_val : float) (blob : bytes) (offset : Z)
           (data : list float) : Prop :=
  forall flags,
    unpack_B blob offset = Ok flags ->
    Z.land flags 63 = 1 ->
    block_filled_with_min rx ry mask Q max_val blob offset data.

(** C5 as the specification states it: a block of mode 3 writes no value
    above the maximum. *)
Definition mode3_clamped (rx ry : list Z) (mask : bitmask)
           (Q max_val : float) (blob : bytes) (offset : Z)
           (data : list float) : Prop :=
  forall flags,
    unpack_B blob offset = Ok flags ->
    Z.land flags 63 = 3 ->
    block_clamped rx ry mask Q max_val blob offset data.

End StatedBlockProperties.

(** ** Sample blocks *)

(** Mode 1, minimum 5 stored as "b", then one 1-bit integer, 0. *)
Definition block_mode1 : bytes := [x81; x05; x81; x01; x00].

(** Mode 3, minimum 2 stored as "b". *)
Definition block_mode3 : bytes := [x83; x02].

(** Mode 2: no minimum stored. *)
Definition block_mode2 : bytes := [x02].

(** Mode 1, minimum 7 stored as "b", then four 3-bit integers 4, 0, 1, 3. *)
Definition block_quantized : bytes := [x81; x07; x83; x04; xb0; x80].

(** Mode 1, minimum -3 stored as "b", then the same four integers. *)
Definition block_quantized_negative : bytes :=
  [x81; xfd; x83; x04; xb0; x80].

(** Floats of the samples: 0.0, 1.0 and 10.0, from their single-precision
    bits. *)
Definition ieee_zero : spec_float := IEEE.to_double (IEEE.of_bits 23 8 0).
Definition ieee_one : spec_float := IEEE.to_double (IEEE.of_bits 23 8 0x3F800000).
Definition ieee_ten : spec_float := IEEE.to_double (IEEE.of_bits 23 8 0x41200000).

(** * Definitions used to state the further properties *)

(** ** Run-length regions

    What the loop of [decode_RLE] reads, written down: a run is a count
    and its bytes, a region is runs followed by the end marker. *)
Inductive rle_run : Type :=
| RunRepeat (n : Z) (b : byte)      (* count -n, then the byte *)
| RunLiteral (bs : bytes).          (* count len(bs), then the bytes *)

(** The counts that fit the signed 16-bit field. *)
Definition run_fits (r : rle_run) : Prop :=
  match r with
  | RunRepeat n _ => 1 <= n <= 32768
  | RunLiteral bs => len bs <= 32767
  end.

Definition run_bytes (r : rle_run) : bytes :=
  match r with
  | RunRepeat n b => le_bytes 2 (- n) ++ [b]
  | RunLiteral bs => le_bytes 2 (len bs) ++ bs
  end.

Definition run_output (r : rle_run) : bytes :=
  match r with
  | RunRepeat n b => replicate (Z.to_nat n) b
  | RunLiteral bs => bs
  end.

Definition rle_region (runs : list rle_run) : bytes :=
  flat_map run_bytes runs ++ le_bytes 2 (-32768).

(** ** The mask as a string of bits

    Bit [i] of a byte string, counting from the most significant bit of
    the first byte. *)
Definition mask_bit (data : list byte) (i : Z) : option bool :=
  match data !! Z.to_nat (i / 8) with
  | Some b => Some (Z.testbit (byte_val b) (7 - i mod 8))
  | None => None
  end.

(** ** The slots a block writes *)

(** The slot [y * mask.w + x] of a cell [(x, y)]. *)
Definition slot (mask : bitmask) (c : Z * Z) : Z :=
  snd c * bm_w mask + fst c.

(** The cells for which [mask.at(x, y) != 0] is evaluated and true. *)
Definition is_valid (mask : bitmask) (c : Z * Z) : bool :=
  match bitmask_at mask (fst c) (snd c) with
  | Ok true => true
  | _ => false
  end.

Definition valid_cells (mask : bitmask) (cells : list (Z * Z))
  : list (Z * Z) :=
  List.filter (is_valid mask) cells.

(** The flag byte at [offset] has bit 1 of the mode set. *)
Definition constant_mode (blob : bytes) (offset : Z) : Prop :=
  exists flags,
    unpack_B blob offset = Ok flags /\ Z.land (Z.land flags 63) 2 <> 0.

Section FurtherBlockProperties.
Context {float : Type} {F : PyFloat float}.
Local Abbreviation num := (@num float) (only parsing).

(** [data'] has as many slots as [data], and a slot that is the slot of
    no cell with [P] holds what it held. *)
Definition writes_within (mask : bitmask) (P : Z * Z -> Prop)
           (data data' : list float) : Prop :=
  length data' = length data /\
  forall j : nat,
    (forall c, P c -> py_index (length data) (slot mask c) <> Ok j) ->
    data' !! j = data !! j.

(** What a quantized cell is set to,
    [min(mval + Q * n, max_val)] kept in an [array.array('f')]. *)
Definition quantized (mval : num) (Q max_val : float) (n : Z) : float :=
  store_f32 (py_min (fadd (as_float mval) (fmul Q (of_int n))) max_val).

End FurtherBlockProperties.

(** ** Further sample inputs *)

(** Mode 0: the floats 1.0 and 10.0 stored as such. *)
Definition block_raw : bytes :=
  [x00; x00; x00; x80; x3f; x00; x00; x20; x41].

Section FurtherSessionProperties.
Context {float : Type} {F : PyFloat float}.
Local Abbreviation descriptor := (@descriptor float) (only parsing).
Local Abbreviation lerc := (@lerc float) (only parsing).

(** ** Headers that open a valid session

    The checks of [lerc.__init__] in one place: the magic, a header with
    version 11 and type 8, a first descriptor, and either no room for a
    mask descriptor or a first descriptor that passes the mask check and a
    second descriptor after the mask bytes. *)
Definition header_accepted (blob : bytes) : Prop :=
  take 10 blob = magic /\
  exists h w u first,
    unpack_IIIId blob 10 = Ok (11, 8, h, w, u) /\
    unpack_IIIf blob 34 = Ok first /\
    (len blob < 66 + nB first \/
     66 + nB first <= len blob /\ mask_check first = true /\
     exists second : descriptor, unpack_IIIf blob (50 + nB first) = Ok second).

End FurtherSessionProperties.

(** A 1x1 image with the value descriptor only: no room for a second
    descriptor. *)
Definition blob_values_only : bytes :=
  header_bytes 1 1 0x3FE0000000000000
  ++ descriptor_bytes 1 1 2 0x41200000
  ++ [x83; x07].

(** Mode 1, minimum 5 stored as "b", then a header byte with no bits per
    value. *)
Definition block_no_bits : bytes := [x81; x05; x00].

(** The intact 1x1 blob with a header of 2 ^ 32 - 1 rows and 2 ^ 28
    columns. *)
Definition blob_huge : bytes :=
  header_bytes (2 ^ 32 - 1) (2 ^ 28) 0x3FE0000000000000
  ++ descriptor_bytes 0 0 5 0x3F800000
  ++ (le_bytes 2 1 ++ [x80] ++ le_bytes 2 32768)
  ++ descriptor_bytes 1 1 2 0x41200000
  ++ [x83; x07].

(** * Properties *)

(** ** Results *)

Lemma rbind_Ok {A B} (m : res A) (k : A -> res B) (b : B) :
  rbind m k = Ok b -> exists a, m = Ok a /\ k a = Ok b.
Proof. destruct m as [a|e]; simpl; [eauto | discriminate]. Qed.

Lemma len_nonneg {A} (a : list A) : 0 <= len a.
Proof. unfold len. lia. Qed.

(** ** decode_RLE *)

Lemma rle_body_size blob st st' :
  rle_body blob st = Ok st' -> rle_size st' <= rle_size st - 2.
Proof.
  destruct st as [offset size result]; unfold rle_body; intros H.
  apply rbind_Ok in H as (count & _ & H).
  destruct (count <? 0) eqn:Hc.
  - apply rbind_Ok in H as (b & _ & H). injection H as <-. simpl. lia.
  - apply rbind_Ok in H as (bs & _ & H). injection H as <-. simpl. lia.
Qed.

Lemma rle_loop_upto_enough n : forall m blob st,
  rle_size st <= Z.of_nat n -> rle_size st <= Z.of_nat m ->
  rle_loop_upto n blob st = rle_loop_upto m blob st.
Proof.
  induction n as [|n IH]; intros m blob st Hn Hm.
  - destruct m; simpl; destruct (2 <? rle_size st) eqn:E; try reflexivity; lia.
  - destruct m as [|m]; simpl; destruct (2 <? rle_size st) eqn:E;
      try reflexivity; try lia.
    destruct (rle_body blob st) as [st'|e] eqn:Hb; simpl; [|reflexivity].
    apply rle_body_size in Hb. apply IH; lia.
Qed.

(** The equation of the [while] loop. *)
Lemma rle_loop_unfold blob st :
  rle_loop blob st =
  if 2 <? rle_size st
  then let* st' := rle_body blob st in rle_loop blob st'
  else Ok st.
Proof.
  unfold rle_loop. destruct (2 <? rle_size st) eqn:E.
  - destruct (Z.to_nat (rle_size st)) as [|n] eqn:Hn; [lia|].
    simpl. rewrite E.
    destruct (rle_body blob st) as [st'|e] eqn:Hb; simpl; [|reflexivity].
    apply rle_body_size in Hb. apply rle_loop_upto_enough; lia.
  - destruct (Z.to_nat (rle_size st)); simpl; rewrite E; reflexivity.
Qed.

Lemma rle_finish_unfold blob st :
  rle_finish blob st =
  if 2 <? rle_size st
  then let* st' := rle_body blob st in rle_finish blob st'
  else let* marker := unpack_h blob (rle_offset st) in
       if negb (marker =? end_marker) then Ok None
       else Ok (Some (rle_result st)).
Proof.
  unfold rle_finish. rewrite rle_loop_unfold.
  destruct (2 <? rle_size st); [|reflexivity].
  destruct (rle_body blob st); reflexivity.
Qed.

(** The readers of the code and the readers of the specification agree
    from a position at or after the start of the buffer. *)
Lemma drop_lookup (blob : bytes) (n : nat) (b : byte) :
  blob !! n = Some b -> drop n blob = b :: drop (S n) blob.
Proof.
  revert n. induction blob as [|a blob IH]; intros [|n] H; try discriminate.
  - injection H as ->. reflexivity.
  - cbn [drop]. apply IH. exact H.
Qed.

Lemma byte_at_lookup (blob : bytes) pos :
  0 <= pos -> byte_at blob pos = blob !! Z.to_nat pos.
Proof.
  intros H. unfold byte_at.
  replace (pos <? 0) with false by (symmetry; apply Z.ltb_ge; lia).
  reflexivity.
Qed.

Lemma bytes_at_slice (blob : bytes) n : forall pos,
  0 <= pos <= len blob ->
  bytes_at blob pos n
  = if pos + Z.of_nat n <=? len blob
    then Some (take n (drop (Z.to_nat pos) blob)) else None.
Proof.
  induction n as [|n IH]; intros pos Hpos.
  - cbn [bytes_at take]. rewrite Z.add_0_r.
    replace (pos <=? len blob) with true by (symmetry; apply Z.leb_le; lia).
    reflexivity.
  - cbn [bytes_at].
    destruct (byte_at blob pos) as [b|] eqn:Hb;
      rewrite byte_at_lookup in Hb by lia.
    + pose proof (lookup_lt_Some _ _ _ Hb) as Hlt.
      rewrite IH by (unfold len; lia).
      replace (pos + 1 + Z.of_nat n) with (pos + Z.of_nat (S n)) by lia.
      destruct (pos + Z.of_nat (S n) <=? len blob); [|reflexivity].
      rewrite (drop_lookup blob _ b Hb). cbn [take].
      replace (Z.to_nat (pos + 1)) with (S (Z.to_nat pos)) by lia.
      reflexivity.
    + apply lookup_ge_None in Hb.
      replace (pos + Z.of_nat (S n) <=? len blob) with false
        by (symmetry; apply Z.leb_gt; unfold len; lia).
      reflexivity.
Qed.

Lemma slice_at_bytes_at blob pos n :
  0 <= pos <= len blob ->
  slice_at blob pos (Z.of_nat n)
  = match bytes_at blob pos n with
    | Some bs => Ok bs
    | None => Raise StructError
    end.
Proof.
  intros Hpos. rewrite bytes_at_slice by assumption. unfold slice_at.
  assert (E0 : (pos <? 0) = false) by (apply Z.ltb_ge; lia).
  cbv zeta. rewrite E0. cbv iota. rewrite E0.
  cbn [orb]. rewrite Nat2Z.id.
  destruct (pos + Z.of_nat n <=? len blob) eqn:E.
  - apply Z.leb_le in E.
    replace (len blob - pos <? Z.of_nat n) with false
      by (symmetry; apply Z.ltb_ge; lia).
    reflexivity.
  - apply Z.leb_gt in E.
    replace (len blob - pos <? Z.of_nat n) with true
      by (symmetry; apply Z.ltb_lt; lia).
    reflexivity.
Qed.

Lemma slice_at_beyond blob pos n :
  len blob < pos -> 0 <= n -> slice_at blob pos n = Raise StructError.
Proof.
  intros Hpos Hn. unfold slice_at. pose proof (len_nonneg blob).
  assert (E0 : (pos <? 0) = false) by (apply Z.ltb_ge; lia).
  cbv zeta. rewrite E0. cbv iota. rewrite E0.
  replace (len blob - pos <? n) with true by (symmetry; apply Z.ltb_lt; lia).
  reflexivity.
Qed.

Lemma byte_at_beyond blob pos : len blob <= pos -> byte_at blob pos = None.
Proof.
  intros H. unfold byte_at. destruct (pos <? 0); [reflexivity|].
  apply lookup_ge_None. unfold len in H. lia.
Qed.

Lemma unpack_h_int16_at blob pos :
  0 <= pos ->
  unpack_h blob pos
  = match int16_at blob pos with
    | Some v => Ok v
    | None => Raise StructError
    end.
Proof.
  intros Hpos. unfold unpack_h, int16_at.
  destruct (Z.le_gt_cases pos (len blob)) as [Hle|Hgt].
  - change (slice_at blob pos 2) with (slice_at blob pos (Z.of_nat 2)).
    rewrite (slice_at_bytes_at blob pos 2) by lia. cbn [bytes_at].
    destruct (byte_at blob pos) as [lo|]; [|reflexivity].
    destruct (byte_at blob (pos + 1)) as [hi|]; [|reflexivity].
    cbn [rbind le_uint]. unfold to_signed.
    change (2 ^ (16 - 1)) with 32768. change (2 ^ 16) with 65536.
    replace (byte_val lo + 256 * (byte_val hi + 256 * 0))
      with (byte_val lo + 256 * byte_val hi) by lia.
    reflexivity.
  - rewrite slice_at_beyond by lia.
    rewrite (byte_at_beyond blob pos) by lia. reflexivity.
Qed.

Lemma unpack_1B_byte_at blob pos :
  0 <= pos ->
  unpack_nB 1 blob pos
  = match byte_at blob pos with
    | Some b => Ok [b]
    | None => Raise StructError
    end.
Proof.
  intros Hpos. unfold unpack_nB.
  destruct (Z.le_gt_cases pos (len blob)) as [Hle|Hgt].
  - change (slice_at blob pos 1) with (slice_at blob pos (Z.of_nat 1)).
    rewrite (slice_at_bytes_at blob pos 1) by lia. cbn [bytes_at].
    destruct (byte_at blob pos); reflexivity.
  - rewrite slice_at_beyond by lia.
    rewrite (byte_at_beyond blob pos) by lia. reflexivity.
Qed.

Lemma int16_at_inside blob pos v :
  int16_at blob pos = Some v -> pos + 2 <= len blob.
Proof.
  unfold int16_at. destruct (byte_at blob pos); [|discriminate].
  destruct (byte_at blob (pos + 1)) eqn:Hhi; [|discriminate]. intros _.
  destruct (Z.le_gt_cases (len blob) (pos + 1)) as [Hle|Hgt]; [|lia].
  rewrite byte_at_beyond in Hhi by assumption. discriminate.
Qed.

Lemma tuple_repeat_singleton {A} (a : A) n :
  tuple_repeat [a] n = replicate (Z.to_nat n) a.
Proof.
  unfold tuple_repeat. induction (Z.to_nat n) as [|k IH]; [reflexivity|].
  cbn [replicate mjoin list_join app]. f_equal. exact IH.
Qed.

(** One step of [decode_RLE] from a state on, with the readers of the
    specification. *)
Lemma rle_finish_step blob offset size result :
  0 <= offset ->
  rle_finish blob (RleState offset size result) =
  if 2 <? size then
    match int16_at blob offset with
    | None => Raise StructError
    | Some count =>
        if count <? 0 then
          match byte_at blob (offset + 2) with
          | None => Raise StructError
          | Some b =>
              rle_finish blob
                (RleState (offset + 2 + 1) (size - (2 + 1))
                          (result ++ replicate (Z.to_nat (- count)) b))
          end
        else
          match bytes_at blob (offset + 2) (Z.to_nat count) with
          | None => Raise StructError
          | Some bs =>
              rle_finish blob
                (RleState (offset + 2 + count) (size - (2 + count))
                          (result ++ bs))
          end
    end
  else
    match int16_at blob offset with
    | None => Raise StructError
    | Some marker =>
        if marker =? -32768 then Ok (Some result) else Ok None
    end.
Proof.
  intros Hoff. rewrite rle_finish_unfold.
  cbn [rle_size rle_offset rle_result rle_body].
  rewrite unpack_h_int16_at by assumption.
  destruct (2 <? size).
  - destruct (int16_at blob offset) as [count|] eqn:Hcount; [|reflexivity].
    cbn [rbind]. apply int16_at_inside in Hcount.
    destruct (count <? 0) eqn:Hneg.
    + rewrite unpack_1B_byte_at by lia.
      destruct (byte_at blob (offset + 2)) as [b|]; [|reflexivity].
      cbn [rbind]. rewrite tuple_repeat_singleton. reflexivity.
    + apply Z.ltb_ge in Hneg. unfold unpack_nB.
      rewrite <- (Z2Nat.id count) at 1 by assumption.
      rewrite slice_at_bytes_at by lia.
      destruct (bytes_at blob (offset + 2) (Z.to_nat count)); reflexivity.
  - destruct (int16_at blob offset) as [marker|]; [|reflexivity].
    cbn [rbind]. unfold end_marker.
    destruct (marker =? -32768); reflexivity.
Qed.

Lemma rle_spec_finish blob cursor budget acc r :
  0 <= cursor ->
  rle_spec blob cursor budget acc r ->
  rle_finish blob (RleState cursor budget acc) = r.
Proof.
  intros Hc Hspec. induction Hspec;
    rewrite rle_finish_step by assumption;
    repeat match goal with
    | H : 3 <= ?b |- context [2 <? ?b] =>
        replace (2 <? b) with true by (symmetry; apply Z.ltb_lt; lia)
    | H : ?b < 3 |- context [2 <? ?b] =>
        replace (2 <? b) with false by (symmetry; apply Z.ltb_ge; lia)
    | H : int16_at _ _ = _ |- _ => rewrite H; clear H
    | H : ?c < 0 |- context [?c <? 0] =>
        replace (c <? 0) with true by (symmetry; apply Z.ltb_lt; lia)
    | H : 0 <= ?c |- context [?c <? 0] =>
        replace (c <? 0) with false by (symmetry; apply Z.ltb_ge; lia)
    | H : byte_at _ _ = _ |- _ => rewrite H; clear H
    | H : bytes_at _ _ _ = _ |- _ => rewrite H; clear H
    end; try reflexivity.
  - apply IHHspec. lia.
  - apply IHHspec. lia.
  - destruct (marker =? -32768) eqn:E; [lia|reflexivity].
Qed.

Lemma rle_finish_spec blob n : forall offset size result,
  0 <= offset -> size <= Z.of_nat n ->
  rle_spec blob offset size result
           (rle_finish blob (RleState offset size result)).
Proof.
  induction n as [|n IH]; intros offset size result Hoff Hn;
    rewrite rle_finish_step by assumption.
  - replace (2 <? size) with false by (symmetry; apply Z.ltb_ge; lia).
    destruct (int16_at blob offset) as [marker|] eqn:Hm.
    + destruct (marker =? -32768) eqn:E.
      * apply Z.eqb_eq in E; subst. apply rle_end_found; [lia|assumption].
      * apply Z.eqb_neq in E. eapply rle_end_missing; eauto; lia.
    + apply rle_end_truncated; [lia|assumption].
  - destruct (2 <? size) eqn:Hs.
    + apply Z.ltb_lt in Hs.
      destruct (int16_at blob offset) as [count|] eqn:Hc.
      2:{ apply rle_count_truncated; [lia|assumption]. }
      destruct (count <? 0) eqn:Hneg.
      * apply Z.ltb_lt in Hneg.
        destruct (byte_at blob (offset + 2)) as [b|] eqn:Hb.
        -- eapply rle_repeat; eauto; try lia. apply IH; lia.
        -- eapply rle_repeat_truncated; eauto; lia.
      * apply Z.ltb_ge in Hneg.
        destruct (bytes_at blob (offset + 2) (Z.to_nat count)) as [bs|] eqn:Hb.
        -- eapply rle_literal; eauto; try lia. apply IH; lia.
        -- eapply rle_literal_truncated; eauto; lia.
    + apply Z.ltb_ge in Hs.
      destruct (int16_at blob offset) as [marker|] eqn:Hm.
      * destruct (marker =? -32768) eqn:E.
        -- apply Z.eqb_eq in E; subst. apply rle_end_found; [lia|assumption].
        -- apply Z.eqb_neq in E. eapply rle_end_missing; eauto; lia.
      * apply rle_end_truncated; [lia|assumption].
Qed.

(** C6: [decode_RLE] is the run-length decoder of the specification: it
    reads signed 16-bit little-endian counts while at least 3 bytes of
    budget remain, appends [-count] copies of the next byte (cursor and
    budget move by 2 + 1) for a negative count and the next [count] bytes
    (cursor and budget move by 2 + count) otherwise, and then returns the
    bytes accumulated exactly when the signed 16-bit value at the cursor
    is -32768, and no result when it is another value.  The result of the
    code and the result the specification describes are the same, for
    every blob, byte count and offset from the start of the blob. *)
Theorem decode_RLE_meets_spec (blob : bytes) (offset size : Z)
        (r : res (option bytes)) :
  0 <= offset ->
  decode_RLE blob offset size = r <-> rle_spec blob offset size [] r.
Proof.
  intros Hoff.
  change (decode_RLE blob offset size)
    with (rle_finish blob (RleState offset size [])).
  split.
  - intros <-. apply (rle_finish_spec blob (Z.to_nat size)); lia.
  - apply rle_spec_finish. assumption.
Qed.

(** ** Bytes and words *)

Lemma byte_val_range b : 0 <= byte_val b < 256.
Proof.
  unfold byte_val. pose proof (Byte.to_N_bounded b). lia.
Qed.

Lemma le_uint_range bs : 0 <= le_uint bs < 2 ^ (8 * len bs).
Proof.
  unfold len. induction bs as [|b bs IH].
  - simpl. lia.
  - cbn [le_uint length]. pose proof (byte_val_range b).
    replace (8 * Z.of_nat (S (length bs))) with (8 + 8 * Z.of_nat (length bs)) by lia.
    rewrite Z.pow_add_r by lia. change (2 ^ 8) with 256. lia.
Qed.

Lemma len_take_le {A} (l : list A) n :
  0 <= n -> len (take (Z.to_nat n) l) <= n.
Proof. unfold len. rewrite length_take. lia. Qed.

Lemma slice_at_len blob offset size bs :
  0 <= size -> slice_at blob offset size = Ok bs -> len bs = size.
Proof.
  unfold slice_at, len. intros Hs.
  set (off := if offset <? 0 then _ else _).
  destruct ((off <? 0) || (_ <? size)) eqn:E; [discriminate|].
  intros [= <-]. apply orb_false_elim in E as [E1 E2].
  apply Z.ltb_ge in E1, E2. unfold len in E2.
  rewrite length_take, length_drop. lia.
Qed.

Lemma le_uint_word bs : len bs <= 4 -> is_word (le_uint bs).
Proof.
  intros H. pose proof (le_uint_range bs) as [H0 H1]. split; [assumption|].
  eapply Z.lt_le_trans; [exact H1|].
  apply Z.pow_le_mono_r; unfold len in *; lia.
Qed.

Lemma le_words_word n : forall bs, Forall is_word (le_words n bs).
Proof.
  induction n as [|n IH]; intros bs; cbn [le_words]; constructor.
  - apply le_uint_word. apply (len_take_le bs 4). lia.
  - apply IH.
Qed.

Lemma lor_range k a b :
  0 <= k -> 0 <= a < 2 ^ k -> 0 <= b < 2 ^ k -> 0 <= Z.lor a b < 2 ^ k.
Proof.
  intros Hk Ha Hb. split.
  - apply Z.lor_nonneg. lia.
  - destruct (Z.eq_dec (Z.lor a b) 0) as [->|Hne]; [lia|].
    apply Z.log2_lt_pow2; [assert (0 <= Z.lor a b) by (apply Z.lor_nonneg; lia); lia|].
    rewrite Z.log2_lor by lia.
    destruct (Z.eq_dec a 0) as [->|Ha0], (Z.eq_dec b 0) as [->|Hb0].
    + exfalso. apply Hne. reflexivity.
    + rewrite Z.max_r by (apply Z.log2_nonneg). apply Z.log2_lt_pow2; lia.
    + rewrite Z.max_l by (apply Z.log2_nonneg). apply Z.log2_lt_pow2; lia.
    + apply Z.max_lub_lt; apply Z.log2_lt_pow2; lia.
Qed.

Lemma v8_loop_word extra : forall values8 i v8,
  0 <= i -> i + len values8 <= extra -> 0 < extra < 4 ->
  is_word v8 -> is_word (v8_loop extra values8 i v8).
Proof.
  unfold len. induction values8 as [|b rest IH]; intros i v8 Hi Hlen He Hv8;
    cbn [v8_loop]; [assumption|].
  cbn [length] in Hlen. apply IH; try lia.
  apply lor_range; [lia|exact Hv8|].
  pose proof (byte_val_range b) as Hb.
  rewrite Z.shiftl_mul_pow2 by lia. split; [apply Z.mul_nonneg_nonneg; lia|].
  assert (0 < 2 ^ (8 * (i + 4 - extra))) by (apply Z.pow_pos_nonneg; lia).
  replace 32 with (8 + 24) by lia. rewrite Z.pow_add_r by lia.
  change (2 ^ 8) with 256.
  assert (2 ^ (8 * (i + 4 - extra)) <= 2 ^ 24)
    by (apply Z.pow_le_mono_r; lia).
  nia.
Qed.

Lemma land_mask n x :
  0 <= n -> Z.land (Z.shiftl 1 n - 1) x = x mod 2 ^ n.
Proof.
  intros Hn. rewrite Z.land_comm. rewrite <- Z.land_ones by assumption.
  unfold Z.ones. rewrite Z.sub_1_r. reflexivity.
Qed.

(** ** read_qval: the range of the unpacked integers *)

Lemma array_I_set_Ok a i x a' :
  array_I_set a i x = Ok a' ->
  0 <= x < 2 ^ 32 /\ exists j, a' = <[j := x]> a.
Proof.
  unfold array_I_set.
  destruct ((x <? 0) || (2 ^ 32 <=? x)) eqn:E; [discriminate|].
  apply orb_false_elim in E as [E1 E2].
  apply Z.ltb_ge in E1. apply Z.leb_gt in E2.
  intros H. apply rbind_Ok in H as (j & _ & [= <-]). eauto.
Qed.

Lemma py_rshift_Ok a n r :
  py_rshift a n = Ok r -> 0 <= n /\ r = Z.shiftr a n.
Proof.
  unfold py_rshift. destruct (n <? 0) eqn:E; [discriminate|].
  apply Z.ltb_ge in E. intros [= <-]. auto.
Qed.

Lemma py_lshift_Ok a n r :
  py_lshift a n = Ok r -> 0 <= n /\ r = Z.shiftl a n.
Proof.
  unfold py_lshift. destruct (n <? 0) eqn:E; [discriminate|].
  apply Z.ltb_ge in E. intros [= <-]. auto.
Qed.

(** The high part of a value that spans two words leaves room for the low
    part. *)
Lemma spanning_sum n bl v v' :
  0 <= bl < n -> 0 <= bl + (32 - n) -> is_word v' ->
  0 <= (Z.shiftl v (n - bl)) mod 2 ^ n + Z.shiftr v' (bl + (32 - n)) < 2 ^ n.
Proof.
  intros Hbl Hs [Hv0 Hv1].
  rewrite Z.shiftl_mul_pow2, Z.shiftr_div_pow2 by lia.
  set (s := n - bl).
  assert (Hpow : 2 ^ n = 2 ^ bl * 2 ^ s)
    by (rewrite <- Z.pow_add_r by lia; f_equal; lia).
  assert (0 < 2 ^ bl) by (apply Z.pow_pos_nonneg; lia).
  assert (0 < 2 ^ s) by (apply Z.pow_pos_nonneg; lia).
  assert (0 < 2 ^ (bl + (32 - n))) by (apply Z.pow_pos_nonneg; lia).
  rewrite Hpow, Z.mul_mod_distr_r by lia.
  pose proof (Z.mod_pos_bound v (2 ^ bl) ltac:(lia)) as Hm.
  assert (Hq : 0 <= v' / 2 ^ (bl + (32 - n)) < 2 ^ s).
  { split; [apply Z.div_pos; lia|].
    apply Z.div_lt_upper_bound; [lia|].
    rewrite <- Z.pow_add_r by lia.
    replace (bl + (32 - n) + s) with 32 by lia. assumption. }
  nia.
Qed.

Lemma qval_body_ok n dst st st' :
  1 <= n -> qval_ok n st ->
  qval_body n (Z.shiftl 1 n - 1) dst st = Ok st' -> qval_ok n st'.
Proof.
  intros Hn [Hvals Hbits Hv Hsrc]. destruct st as [values bl v src].
  cbn [q_values q_bits_left q_v q_src] in *. unfold qval_body.
  destruct (n <=? bl) eqn:Hcmp.
  - apply Z.leb_le in Hcmp. intros H.
    apply rbind_Ok in H as (sh & Hsh & H).
    apply rbind_Ok in H as (values' & Hset & [= <-]).
    apply array_I_set_Ok in Hset as (_ & j & ->).
    constructor; cbn [q_values q_bits_left q_v q_src]; try assumption; [|lia].
    apply Forall_insert; [assumption|].
    rewrite land_mask by lia. apply Z.mod_pos_bound.
    apply Z.pow_pos_nonneg; lia.
  - apply Z.leb_gt in Hcmp. intros H.
    apply rbind_Ok in H as (sh & Hsh & H).
    apply py_lshift_Ok in Hsh as (_ & ->).
    destruct src as [|v' src']; [discriminate|].
    apply rbind_Ok in H as (sh' & Hsh' & H).
    apply py_rshift_Ok in Hsh' as (Hbl' & ->).
    apply rbind_Ok in H as (values' & Hset & [= <-]).
    apply array_I_set_Ok in Hset as (_ & j & ->).
    inversion Hsrc as [|? ? Hv' Hsrc']; subst.
    constructor; cbn [q_values q_bits_left q_v q_src]; try assumption; [|lia].
    apply Forall_insert; [assumption|].
    rewrite land_mask by lia. apply spanning_sum; [lia|lia|assumption].
Qed.

Lemma qval_loop_ok n dsts : forall st st',
  1 <= n -> qval_ok n st ->
  qval_loop n (Z.shiftl 1 n - 1) dsts st = Ok st' -> qval_ok n st'.
Proof.
  induction dsts as [|dst rest IH]; intros st st' Hn Hok; cbn [qval_loop].
  - intros [= <-]. assumption.
  - intros H. apply rbind_Ok in H as (st1 & Hbody & H).
    eapply IH; [assumption| |exact H].
    eapply qval_body_ok; eassumption.
Qed.

(** C9: when [read_qval] returns a sequence of integers, each of them is
    at least 0 and less than 2 ^ n, where n is the number of bits per
    value in the low six bits of the header byte. *)
Theorem read_qval_values_in_range (blob : bytes) (offset : Z) (header : Z)
        (values : list Z) (offset' : Z) :
  unpack_B blob offset = Ok header ->
  read_qval blob offset = Ok (Some values, offset') ->
  1 <= Z.land header 63 /\
  Forall (fun x => 0 <= x < 2 ^ Z.land header 63) values.
Proof.
  intros Hhdr. unfold read_qval. rewrite Hhdr. cbn [rbind].
  set (n := Z.land header 63).
  assert (Hn0 : 0 <= n) by (apply Z.land_nonneg; lia).
  destruct (n =? 0) eqn:Hz; [discriminate|]. apply Z.eqb_neq in Hz.
  assert (Hn : 1 <= n) by lia.
  intros H.
  apply rbind_Ok in H as (unpack_count & _ & H).
  apply rbind_Ok in H as (count & _ & H).
  apply rbind_Ok in H as (width & _ & H).
  set (nbytes := (count * n + 7) / 8) in H.
  apply rbind_Ok in H as (values32 & H32 & H).
  apply rbind_Ok in H as ([words off] & Hwords & H).
  assert (Hw : Forall is_word words).
  { unfold unpack_nI in H32.
    apply rbind_Ok in H32 as (bs & _ & [= <-]).
    destruct (negb (0 =? nbytes - nbytes / 4 * 4)) eqn:Hextra.
    - apply rbind_Ok in Hwords as (values8 & H8 & [= <- <-]).
      apply negb_true_iff, Z.eqb_neq in Hextra.
      pose proof (Z.mod_pos_bound nbytes 4 ltac:(lia)) as Hmod.
      pose proof (Z.div_mod nbytes 4 ltac:(lia)) as Hdm.
      apply slice_at_len in H8; [|lia].
      apply Forall_app. split; [apply le_words_word|].
      constructor; [|constructor].
      apply v8_loop_word; try lia. split; [lia|reflexivity].
    - injection Hwords as <- <-. apply le_words_word. }
  destruct words as [|v src]; [discriminate|].
  apply rbind_Ok in H as (st & Hloop & [= <- <-]).
  split; [assumption|].
  inversion Hw as [|? ? Hv Hsrc]; subst.
  apply (qval_loop_ok n _ _ _ Hn) in Hloop; [apply Hloop|].
  constructor; cbn [q_values q_bits_left q_v q_src]; try assumption; [|lia].
  apply Forall_replicate. split; [lia|]. apply Z.pow_pos_nonneg; lia.
Qed.

Section Session.
Context {float : Type} {F : PyFloat float} {Mem : PyMemory}.
Local Abbreviation descriptor := (@descriptor float) (only parsing).
Local Abbreviation lerc := (@lerc float) (only parsing).
Local Abbreviation num := (@num float) (only parsing).

(** ** The header parser *)

Lemma mask_check_true d :
  mask_check d = true <->
  nbY d = 0 /\ nbX d = 0 /\
  (feq f1 (maxVal d) = true \/ feq f0 (maxVal d) = true).
Proof.
  unfold mask_check. rewrite andb_true_iff, orb_true_iff, Z.eqb_eq.
  split.
  - intros [Hlor Hval]. symmetry in Hlor.
    apply Z.lor_eq_0_iff in Hlor as [-> ->]. auto.
  - intros (-> & -> & Hval). auto.
Qed.

Lemma lerc_init_outcome blob : init_outcome blob (lerc_init blob).
Proof.
  unfold lerc_init, init_try.
  destruct (decide (take 10 blob = magic)) as [Hmagic|Hmagic].
  2:{ rewrite bool_decide_eq_false_2 by assumption. cbn.
      apply init_bad_magic. assumption. }
  rewrite bool_decide_eq_true_2 by assumption. cbn [py_assert].
  destruct (unpack_IIIId blob 10) as [[[[[fv it] h] w] u]|e] eqn:Hhdr.
  2:{ cbn. eapply init_short_header; eassumption. }
  destruct ((fv =? 11) && (it =? 8)) eqn:Hver; cbn [py_assert].
  2:{ cbn. eapply init_bad_version; eassumption. }
  destruct (unpack_IIIf blob 34) as [first|e] eqn:Hfirst.
  2:{ cbn. eapply init_no_descriptor; eassumption. }
  destruct (66 + nB first <=? len blob) eqn:Hlen.
  2:{ cbn. apply Z.leb_gt in Hlen. eapply init_values_only; eassumption. }
  apply Z.leb_le in Hlen.
  fold (mask_check first).
  destruct (mask_check first) eqn:Hcheck; cbn [py_assert].
  2:{ cbn. eapply init_mask_refused; eassumption. }
  destruct (unpack_IIIf blob (50 + nB first)) as [second|e] eqn:Hsecond.
  - cbn. eapply init_mask_and_values; eassumption.
  - cbn. eapply init_no_values; eassumption.
Qed.

(** C1: when the blob is long enough to hold a mask descriptor (its length
    is at least 66 plus the byte count of the first descriptor), the
    parser takes the first descriptor as the mask descriptor only if its
    block-row and block-column counts are both zero and its fill value
    equals 0.0 or 1.0; a first descriptor with a nonzero block-row or
    block-column count is never taken as the mask descriptor. *)
Theorem mask_descriptor_validated (blob : bytes) (first : descriptor) :
  unpack_IIIf blob 34 = Ok first ->
  66 + nB first <= len blob ->
  (forall d, lerc_m (lerc_init blob) = Some d ->
     d = first /\ nbY first = 0 /\ nbX first = 0 /\
     (feq f1 (maxVal first) = true \/ feq f0 (maxVal first) = true)) /\
  (nbY first <> 0 \/ nbX first <> 0 -> lerc_m (lerc_init blob) = None).
Proof.
  intros Hfirst Hlen.
  assert (Hm : forall d, lerc_m (lerc_init blob) = Some d ->
                         d = first /\ mask_check first = true).
  { intros d Hd. destruct (lerc_init_outcome blob); cbn in Hd;
      try discriminate; injection Hd as <-;
      match goal with
      | H : unpack_IIIf blob 34 = Ok _ |- _ =>
          rewrite Hfirst in H; injection H as <-
      end; auto. }
  split.
  - intros d Hd. apply Hm in Hd as [-> Hcheck].
    apply mask_check_true in Hcheck. tauto.
  - intros Hnz. destruct (lerc_m (lerc_init blob)) as [d|] eqn:Hd; [|reflexivity].
    destruct (Hm d eq_refl) as [_ Hcheck]. apply mask_check_true in Hcheck.
    exfalso. tauto.
Qed.

(** C2, amended: for every blob long enough to hold a mask descriptor
    whose first descriptor fails the mask validation, the failed assertion
    marks the session invalid, and the first descriptor is recorded neither
    as the mask descriptor nor as the value descriptor. *)
Theorem failed_mask_invalidates (blob : bytes) (first : descriptor) :
  unpack_IIIf blob 34 = Ok first ->
  66 + nB first <= len blob ->
  mask_check first = false ->
  valid (lerc_init blob) = Some false /\
  lerc_m (lerc_init blob) = None /\
  lerc_v (lerc_init blob) = None.
Proof.
  intros Hfirst Hlen Hcheck.
  destruct (lerc_init_outcome blob); cbn; auto;
    match goal with
    | H : unpack_IIIf blob 34 = _ |- _ =>
        rewrite Hfirst in H; try discriminate H; injection H as <-
    end; try lia; congruence.
Qed.

(** ** decode *)

Lemma decode_effect self blob :
  same_header self (fst (decode self blob)) /\
  lerc_mask (fst (decode self blob)) = mask_after self blob.
Proof.
  unfold decode, mask_after, same_header.
  destruct self as [[[|]|] h w u m v [mask|]]; cbn; auto 10.
  destruct (decode_mask _ blob); cbn; auto 10.
Qed.

(** C10: [decode] leaves the header state alone: after a call the validity
    flag, the height, the width, the quantization step and both
    descriptors are what they were, and the only attribute it adds is the
    cached mask, set by the first call that gets one from [decode_mask]
    and found unchanged after any later call. *)
Theorem decode_keeps_header (self : lerc) (blob blob' : bytes) :
  let self1 := fst (decode self blob) in
  let self2 := fst (decode self1 blob') in
  same_header self self1 /\
  lerc_mask self1 = mask_after self blob /\
  same_header self self2 /\
  (forall mask, lerc_mask self1 = Some mask -> lerc_mask self2 = Some mask).
Proof.
  cbn zeta.
  destruct (decode_effect self blob) as [Hh1 Hm1].
  destruct (decode_effect (fst (decode self blob)) blob') as [Hh2 Hm2].
  repeat split; try apply Hh1; try assumption.
  1-6: unfold same_header in *; intuition congruence.
  intros mask Hmask. rewrite Hm2. unfold mask_after. rewrite Hmask.
  reflexivity.
Qed.

(** ** The validity mask *)

Lemma bitmask_uniform_raises (w h val : Z) :
  @bitmask_init float F w h val None = Raise TypeError.
Proof. reflexivity. Qed.

(** C8 fails on the code: a uniform mask is never built.  For a mask
    descriptor with byte count 0, [decode_mask] turns the fill value into
    the fill byte (255 for 1.0, 0 for 0.0) and calls [bitmask], which
    computes the size with [/]; that gives a float, and repeating the
    tuple [(val,)] a float number of times is a [TypeError], for every
    width, height and fill byte.  So no [at(x, y)] is ever answered. *)
Theorem uniform_fill_raises (self : lerc) (blob : bytes) (m : descriptor)
        (w h val : Z) :
  lerc_m self = Some m ->
  nB m = 0 ->
  lerc_w self = Some w ->
  lerc_h self = Some h ->
  f_to_int (fmul (maxVal m) (of_int 255)) = Ok val ->
  bitmask_init w h val None = Raise TypeError /\
  decode_mask self blob = Raise TypeError.
Proof.
  intros Hm Hn Hw Hh Hval. split; [apply bitmask_uniform_raises|].
  unfold decode_mask.
  rewrite Hm, Hw, Hh. cbn [attr rbind]. rewrite Hn. cbn [Z.eqb].
  rewrite Hval. apply bitmask_uniform_raises.
Qed.

(** C3 fails on the code: when the end marker of the mask region is not
    -32768, [decode_RLE] returns [None], [decode_mask] hands that [None] to
    [bitmask] as if no data had been given, and the uniform fill raises a
    [TypeError] that leaves [decode]; the session is left as it was. *)
Theorem corrupt_end_marker_raises (self : lerc) (blob : bytes)
        (m : descriptor) (w h : Z) :
  valid self = Some true ->
  lerc_mask self = None ->
  lerc_m self = Some m ->
  nB m <> 0 ->
  lerc_w self = Some w ->
  lerc_h self = Some h ->
  decode_RLE blob 50 (nB m) = Ok None ->
  decode self blob = (self, Raise TypeError).
Proof.
  intros Hvalid Hmask Hm Hn Hw Hh Hrle. unfold decode, decode_mask.
  rewrite Hvalid, Hmask, Hm, Hw, Hh. cbn [attr rbind negb].
  destruct (0 =? nB m) eqn:E; [apply Z.eqb_eq in E; lia|].
  rewrite Hrle. reflexivity.
Qed.

End Session.

Section Block.
Context {float : Type} {F : PyFloat float}.
Local Abbreviation descriptor := (@descriptor float) (only parsing).
Local Abbreviation lerc := (@lerc float) (only parsing).
Local Abbreviation num := (@num float) (only parsing).

(** ** read_block *)

Lemma elem_of_dloop x y rx ry :
  (x, y) ∈ dloop rx ry <-> x ∈ rx /\ y ∈ ry.
Proof.
  unfold dloop. rewrite list_elem_of_In, in_flat_map. split.
  - intros (y' & Hy & Hx). apply in_map_iff in Hx as (x' & [= -> ->] & Hx).
    split; apply list_elem_of_In; assumption.
  - intros [Hx Hy]. exists y. split; [apply list_elem_of_In; assumption|].
    apply in_map_iff. exists x. split; [reflexivity|].
    apply list_elem_of_In; assumption.
Qed.

Lemma py_index_Ok n i j :
  py_index n i = Ok j ->
  (j < n)%nat /\ Z.of_nat j = if i <? 0 then i + Z.of_nat n else i.
Proof.
  unfold py_index. set (k := if i <? 0 then _ else _).
  destruct ((k <? 0) || (Z.of_nat n <=? k)) eqn:E; [discriminate|].
  apply orb_false_elim in E as [E1 E2].
  apply Z.ltb_ge in E1. apply Z.leb_gt in E2. intros [= <-]. lia.
Qed.

Lemma py_index_valid n i :
  - Z.of_nat n <= i < Z.of_nat n -> exists j, py_index n i = Ok j.
Proof.
  intros H. unfold py_index. set (k := if i <? 0 then _ else _).
  assert (0 <= k < Z.of_nat n) by (subst k; destruct (i <? 0) eqn:E; lia).
  replace ((k <? 0) || (Z.of_nat n <=? k)) with false; [eauto|].
  symmetry. apply orb_false_intro; [apply Z.ltb_ge|apply Z.leb_gt]; lia.
Qed.

Lemma py_getitem_lookup {A} (l : list A) i j a :
  py_index (length l) i = Ok j -> l !! j = Some a -> py_getitem l i = Ok a.
Proof. intros Hi Hj. unfold py_getitem. rewrite Hi. cbn. rewrite Hj. reflexivity. Qed.

(** The constant loop on an array where every pixel of the block has a
    slot. *)
Lemma const_loop_fills mask mval cells : forall data,
  (forall x y, (x, y) ∈ cells ->
     - len data <= y * bm_w mask + x < len data) ->
  exists data',
    const_loop mask mval cells data = (data', Ok tt) /\
    length data' = length data /\
    (forall j, data !! j = Some (store_f32 (as_float mval)) ->
               data' !! j = Some (store_f32 (as_float mval))) /\
    (forall x y, (x, y) ∈ cells ->
       py_getitem data' (y * bm_w mask + x)
       = Ok (store_f32 (as_float mval))).
Proof.
  induction cells as [|[x y] rest IH]; intros data Hvalid.
  - exists data. cbn. repeat split; auto. intros x y H. inversion H.
  - destruct (py_index_valid (length data) (y * bm_w mask + x)) as [j Hj].
    { apply Hvalid. left. }
    cbn [const_loop]. unfold mbind at 1, array_f_set at 1. rewrite Hj.
    destruct (IH (<[j := store_f32 (as_float mval)]> data))
      as (data' & Hrun & Hlen & Hkeep & Hfill).
    { intros x' y' Hin. unfold len. rewrite length_insert.
      apply Hvalid. right. assumption. }
    rewrite length_insert in Hlen.
    exists data'. split; [exact Hrun|]. split; [exact Hlen|]. split.
    + intros k Hk. apply Hkeep.
      destruct (decide (j = k)) as [->|Hne].
      * apply list_lookup_insert_eq. apply lookup_lt_Some in Hk. assumption.
      * rewrite list_lookup_insert_ne by assumption. assumption.
    + intros x' y' Hin. apply elem_of_cons in Hin as [[= -> ->]|Hin].
      * apply (py_getitem_lookup _ _ j); [rewrite Hlen; assumption|].
        apply Hkeep. apply list_lookup_insert_eq.
        apply py_index_Ok in Hj. lia.
      * apply Hfill. assumption.
Qed.

(** C4, amended: for every block whose flag byte has bit 1 of the mode set
    (low six bits 2 or 3, the constant modes; mode 1 is the quantized
    mode), [read_block] sets every pixel of the block's x-range and
    y-range to the block's minimum (the stored minimum in mode 3, 0.0 in
    mode 2) whatever the mask holds, and returns the offset after the
    minimum, provided every pixel of the block has a slot in the sample
    array. *)
Theorem constant_block_fills (rx ry : list Z) (mask : bitmask)
        (Q max_val : float) (blob : bytes) (offset : Z) (data : list float)
        (flags : Z) (mval : num) (offset' : Z) :
  unpack_B blob offset = Ok flags ->
  Z.land flags 63 = 2 \/ Z.land flags 63 = 3 ->
  read_mval (Z.land flags 63) (Z.shiftr flags 6) blob (offset + 1)
    = Ok (mval, offset') ->
  (forall x y, x ∈ rx -> y ∈ ry ->
     - len data <= y * bm_w mask + x < len data) ->
  block_filled_with_min rx ry mask Q max_val blob offset data /\
  snd (read_block rx ry mask Q max_val blob offset data) = Ok offset'.
Proof.
  intros Hflags Hmode Hmval Hvalid.
  destruct (const_loop_fills mask mval (dloop rx ry) data)
    as (data' & Hrun & _ & _ & Hfill).
  { intros x y Hin. apply elem_of_dloop in Hin as [Hx Hy]. auto. }
  assert (Hblock : read_block rx ry mask Q max_val blob offset data
                   = (data', Ok offset')).
  { unfold read_block, mbind, mlift. rewrite Hflags.
    set (mode := Z.land flags 63) in *.
    assert (Hlt : (mode <? 4) = true) by (apply Z.ltb_lt; lia).
    rewrite Hlt. cbn [py_assert].
    assert (Hnz : (mode =? 0) = false) by (apply Z.eqb_neq; lia).
    rewrite Hnz, Hmval.
    assert (Hbit : negb (0 =? Z.land mode 2) = true)
      by (destruct Hmode as [-> | ->]; reflexivity).
    rewrite Hbit, Hrun. reflexivity. }
  split; [|rewrite Hblock; reflexivity].
  intros flags0 mval0 off0 Hflags0 Hmval0 x y Hx Hy.
  rewrite Hflags in Hflags0. injection Hflags0 as <-.
  rewrite Hmval in Hmval0. injection Hmval0 as <- <-.
  rewrite Hblock. apply Hfill. apply elem_of_dloop. auto.
Qed.

Lemma writes_clamped_refl max_val data : writes_clamped max_val data data.
Proof. intros i. left. reflexivity. Qed.

Lemma writes_clamped_step max_val data j s data' :
  flt max_val s = false ->
  writes_clamped max_val (<[j := s]> data) data' ->
  writes_clamped max_val data data'.
Proof.
  intros Hs Hrest i. destruct (Hrest i) as [Heq|Hclamped]; [|right; assumption].
  rewrite Heq. destruct (decide (j = i)) as [->|Hne].
  - destruct (data !! i) as [old|] eqn:Hold.
    + right. exists s. split; [|assumption].
      apply list_lookup_insert_eq. apply lookup_lt_Some in Hold. assumption.
    + left. apply lookup_ge_None.
      rewrite length_insert. apply lookup_ge_None. assumption.
  - left. apply list_lookup_insert_ne. assumption.
Qed.

(** The quantized loop writes nothing above the bound, when every sample
    it can compute is clamped once it is narrowed. *)
Lemma quant_loop_clamped mask mval Q max_val cells :
  (forall n,
     flt max_val
         (store_f32 (py_min (fadd (as_float mval) (fmul Q (of_int n)))
                            max_val)) = false) ->
  forall src data,
    writes_clamped max_val data
                   (fst (quant_loop mask mval Q max_val cells src data)).
Proof.
  intros Hsample. induction cells as [|[x y] rest IH]; intros src data.
  - apply writes_clamped_refl.
  - cbn [quant_loop]. unfold mbind at 1, mlift at 1.
    destruct (bitmask_at mask x y) as [[|]|e]; cbn [fst].
    + destruct src as [|n src]; [apply writes_clamped_refl|].
      unfold mbind at 1, array_f_set at 1.
      destruct (py_index (length data) (y * bm_w mask + x)) as [j|e];
        [|apply writes_clamped_refl].
      eapply writes_clamped_step; [|apply IH].
      cbn [as_float]. apply Hsample.
    + apply IH.
    + apply writes_clamped_refl.
Qed.

(** A quantized block writes nothing above the bound, when every sample
    that can be computed from the minimum it stores is clamped once it is
    narrowed. *)
Lemma quantized_block_writes_clamped (rx ry : list Z) (mask : bitmask)
      (Q max_val : float) (blob : bytes) (offset : Z) (data : list float)
      (flags : Z) :
  unpack_B blob offset = Ok flags ->
  Z.land flags 63 = 1 ->
  (forall mval off n,
     read_mval 1 (Z.shiftr flags 6) blob (offset + 1) = Ok (mval, off) ->
     flt max_val
         (store_f32 (py_min (fadd (as_float mval) (fmul Q (of_int n)))
                            max_val)) = false) ->
  block_clamped rx ry mask Q max_val blob offset data.
Proof.
  intros Hflags Hmode Hsample.
  unfold block_clamped, read_block, mbind, mlift.
  rewrite Hflags, Hmode.
  change (1 <? 4) with true. change (1 =? 0) with false.
  change (negb (0 =? Z.land 1 2)) with false. cbn [py_assert].
  destruct (read_mval 1 (Z.shiftr flags 6) blob (offset + 1))
    as [[mval off]|e] eqn:Hmval; [|apply writes_clamped_refl].
  destruct (read_qval blob off) as [[[ival|] off']|e];
    try apply writes_clamped_refl.
  pose proof (quant_loop_clamped mask mval Q max_val (dloop rx ry)
                (fun n => Hsample mval off n eq_refl) ival data) as Hloop.
  destruct (quant_loop mask mval Q max_val (dloop rx ry) ival data)
    as [data' [[]|e]]; exact Hloop.
Qed.

End Block.

(** ** The uniform mask under Python 2 *)

Lemma array_B_replicate n (b : byte) :
  array_B (replicate n (byte_val b)) = Ok (replicate n b).
Proof.
  induction n as [|n IH]; [reflexivity|].
  cbn [replicate array_B]. pose proof (byte_val_range b) as Hb.
  replace ((byte_val b <? 0) || (256 <=? byte_val b)) with false
    by (symmetry; apply orb_false_intro; [apply Z.ltb_ge|apply Z.leb_gt]; lia).
  unfold byte_val at 1. rewrite N2Z.id, Byte.of_to_N, IH. reflexivity.
Qed.

(** With the floor division of Python 2 the uniform mask is built: the one
    from the fill byte 255 (fill value 1.0) answers true at every pixel of
    the image, and the one from 0 (fill value 0.0) answers false. *)
Lemma uniform_fill_py2 (w h x y : Z) :
  0 <= x < w -> 0 <= y < h ->
  (exists mask, bitmask_init_py2 w h 255 None = Ok mask /\
                bitmask_at mask x y = Ok true) /\
  (exists mask, bitmask_init_py2 w h 0 None = Ok mask /\
                bitmask_at mask x y = Ok false).
Proof.
  intros Hx Hy. set (l := y * w + x).
  assert (Hl : 0 <= l < w * h) by (unfold l; nia).
  assert (Hbyte : 0 <= l / 8 < (w * h + 7) / 8)
    by (Z.div_mod_to_equations; lia).
  assert (Hbit : 0 <= l mod 8 < 8) by (apply Z.mod_pos_bound; lia).
  assert (Hget : forall b : byte,
            py_getitem (replicate (Z.to_nat ((w * h + 7) / 8)) b) (l / 8) = Ok b).
  { intros b.
    destruct (py_index_valid (Z.to_nat ((w * h + 7) / 8)) (l / 8)) as [j Hj];
      [lia|].
    apply (py_getitem_lookup _ _ j).
    - rewrite length_replicate. assumption.
    - apply py_index_Ok in Hj as [Hj _].
      apply lookup_replicate_2. assumption. }
  unfold bitmask_init_py2, py_floordiv. cbn [Z.eqb rbind].
  rewrite !tuple_repeat_singleton.
  change (replicate (Z.to_nat ((w * h + 7) / 8)) 255)
    with (replicate (Z.to_nat ((w * h + 7) / 8)) (byte_val xff)).
  change (replicate (Z.to_nat ((w * h + 7) / 8)) 0)
    with (replicate (Z.to_nat ((w * h + 7) / 8)) (byte_val x00)).
  rewrite !array_B_replicate. cbn [rbind].
  split; eexists; (split; [reflexivity|]);
    unfold bitmask_at; cbn [bm_w bm_data]; fold l; rewrite Hget; cbn [rbind];
    unfold py_rshift;
    replace (l mod 8 <? 0) with false by (symmetry; apply Z.ltb_ge; lia);
    cbn [rbind].
  - assert (Hk : l mod 8 = 0 \/ l mod 8 = 1 \/ l mod 8 = 2 \/ l mod 8 = 3 \/
                 l mod 8 = 4 \/ l mod 8 = 5 \/ l mod 8 = 6 \/ l mod 8 = 7)
      by lia.
    destruct Hk as [-> | [-> | [-> | [-> | [-> | [-> | [-> | ->]]]]]]];
      reflexivity.
  - change (byte_val x00) with 0. rewrite Z.land_0_l. reflexivity.
Qed.


(** ** The round trip of the bit-packed integers *)

Lemma len_app {A} (a b : list A) : len (a ++ b) = len a + len b.
Proof. unfold len. rewrite length_app. lia. Qed.

(** Reading the bytes [b] where they sit in a blob. *)
Lemma slice_at_app (a b c : bytes) :
  slice_at (a ++ b ++ c) (len a) (len b) = Ok b.
Proof.
  unfold slice_at. pose proof (len_nonneg a). pose proof (len_nonneg c).
  assert (E : (len a <? 0) = false) by (apply Z.ltb_ge; lia).
  cbv zeta. rewrite E. cbv iota. rewrite E, !len_app.
  replace (len a + (len b + len c) - len a <? len b) with false
    by (symmetry; apply Z.ltb_ge; lia).
  cbn [orb]. unfold len. rewrite !Nat2Z.id.
  rewrite drop_app_length, take_app_length. reflexivity.
Qed.

Lemma slice_at_app' (a b c : bytes) offset size :
  offset = len a -> size = len b ->
  slice_at (a ++ b ++ c) offset size = Ok b.
Proof. intros -> ->. apply slice_at_app. Qed.

Lemma byte_val_byte_of z : byte_val (byte_of z) = z mod 256.
Proof.
  unfold byte_val, byte_of.
  pose proof (Z.mod_pos_bound z 256 ltac:(lia)) as Hz.
  destruct (Byte.of_N (Z.to_N (z mod 256))) as [b|] eqn:Hb.
  - apply Byte.to_of_N in Hb. rewrite Hb. lia.
  - apply Byte.of_N_None_iff in Hb. lia.
Qed.

Lemma length_le_bytes n : forall z, length (le_bytes n z) = n.
Proof. induction n as [|n IH]; intros z; cbn [le_bytes length]; auto. Qed.

Lemma len_le_bytes n z : len (le_bytes n z) = Z.of_nat n.
Proof. unfold len. rewrite length_le_bytes. reflexivity. Qed.

Lemma le_uint_le_bytes n : forall z,
  le_uint (le_bytes n z) = z mod 2 ^ (8 * Z.of_nat n).
Proof.
  induction n as [|n IH]; intros z.
  - cbn. rewrite Z.mod_1_r. reflexivity.
  - cbn [le_bytes le_uint]. rewrite byte_val_byte_of, IH.
    replace (8 * Z.of_nat (S n)) with (8 + 8 * Z.of_nat n) by lia.
    rewrite Z.pow_add_r by lia. change (2 ^ 8) with 256.
    rewrite Z.rem_mul_r by (try apply Z.pow_nonzero; lia). lia.
Qed.

Lemma le_uint_le_bytes_small n z :
  0 <= z < 2 ^ (8 * Z.of_nat n) -> le_uint (le_bytes n z) = z.
Proof. intros H. rewrite le_uint_le_bytes. apply Z.mod_small. assumption. Qed.

Lemma pow2_pos n : 0 <= n -> 0 < 2 ^ n.
Proof. intros. apply Z.pow_pos_nonneg; lia. Qed.

Lemma be_words_spec n : forall p,
  0 <= p < 2 ^ (32 * Z.of_nat n) ->
  length (be_words n p) = n /\
  Forall is_word (be_words n p) /\
  words_val (be_words n p) = p.
Proof.
  induction n as [|n IH]; intros p Hp.
  - cbn in *. repeat split; [constructor|lia].
  - cbn [be_words]. set (m := 2 ^ (32 * Z.of_nat n)) in *.
    assert (Hm : 0 < m) by (apply pow2_pos; lia).
    assert (Hpow : 2 ^ (32 * Z.of_nat (S n)) = 2 ^ 32 * m).
    { unfold m. rewrite <- Z.pow_add_r by lia. f_equal. lia. }
    rewrite Hpow in Hp.
    destruct (IH (p mod m)) as (Hlen & Hwords & Hval);
      [apply Z.mod_pos_bound; lia|].
    split; [cbn [length]; congruence|]. split.
    + constructor; [|assumption]. split.
      * apply Z.div_pos; lia.
      * apply Z.div_lt_upper_bound; lia.
    + cbn [words_val]. unfold len. rewrite Hlen, Hval. fold m.
      pose proof (Z.div_mod p m ltac:(lia)). lia.
Qed.

Lemma words_val_range ws :
  Forall is_word ws -> 0 <= words_val ws < 2 ^ (32 * len ws).
Proof.
  unfold len. induction 1 as [|w ws [Hw0 Hw1] Hws IH]; cbn [words_val length].
  - cbn. lia.
  - unfold len.
    replace (32 * Z.of_nat (S (length ws))) with (32 + 32 * Z.of_nat (length ws)) by lia.
    rewrite Z.pow_add_r by lia.
    assert (0 < 2 ^ (32 * Z.of_nat (length ws))) by (apply pow2_pos; lia).
    nia.
Qed.

Lemma concat_bits_range nbits vals :
  0 <= nbits ->
  Forall (fun x => 0 <= x < 2 ^ nbits) vals ->
  0 <= concat_bits nbits vals < 2 ^ (nbits * len vals).
Proof.
  intros Hn. unfold len.
  induction 1 as [|x xs [Hx0 Hx1] Hxs IH]; cbn [concat_bits length].
  - rewrite Z.mul_0_r. cbn. lia.
  - unfold len.
    replace (nbits * Z.of_nat (S (length xs)))
      with (nbits + nbits * Z.of_nat (length xs)) by lia.
    rewrite Z.pow_add_r by lia.
    assert (0 < 2 ^ (nbits * Z.of_nat (length xs))) by (apply pow2_pos; lia).
    nia.
Qed.

Lemma split_unique m a b c d :
  0 <= b < m -> 0 <= d < m -> a * m + b = c * m + d -> a = c /\ b = d.
Proof. intros Hb Hd H. assert (a = c) by nia. split; [assumption|nia]. Qed.

Lemma array_I_set_at (done : list Z) (y : Z) (zeros : list Z) (x : Z) :
  0 <= x < 2 ^ 32 ->
  array_I_set (done ++ y :: zeros) (0 + Z.of_nat (length done)) x
  = Ok (done ++ x :: zeros).
Proof.
  intros [Hx0 Hx1]. unfold array_I_set.
  replace ((x <? 0) || (2 ^ 32 <=? x)) with false
    by (symmetry; apply orb_false_intro; [apply Z.ltb_ge|apply Z.leb_gt]; lia).
  unfold py_index. rewrite length_app. cbn [length].
  replace (0 + Z.of_nat (length done) <? 0) with false
    by (symmetry; apply Z.ltb_ge; lia).
  replace ((0 + Z.of_nat (length done) <? 0)
           || (Z.of_nat (length done + S (length zeros))
               <=? 0 + Z.of_nat (length done))) with false
    by (symmetry; apply orb_false_intro; [apply Z.ltb_ge|apply Z.leb_gt]; lia).
  cbn [rbind]. f_equal.
  replace (Z.to_nat (0 + Z.of_nat (length done))) with (length done + 0)%nat by lia.
  rewrite insert_app_r. reflexivity.
Qed.

(** One pass of the loop gives out the value in the top [n] pending bits. *)
Lemma qval_body_unpacks n k x r done y zeros bl v src :
  1 <= n <= 32 -> 0 <= k ->
  0 <= bl <= 32 -> Forall is_word src ->
  bl + 32 * len src = n + k ->
  0 <= x < 2 ^ n -> 0 <= r < 2 ^ k ->
  pending (QvalState (done ++ y :: zeros) bl v src) = x * 2 ^ k + r ->
  exists bl' v' src',
    qval_body n (Z.shiftl 1 n - 1) (0 + Z.of_nat (length done))
              (QvalState (done ++ y :: zeros) bl v src)
    = Ok (QvalState (done ++ x :: zeros) bl' v' src') /\
    0 <= bl' <= 32 /\ Forall is_word src' /\
    bl' + 32 * len src' = k /\
    pending (QvalState (done ++ x :: zeros) bl' v' src') = r.
Proof.
  intros Hn Hk Hbl Hsrc Hbits Hx Hr Hpend.
  unfold pending in Hpend. cbn [q_v q_bits_left q_src] in Hpend.
  pose proof (words_val_range src Hsrc) as Hwv.
  pose proof (len_nonneg src) as Hs.
  assert (Hx32 : 0 <= x < 2 ^ 32).
  { split; [lia|]. eapply Z.lt_le_trans; [apply Hx|].
    apply Z.pow_le_mono_r; lia. }
  unfold qval_body. destruct (n <=? bl) eqn:Hcmp.
  - apply Z.leb_le in Hcmp.
    unfold py_rshift.
    replace (bl - n <? 0) with false by (symmetry; apply Z.ltb_ge; lia).
    cbn [rbind]. rewrite land_mask, Z.shiftr_div_pow2 by lia.
    set (a := bl - n) in *.
    assert (Hsplit : v mod 2 ^ bl
                     = (v / 2 ^ a) mod 2 ^ n * 2 ^ a + v mod 2 ^ a).
    { replace bl with (a + n) by lia. rewrite Z.pow_add_r by lia.
      pose proof (pow2_pos a ltac:(lia)). pose proof (pow2_pos n ltac:(lia)).
      rewrite Z.rem_mul_r by lia. lia. }
    assert (Hk2 : 2 ^ k = 2 ^ a * 2 ^ (32 * len src)).
    { rewrite <- Z.pow_add_r by lia. f_equal. lia. }
    pose proof (pow2_pos a ltac:(lia)) as HA.
    pose proof (pow2_pos (32 * len src) ltac:(lia)) as HS.
    pose proof (Z.mod_pos_bound v (2 ^ a) HA) as Hlow.
    destruct (split_unique (2 ^ k) ((v / 2 ^ a) mod 2 ^ n)
                (v mod 2 ^ a * 2 ^ (32 * len src) + words_val src) x r)
      as [Hout Hrest]; [rewrite Hk2; nia|lia| |].
    { rewrite <- Hpend, Hsplit, Hk2. ring. }
    rewrite Hout, array_I_set_at by assumption. cbn [rbind].
    exists a, v, src. split; [reflexivity|].
    split; [lia|]. split; [assumption|]. split; [lia|].
    unfold pending. cbn [q_v q_bits_left q_src]. assumption.
  - apply Z.leb_gt in Hcmp.
    destruct src as [|v' src'].
    { unfold len in Hbits. cbn [length] in Hbits. lia. }
    unfold py_lshift.
    replace (n - bl <? 0) with false by (symmetry; apply Z.ltb_ge; lia).
    cbn [rbind]. unfold py_rshift.
    replace (bl + (32 - n) <? 0) with false by (symmetry; apply Z.ltb_ge; lia).
    cbn [rbind].
    rewrite land_mask, Z.shiftl_mul_pow2, Z.shiftr_div_pow2 by lia.
    inversion Hsrc as [|? ? [Hv0 Hv1] Hsrc']; subst.
    cbn [words_val] in Hpend, Hwv.
    pose proof (words_val_range src' Hsrc') as Hwv'.
    pose proof (len_nonneg src') as Hs'.
    assert (Hlen : len (v' :: src') = 1 + len src')
      by (unfold len; cbn [length]; lia).
    rewrite Hlen in *.
    set (c := n - bl) in *. set (b' := bl + (32 - n)) in *.
    assert (Hhigh : (v * 2 ^ c) mod 2 ^ n = v mod 2 ^ bl * 2 ^ c).
    { replace n with (bl + c) at 1 by lia. rewrite Z.pow_add_r by lia.
      pose proof (pow2_pos c ltac:(lia)). pose proof (pow2_pos bl ltac:(lia)).
      rewrite Z.mul_mod_distr_r by lia. reflexivity. }
    assert (H32 : 2 ^ (32 * (1 + len src'))
                  = 2 ^ c * 2 ^ b' * 2 ^ (32 * len src')).
    { rewrite <- !Z.pow_add_r by lia. f_equal. lia. }
    assert (Hk2 : 2 ^ k = 2 ^ b' * 2 ^ (32 * len src')).
    { rewrite <- Z.pow_add_r by lia. f_equal. lia. }
    pose proof (pow2_pos b' ltac:(lia)) as HB.
    pose proof (pow2_pos c ltac:(lia)) as HC.
    pose proof (pow2_pos (32 * len src') ltac:(lia)) as HS.
    pose proof (Z.mod_pos_bound v' (2 ^ b') HB) as Hlow.
    pose proof (Z.div_mod v' (2 ^ b') ltac:(lia)) as Hdm.
    destruct (split_unique (2 ^ k) (v mod 2 ^ bl * 2 ^ c + v' / 2 ^ b')
                (v' mod 2 ^ b' * 2 ^ (32 * len src') + words_val src') x r)
      as [Hout Hrest]; [rewrite Hk2; nia|lia| |].
    { rewrite <- Hpend, H32, Hk2.
      replace (v' * 2 ^ (32 * len src'))
        with ((2 ^ b' * (v' / 2 ^ b') + v' mod 2 ^ b') * 2 ^ (32 * len src'))
        by (rewrite <- Hdm; reflexivity).
      ring. }
    rewrite Hhigh, Hout, array_I_set_at by assumption. cbn [rbind].
    exists b', v', src'. split; [reflexivity|].
    split; [lia|]. split; [assumption|]. split; [lia|].
    unfold pending. cbn [q_v q_bits_left q_src]. assumption.
Qed.

Lemma qval_loop_unpacks n pad rest :
  1 <= n <= 32 -> 0 <= pad ->
  forall done bl v src,
    Forall (fun x => 0 <= x < 2 ^ n) rest ->
    0 <= bl <= 32 -> Forall is_word src ->
    bl + 32 * len src = n * len rest + pad ->
    pending (QvalState (done ++ replicate (length rest) 0) bl v src)
    = concat_bits n rest * 2 ^ pad ->
    exists st',
      qval_loop n (Z.shiftl 1 n - 1)
                (map (fun i => 0 + Z.of_nat i) (seq (length done) (length rest)))
                (QvalState (done ++ replicate (length rest) 0) bl v src)
      = Ok st' /\
      q_values st' = done ++ rest.
Proof.
  intros Hn Hpad. induction rest as [|x xs IH];
    intros done bl v src Hrange Hbl Hsrc Hbits Hpend.
  - cbn. eexists. split; [reflexivity|]. reflexivity.
  - inversion Hrange as [|? ? Hx Hxs]; subst.
    pose proof (concat_bits_range n xs ltac:(lia) Hxs) as Hcb.
    pose proof (len_nonneg xs) as Hlen.
    assert (Hlen' : len (x :: xs) = 1 + len xs)
      by (unfold len; cbn [length]; lia).
    rewrite Hlen' in Hbits.
    set (k := n * len xs + pad).
    assert (Hk : 2 ^ k = 2 ^ (n * len xs) * 2 ^ pad)
      by (unfold k; rewrite Z.pow_add_r by nia; reflexivity).
    pose proof (pow2_pos pad Hpad) as Hp2.
    cbn [length replicate seq map qval_loop].
    destruct (qval_body_unpacks n k x (concat_bits n xs * 2 ^ pad)
                done 0 (replicate (length xs) 0) bl v src)
      as (bl' & v' & src' & Hbody & Hbl' & Hsrc' & Hbits' & Hpend');
      try assumption; try (unfold k; nia).
    { rewrite Hk. nia. }
    { cbn [length replicate] in Hpend. rewrite Hpend. cbn [concat_bits].
      rewrite Hk. ring. }
    rewrite Hbody. cbn [rbind].
    specialize (IH (done ++ [x]) bl' v' src' Hxs Hbl' Hsrc').
    rewrite <- !app_assoc, length_app in IH. cbn [app length] in IH.
    replace (length done + 1)%nat with (S (length done)) in IH by lia.
    apply IH; [unfold k in Hbits'; lia|].
    unfold pending in *. cbn [q_v q_bits_left q_src] in *. assumption.
Qed.

(** *** The stored words *)

Lemma len_words_bytes ws : len (words_bytes ws) = 4 * len ws.
Proof.
  unfold len, words_bytes. induction ws as [|w ws IH]; [reflexivity|].
  cbn [flat_map length]. rewrite length_app, length_le_bytes. lia.
Qed.

Lemma stored_words_app ws1 : forall rest nb,
  0 <= nb ->
  stored_words (ws1 ++ rest) (4 * len ws1 + nb)
  = words_bytes ws1 ++ stored_words rest nb.
Proof.
  induction ws1 as [|w ws1 IH]; intros rest nb Hnb.
  - cbn [app words_bytes flat_map].
    replace (4 * len (@nil Z) + nb) with nb by (unfold len; cbn [length]; lia).
    reflexivity.
  - cbn [app stored_words words_bytes flat_map].
    assert (Hlen : len (w :: ws1) = 1 + len ws1)
      by (unfold len; cbn [length]; lia).
    pose proof (len_nonneg ws1).
    rewrite Hlen.
    replace (4 <=? 4 * (1 + len ws1) + nb) with true
      by (symmetry; apply Z.leb_le; lia).
    rewrite <- app_assoc. f_equal.
    replace (4 * (1 + len ws1) + nb - 4) with (4 * len ws1 + nb) by lia.
    apply IH. assumption.
Qed.

Lemma le_words_words_bytes ws :
  Forall is_word ws -> le_words (length ws) (words_bytes ws) = ws.
Proof.
  induction 1 as [|w ws Hw Hws IH]; [reflexivity|].
  cbn [length le_words words_bytes flat_map].
  rewrite take_app_length', drop_app_length' by (rewrite length_le_bytes; reflexivity).
  f_equal; [|exact IH].
  apply le_uint_le_bytes_small. exact Hw.
Qed.

Lemma land_low_shifted a b k :
  0 <= k -> 0 <= a < 2 ^ k -> Z.land a (b * 2 ^ k) = 0.
Proof.
  intros Hk Ha. apply Z.bits_inj'. intros i Hi.
  rewrite Z.land_spec, Z.bits_0.
  destruct (Z.lt_ge_cases i k) as [Hlt|Hge].
  - rewrite Z.mul_pow2_bits_low by lia. apply andb_false_r.
  - destruct (Z.eq_dec a 0) as [->|Hne]; [rewrite Z.bits_0; reflexivity|].
    rewrite (Z.bits_above_log2 a i); [reflexivity|lia|].
    assert (Z.log2 a < k) by (apply Z.log2_lt_pow2; lia). lia.
Qed.

Lemma lor_low_shifted a b k :
  0 <= k -> 0 <= a < 2 ^ k -> Z.lor a (Z.shiftl b k) = a + b * 2 ^ k.
Proof.
  intros Hk Ha. rewrite Z.shiftl_mul_pow2 by assumption.
  pose proof (land_low_shifted a b k Hk Ha) as Hland.
  rewrite <- Z.lxor_lor by assumption.
  symmetry. apply Z.add_nocarry_lxor. assumption.
Qed.

(** The stored high bytes of the last word give the word back when its
    other bytes are zero. *)
Lemma v8_loop_last_word extra w :
  0 < extra < 4 -> is_word w -> w mod 2 ^ (8 * (4 - extra)) = 0 ->
  v8_loop extra (drop (Z.to_nat (4 - extra)) (le_bytes 4 w)) 0 0 = w.
Proof.
  intros He [Hw0 Hw1] Hlow.
  assert (Hcases : extra = 1 \/ extra = 2 \/ extra = 3) by lia.
  change (2 ^ 32) with 4294967296 in Hw1.
  destruct Hcases as [-> | [-> | ->]]; cbn [le_bytes].
  - change (Z.to_nat (4 - 1)) with 3%nat. cbn [drop v8_loop].
    change (8 * (0 + 4 - 1)) with 24. change (8 * (4 - 1)) with 24 in Hlow.
    rewrite !byte_val_byte_of, Z.lor_0_l, Z.shiftl_mul_pow2 by lia.
    change (2 ^ 24) with 16777216 in *.
    Z.div_mod_to_equations. lia.
  - change (Z.to_nat (4 - 2)) with 2%nat. cbn [drop v8_loop].
    change (8 * (0 + 4 - 2)) with 16. change (8 * (0 + 1 + 4 - 2)) with 24.
    change (8 * (4 - 2)) with 16 in Hlow.
    rewrite !byte_val_byte_of, Z.lor_0_l, Z.shiftl_mul_pow2 by lia.
    rewrite lor_low_shifted;
      change (2 ^ 16) with 65536 in *; change (2 ^ 24) with 16777216 in *;
      [|lia|Z.div_mod_to_equations; lia].
    Z.div_mod_to_equations. lia.
  - change (Z.to_nat (4 - 3)) with 1%nat. cbn [drop v8_loop].
    change (8 * (0 + 4 - 3)) with 8. change (8 * (0 + 1 + 4 - 3)) with 16.
    change (8 * (0 + 1 + 1 + 4 - 3)) with 24.
    change (8 * (4 - 3)) with 8 in Hlow.
    rewrite !byte_val_byte_of, Z.lor_0_l, Z.shiftl_mul_pow2 by lia.
    rewrite (lor_low_shifted _ _ 16);
      change (2 ^ 8) with 256 in *; change (2 ^ 16) with 65536 in *;
      [|lia|Z.div_mod_to_equations; lia].
    rewrite (lor_low_shifted _ _ 24);
      change (2 ^ 24) with 16777216 in *;
      [|lia|Z.div_mod_to_equations; lia].
    Z.div_mod_to_equations. lia.
Qed.

Lemma pack_shape nbits count :
  1 <= nbits <= 32 -> 1 <= count ->
  let nbytes := (count * nbits + 7) / 8 in
  let nwords := (nbits * count + 31) / 32 in
  let nint := nbytes / 4 in
  let extra := nbytes - nint * 4 in
  let pad := 32 * nwords - nbits * count in
  0 <= nint /\ 0 <= extra < 4 /\ 1 <= nwords /\ 0 <= pad < 32 /\
  nwords = (if 0 =? extra then nint else nint + 1) /\
  8 * (4 - extra) <= pad + (if 0 =? extra then 32 else 0).
Proof.
  intros Hn Hc. cbv zeta.
  assert (Ht : 1 <= count * nbits) by nia.
  replace (nbits * count) with (count * nbits) by lia.
  set (t := count * nbits) in *.
  destruct (0 =? (t + 7) / 8 - (t + 7) / 8 / 4 * 4) eqn:E;
    [apply Z.eqb_eq in E|apply Z.eqb_neq in E];
    Z.div_mod_to_equations; lia.
Qed.

Lemma header_byte cf nbits :
  1 <= nbits < 64 ->
  let z := byte_val (byte_of (64 * selector cf + nbits)) + 256 * 0 in
  Z.shiftr z 6 = selector cf /\ Z.land z 63 = nbits.
Proof.
  intros Hn. cbv zeta. rewrite byte_val_byte_of.
  assert (Hs : 0 <= selector cf <= 2) by (destruct cf; cbn; lia).
  rewrite Z.mod_small by lia. rewrite Z.add_0_r.
  rewrite Z.shiftr_div_pow2 by lia.
  change 63 with (Z.ones 6). rewrite Z.land_ones by lia.
  change (2 ^ 6) with 64. split; Z.div_mod_to_equations; lia.
Qed.

Lemma unpack_count_field cf (a c : bytes) count :
  0 <= count < 2 ^ (8 * count_width cf) ->
  exists unpack_count,
    select3 unpack_I unpack_H unpack_B (selector cf) = Ok unpack_count /\
    select3 4 2 1 (selector cf) = Ok (count_width cf) /\
    unpack_count (a ++ le_bytes (Z.to_nat (count_width cf)) count ++ c) (len a)
    = Ok count.
Proof.
  intros Hc.
  destruct cf; cbn [selector count_width] in *;
    eexists; (split; [reflexivity|]); (split; [reflexivity|]).
  - unfold unpack_I.
    rewrite slice_at_app' with (b := le_bytes (Z.to_nat 4) count);
      [|reflexivity|rewrite len_le_bytes; reflexivity].
    cbn [rbind]. rewrite le_uint_le_bytes_small; [reflexivity|].
    change (Z.of_nat (Z.to_nat 4)) with 4. assumption.
  - unfold unpack_H.
    rewrite slice_at_app' with (b := le_bytes (Z.to_nat 2) count);
      [|reflexivity|rewrite len_le_bytes; reflexivity].
    cbn [rbind]. rewrite le_uint_le_bytes_small; [reflexivity|].
    change (Z.of_nat (Z.to_nat 2)) with 2. assumption.
  - unfold unpack_B.
    rewrite slice_at_app' with (b := le_bytes (Z.to_nat 1) count);
      [|reflexivity|rewrite len_le_bytes; reflexivity].
    cbn [rbind]. rewrite le_uint_le_bytes_small; [reflexivity|].
    change (Z.of_nat (Z.to_nat 1)) with 1. assumption.
Qed.

Lemma words_val_snoc ws w :
  words_val (ws ++ [w]) = words_val ws * 2 ^ 32 + w.
Proof.
  induction ws as [|x ws IH].
  - cbn [app words_val]. change (len (@nil Z)) with 0.
    change (2 ^ (32 * 0)) with 1. lia.
  - cbn [app words_val]. rewrite IH, len_app.
    replace (32 * (len ws + len [w])) with (32 * len ws + 32)
      by (unfold len; cbn [length]; lia).
    pose proof (len_nonneg ws). rewrite Z.pow_add_r by lia. ring.
Qed.

(** The round trip: [read_qval] gives back every non-empty sequence of
    integers below 2 ^ nbits that the reference packer packed, with any
    of the three count fields that can hold the count, wherever the packed
    bytes sit in the blob, and returns the offset of the byte after
    them. *)
Theorem read_qval_pack_qval (cf : count_field) (nbits : Z) (vals : list Z)
        (pre suf : bytes) :
  1 <= nbits <= 32 ->
  vals <> [] ->
  Forall (fun x => 0 <= x < 2 ^ nbits) vals ->
  len vals < 2 ^ (8 * count_width cf) ->
  read_qval (pre ++ pack_qval cf nbits vals ++ suf) (len pre)
  = Ok (Some vals, len pre + len (pack_qval cf nbits vals)).
Proof.
  intros Hn Hne Hrange Hcount.
  assert (Hc1 : 1 <= len vals).
  { destruct vals; [congruence|]. unfold len. cbn [length]. lia. }
  destruct (pack_shape nbits (len vals) Hn Hc1)
    as (Hnint & Hextra & Hnw & Hpad & Hrel & Hlow).
  pose proof (concat_bits_range nbits vals ltac:(lia) Hrange) as Hcb.
  unfold pack_qval, pack_words.
  set (count := len vals) in *.
  set (nbytes := (count * nbits + 7) / 8) in *.
  set (nwords := (nbits * count + 31) / 32) in *.
  set (nint := nbytes / 4) in *.
  set (extra := nbytes - nint * 4) in *.
  set (pad := 32 * nwords - nbits * count) in *.
  set (hb := byte_of (64 * selector cf + nbits)).
  set (cnt := le_bytes (Z.to_nat (count_width cf)) count).
  destruct (be_words_spec (Z.to_nat nwords) (concat_bits nbits vals * 2 ^ pad))
    as (Hwlen & Hwords & Hwval).
  { rewrite Z2Nat.id by lia.
    replace (32 * nwords) with (nbits * count + pad) by (unfold pad; lia).
    rewrite Z.pow_add_r by nia.
    pose proof (pow2_pos pad ltac:(lia)). nia. }
  set (ws := be_words (Z.to_nat nwords) (concat_bits nbits vals * 2 ^ pad)) in *.
  (* the whole words and the last, partly stored word *)
  set (ws1 := take (Z.to_nat nint) ws).
  set (tl := drop (Z.to_nat nint) ws).
  assert (Hws : ws = ws1 ++ tl) by (symmetry; apply take_drop).
  assert (Hlen1 : len ws1 = nint).
  { unfold len, ws1. rewrite length_take, Hwlen.
    destruct (0 =? extra); lia. }
  assert (Hltl : length tl = if 0 =? extra then 0%nat else 1%nat).
  { unfold tl. rewrite length_drop, Hwlen. destruct (0 =? extra); lia. }
  assert (Hwords1 : Forall is_word ws1).
  { rewrite Hws in Hwords. apply Forall_app in Hwords. tauto. }
  assert (Hstored : stored_words ws nbytes
                    = words_bytes ws1 ++ stored_words tl extra).
  { rewrite Hws at 1.
    replace nbytes with (4 * len ws1 + extra) by (unfold extra; lia).
    apply stored_words_app. lia. }
  set (wb := words_bytes ws1) in *.
  set (tb := stored_words tl extra) in *.
  assert (Hwb : len wb = nint * 4)
    by (unfold wb; rewrite len_words_bytes; lia).
  assert (Htb : len tb = extra /\
                (if negb (0 =? extra)
                 then ws1 ++ [v8_loop extra tb 0 0] else ws1) = ws).
  { unfold tb. destruct (0 =? extra) eqn:E.
    - apply Z.eqb_eq in E. destruct tl; [|discriminate].
      cbn [negb]. rewrite Hws, app_nil_r. split; [|reflexivity].
      unfold len. cbn. lia.
    - apply Z.eqb_neq in E. destruct tl as [|wl [|? ?]]; try discriminate.
      cbn [negb stored_words].
      replace (4 <=? extra) with false by (symmetry; apply Z.leb_gt; lia).
      split.
      + unfold len. rewrite length_drop, length_le_bytes. lia.
      + rewrite v8_loop_last_word; [symmetry; assumption|lia| |].
        * rewrite Hws in Hwords. apply Forall_app in Hwords as [_ Hwl].
          inversion Hwl; assumption.
        * rewrite Hws, words_val_snoc in Hwval.
          set (j := 8 * (4 - extra)) in *.
          assert (Hwl : wl = (concat_bits nbits vals * 2 ^ (pad - j)
                              - words_val ws1 * 2 ^ (32 - j)) * 2 ^ j).
          { rewrite Z.mul_sub_distr_r, <- !Z.mul_assoc, <- !Z.pow_add_r by lia.
            replace (pad - j + j) with pad by lia.
            replace (32 - j + j) with 32 by lia. lia. }
          rewrite Hwl. apply Z.mod_mul.
          apply Z.pow_nonzero; lia. }
  destruct Htb as [Htb Hvalues32].
  rewrite Hstored.
  assert (Hw : 0 < count_width cf) by (destruct cf; cbn; lia).
  assert (Hcnt : len cnt = count_width cf)
    by (unfold cnt; rewrite len_le_bytes; lia).
  assert (Hfinal : len (hb :: cnt ++ wb ++ tb)
                   = 1 + count_width cf + nint * 4 + extra).
  { change (hb :: cnt ++ wb ++ tb) with ([hb] ++ cnt ++ wb ++ tb).
    rewrite !len_app, Hcnt, Hwb, Htb. unfold len. cbn [length]. lia. }
  rewrite Hfinal.
  destruct (unpack_count_field cf (pre ++ [hb]) (wb ++ tb ++ suf) count)
    as (unpack_count & Hsel & Hwidth & Hread); [lia|].
  fold cnt in Hread.
  set (blob := pre ++ (hb :: cnt ++ wb ++ tb) ++ suf).
  assert (B1 : blob = pre ++ [hb] ++ cnt ++ wb ++ tb ++ suf)
    by (unfold blob; cbn [app]; rewrite <- !app_assoc; reflexivity).
  assert (B2 : blob = (pre ++ [hb]) ++ cnt ++ wb ++ tb ++ suf)
    by (rewrite B1, <- !app_assoc; reflexivity).
  assert (B3 : blob = (pre ++ [hb] ++ cnt) ++ wb ++ tb ++ suf)
    by (rewrite B1, <- !app_assoc; reflexivity).
  assert (B4 : blob = (pre ++ [hb] ++ cnt ++ wb) ++ tb ++ suf)
    by (rewrite B1, <- !app_assoc; reflexivity).
  assert (R1 : unpack_B blob (len pre) = Ok (byte_val hb + 256 * 0)).
  { unfold unpack_B. rewrite B1, (slice_at_app' pre [hb]); reflexivity. }
  assert (R2 : unpack_count blob (len pre + 1) = Ok count).
  { rewrite B2, <- Hread. f_equal. rewrite len_app. reflexivity. }
  assert (R3 : unpack_nI nint blob (len pre + 1 + count_width cf) = Ok ws1).
  { unfold unpack_nI. rewrite B3, (slice_at_app' _ wb).
    - cbn [rbind]. f_equal. unfold wb.
      replace (Z.to_nat nint) with (length ws1) by (unfold len in Hlen1; lia).
      apply le_words_words_bytes. assumption.
    - rewrite !len_app, Hcnt. unfold len. cbn [length]. lia.
    - lia. }
  assert (R4 : unpack_nB extra blob
                 (len pre + 1 + count_width cf + nint * 4) = Ok tb).
  { unfold unpack_nB. rewrite B4. apply slice_at_app'.
    - rewrite !len_app, Hcnt, Hwb. unfold len. cbn [length]. lia.
    - lia. }
  destruct (header_byte cf nbits ltac:(lia)) as [Hbc Hnb]. fold hb in Hbc, Hnb.
  clearbody blob.
  unfold read_qval. rewrite R1. cbn [rbind]. cbv zeta.
  rewrite Hbc, Hnb.
  replace (nbits =? 0) with false by (symmetry; apply Z.eqb_neq; lia).
  rewrite Hsel. cbn [rbind]. rewrite R2. cbn [rbind].
  rewrite Hwidth. cbn [rbind].
  fold nbytes. fold nint. fold extra.
  rewrite R3. cbn [rbind]. rewrite R4. cbn [rbind].
  assert (Hpat : (if negb (0 =? extra)
                  then Ok (ws1 ++ [v8_loop extra tb 0 0],
                           len pre + 1 + count_width cf + nint * 4 + extra)
                  else Ok (ws1, len pre + 1 + count_width cf + nint * 4))
                 = Ok (ws, len pre + (1 + count_width cf + nint * 4 + extra))).
  { destruct (0 =? extra) eqn:E; cbn [negb] in *; rewrite Hvalues32;
      do 2 f_equal; [apply Z.eqb_eq in E|]; lia. }
  rewrite Hpat. cbn [rbind].
  destruct ws as [|v src] eqn:Hwsv; [cbn [length] in Hwlen; lia|].
  apply Forall_cons in Hwords as [[Hv0 Hv1] Hsrc].
  assert (Hlsrc : 32 + 32 * len src = 32 * nwords).
  { unfold len. cbn [length] in Hwlen. lia. }
  destruct (qval_loop_unpacks nbits pad vals Hn ltac:(lia) [] 32 v src)
    as (st' & Hloop & Hvals); try assumption; try (unfold pad, count; lia).
  { unfold pending. cbn [q_v q_bits_left q_src].
    rewrite Z.mod_small by lia.
    cbn [words_val] in Hwval. assumption. }
  cbn [app length] in Hloop, Hvals.
  unfold py_range. rewrite Z.sub_0_r.
  replace (Z.to_nat count) with (length vals) by (unfold count, len; lia).
  rewrite Hloop. cbn [rbind]. rewrite Hvals. reflexivity.
Qed.

(** The packed empty sequence: [read_qval] asks the iterator over the
    words for a first word before it looks at the count, and there is
    none. *)
Lemma read_qval_pack_empty (cf : count_field) (nbits : Z) (pre suf : bytes) :
  1 <= nbits < 64 ->
  read_qval (pre ++ pack_qval cf nbits [] ++ suf) (len pre)
  = Raise StopIteration.
Proof.
  intros Hn. unfold pack_qval, pack_words.
  change (len (@nil Z)) with 0. rewrite Z.mul_0_r, Z.mul_0_l.
  change ((0 + 31) / 32) with 0. change ((0 + 7) / 8) with 0.
  cbn [Z.to_nat be_words stored_words]. rewrite app_nil_r.
  set (hb := byte_of (64 * selector cf + nbits)).
  set (cnt := le_bytes (Z.to_nat (count_width cf)) 0).
  assert (Hw : 0 < count_width cf) by (destruct cf; cbn; lia).
  assert (Hcnt : len cnt = count_width cf)
    by (unfold cnt; rewrite len_le_bytes; lia).
  destruct (unpack_count_field cf (pre ++ [hb]) suf 0)
    as (unpack_count & Hsel & Hwidth & Hread).
  { split; [lia|]. apply pow2_pos. lia. }
  fold cnt in Hread.
  set (blob := pre ++ (hb :: cnt) ++ suf).
  assert (B1 : blob = pre ++ [hb] ++ cnt ++ suf)
    by (unfold blob; cbn [app]; reflexivity).
  assert (B2 : blob = (pre ++ [hb]) ++ cnt ++ suf)
    by (rewrite B1, <- !app_assoc; reflexivity).
  assert (B3 : blob = (pre ++ [hb] ++ cnt) ++ [] ++ suf)
    by (rewrite B1, <- !app_assoc; reflexivity).
  assert (R1 : unpack_B blob (len pre) = Ok (byte_val hb + 256 * 0)).
  { unfold unpack_B. rewrite B1, (slice_at_app' pre [hb]); reflexivity. }
  assert (R2 : unpack_count blob (len pre + 1) = Ok 0).
  { rewrite B2, <- Hread. f_equal. rewrite len_app. reflexivity. }
  assert (R3 : unpack_nI 0 blob (len pre + 1 + count_width cf) = Ok []).
  { unfold unpack_nI. rewrite B3, (slice_at_app' _ []); [reflexivity| |reflexivity].
    rewrite !len_app, Hcnt. unfold len. cbn [length]. lia. }
  destruct (header_byte cf nbits Hn) as [Hbc Hnb]. fold hb in Hbc, Hnb.
  clearbody blob.
  unfold read_qval. rewrite R1. cbn [rbind]. cbv zeta.
  rewrite Hbc, Hnb.
  replace (nbits =? 0) with false by (symmetry; apply Z.eqb_neq; lia).
  rewrite Hsel. cbn [rbind]. rewrite R2. cbn [rbind].
  rewrite Hwidth. cbn [rbind].
  rewrite Z.mul_0_l. change ((0 + 7) / 8) with 0. change (0 / 4) with 0.
  rewrite R3. reflexivity.
Qed.

(** C7 fails on the code at count 0 only: for every bit width from 1 to
    32 (so for 1, 3, 8, 16 and 31), every count and every sequence of that
    many integers below 2 ^ nbits, packing with the reference packer and
    unpacking with [read_qval] yields the original sequence when the
    sequence is not empty (counts 1, 2 and 33 among them), and raises
    [StopIteration] when it is empty (count 0). *)
Theorem packed_round_trip (cf : count_field) (nbits : Z) (vals : list Z)
        (pre suf : bytes) :
  1 <= nbits <= 32 ->
  Forall (fun x => 0 <= x < 2 ^ nbits) vals ->
  len vals < 2 ^ (8 * count_width cf) ->
  read_qval (pre ++ pack_qval cf nbits vals ++ suf) (len pre)
  = match vals with
    | [] => Raise StopIteration
    | _ :: _ => Ok (Some vals, len pre + len (pack_qval cf nbits vals))
    end.
Proof.
  intros Hn Hrange Hcount. destruct vals as [|x xs].
  - apply read_qval_pack_empty. lia.
  - apply read_qval_pack_qval; [assumption|discriminate|assumption|assumption].
Qed.

(** * Further properties of the decoder *)

(** ** decode_RLE: the region it needs *)

Lemma slice_at_inside blob offset size bs :
  0 <= offset -> slice_at blob offset size = Ok bs ->
  offset + size <= len blob.
Proof.
  intros Hoff. unfold slice_at.
  assert (E0 : (offset <? 0) = false) by (apply Z.ltb_ge; lia).
  cbv zeta. rewrite E0. cbv iota. rewrite E0. cbn [orb].
  destruct (len blob - offset <? size) eqn:E; [discriminate|].
  apply Z.ltb_ge in E. intros _. lia.
Qed.

Lemma rle_body_cursor blob st st' :
  rle_body blob st = Ok st' ->
  rle_offset st' + rle_size st' = rle_offset st + rle_size st /\
  rle_offset st <= rle_offset st'.
Proof.
  destruct st as [offset size result]; unfold rle_body; intros H.
  apply rbind_Ok in H as (count & _ & H).
  destruct (count <? 0) eqn:Hc.
  - apply rbind_Ok in H as (b & _ & H). injection H as <-.
    cbn [rle_offset rle_size]. lia.
  - apply Z.ltb_ge in Hc.
    apply rbind_Ok in H as (bs & _ & H). injection H as <-.
    cbn [rle_offset rle_size]. lia.
Qed.

Lemma rle_loop_upto_cursor n : forall blob st st',
  rle_size st <= Z.of_nat n ->
  rle_loop_upto n blob st = Ok st' ->
  rle_offset st' + rle_size st' = rle_offset st + rle_size st /\
  rle_offset st <= rle_offset st' /\ rle_size st' <= 2.
Proof.
  induction n as [|n IH]; intros blob st st' Hn; cbn [rle_loop_upto];
    destruct (2 <? rle_size st) eqn:E;
    try (apply Z.ltb_ge in E; intros [= <-]; lia);
    apply Z.ltb_lt in E; [lia|].
  intros H. apply rbind_Ok in H as (st1 & Hbody & H).
  pose proof (rle_body_size _ _ _ Hbody) as Hsize.
  apply rle_body_cursor in Hbody as [Hsum Hle].
  apply IH in H; [|lia]. lia.
Qed.

(** The cursor and the budget move together: [decode_RLE] looks for the
    end marker at most 2 bytes before [offset + size], so when it returns
    (bytes or [None]) the blob holds the whole region of [size] bytes from
    [offset]; a blob cut short inside the region always raises. *)
Theorem decode_RLE_needs_region (blob : bytes) (offset size : Z)
        (r : option bytes) :
  0 <= offset ->
  decode_RLE blob offset size = Ok r ->
  offset + size <= len blob.
Proof.
  intros Hoff H. unfold decode_RLE in H.
  apply rbind_Ok in H as (st & Hloop & H).
  apply rbind_Ok in H as (marker & Hmarker & _).
  unfold rle_loop in Hloop.
  apply rle_loop_upto_cursor in Hloop; [|cbn [rle_size]; lia].
  cbn [rle_offset rle_size] in Hloop.
  unfold unpack_h in Hmarker. apply rbind_Ok in Hmarker as (bs & Hbs & _).
  apply slice_at_inside in Hbs; lia.
Qed.

(** ** decode_RLE: decoding a region of runs *)

Lemma unpack_h_le_bytes (a c : bytes) (z : Z) :
  -32768 <= z < 32768 ->
  unpack_h (a ++ le_bytes 2 z ++ c) (len a) = Ok z.
Proof.
  intros Hz. unfold unpack_h.
  rewrite (slice_at_app' a (le_bytes 2 z));
    [|reflexivity|rewrite len_le_bytes; reflexivity].
  cbn [rbind]. rewrite le_uint_le_bytes. f_equal. unfold to_signed.
  change (8 * Z.of_nat 2) with 16. change (2 ^ 16) with 65536.
  change (2 ^ (16 - 1)) with 32768.
  destruct (z mod 65536 <? 32768) eqn:E;
    [apply Z.ltb_lt in E|apply Z.ltb_ge in E];
    Z.div_mod_to_equations; lia.
Qed.

Lemma len_run_bytes r :
  len (run_bytes r)
  = match r with RunRepeat _ _ => 3 | RunLiteral bs => 2 + len bs end.
Proof.
  destruct r as [n b|bs]; cbn [run_bytes]; rewrite len_app, len_le_bytes;
    unfold len; cbn [length]; lia.
Qed.

Lemma rle_region_decodes runs : forall (pre suf acc : bytes),
  Forall run_fits runs ->
  rle_finish (pre ++ rle_region runs ++ suf)
             (RleState (len pre) (len (rle_region runs)) acc)
  = Ok (Some (acc ++ flat_map run_output runs)).
Proof.
  induction runs as [|r runs IH]; intros pre suf acc Hfit;
    rewrite rle_finish_unfold; cbn [rle_size rle_offset rle_result].
  - unfold rle_region. cbn [flat_map app].
    rewrite len_le_bytes. change (2 <? Z.of_nat 2) with false.
    rewrite unpack_h_le_bytes by lia. cbn [rbind]. rewrite app_nil_r.
    reflexivity.
  - apply Forall_cons in Hfit as [Hr Hfit].
    assert (Hregion : rle_region (r :: runs) = run_bytes r ++ rle_region runs).
    { unfold rle_region. cbn [flat_map]. rewrite <- app_assoc. reflexivity. }
    assert (Hrest : 2 <= len (rle_region runs)).
    { unfold rle_region. rewrite len_app, len_le_bytes.
      pose proof (len_nonneg (flat_map run_bytes runs)). lia. }
    rewrite Hregion, len_app, len_run_bytes.
    specialize (IH (pre ++ run_bytes r) suf).
    rewrite <- !app_assoc in IH. rewrite len_app, len_run_bytes in IH.
    destruct r as [n b|bs]; cbn [run_bytes run_fits run_output flat_map] in *.
    + replace (2 <? 3 + len (rle_region runs)) with true
        by (symmetry; apply Z.ltb_lt; lia).
      rewrite <- !app_assoc.
      unfold rle_body. rewrite unpack_h_le_bytes by lia. cbn [rbind].
      replace (- n <? 0) with true by (symmetry; apply Z.ltb_lt; lia).
      assert (Hb : unpack_nB 1 (pre ++ le_bytes 2 (- n) ++ [b]
                                 ++ rle_region runs ++ suf) (len pre + 2)
                   = Ok [b]).
      { unfold unpack_nB.
        replace (pre ++ le_bytes 2 (- n) ++ [b] ++ rle_region runs ++ suf)
          with ((pre ++ le_bytes 2 (- n)) ++ [b] ++ rle_region runs ++ suf)
          by (rewrite <- !app_assoc; reflexivity).
        apply slice_at_app'; [|reflexivity].
        rewrite len_app, len_le_bytes. reflexivity. }
      rewrite Hb. cbn [rbind]. rewrite tuple_repeat_singleton, Z.opp_involutive.
      replace (len pre + 2 + 1) with (len pre + 3) by lia.
      replace (3 + len (rle_region runs) - (2 + 1))
        with (len (rle_region runs)) by lia.
      rewrite IH by assumption. rewrite <- app_assoc. reflexivity.
    + pose proof (len_nonneg bs) as Hbs.
      replace (2 <? 2 + len bs + len (rle_region runs)) with true
        by (symmetry; apply Z.ltb_lt; lia).
      rewrite <- !app_assoc.
      unfold rle_body. rewrite unpack_h_le_bytes by lia. cbn [rbind].
      replace (len bs <? 0) with false by (symmetry; apply Z.ltb_ge; lia).
      assert (Hb : unpack_nB (len bs)
                     (pre ++ le_bytes 2 (len bs) ++ bs
                      ++ rle_region runs ++ suf) (len pre + 2)
                   = Ok bs).
      { unfold unpack_nB.
        replace (pre ++ le_bytes 2 (len bs) ++ bs ++ rle_region runs ++ suf)
          with ((pre ++ le_bytes 2 (len bs)) ++ bs ++ rle_region runs ++ suf)
          by (rewrite <- !app_assoc; reflexivity).
        apply slice_at_app'; [|reflexivity].
        rewrite len_app, len_le_bytes. reflexivity. }
      rewrite Hb. cbn [rbind].
      replace (len pre + 2 + len bs) with (len pre + (2 + len bs)) by lia.
      replace (2 + len bs + len (rle_region runs) - (2 + len bs))
        with (len (rle_region runs)) by lia.
      rewrite IH by assumption. rewrite <- app_assoc. reflexivity.
Qed.

(** A region of runs whose counts fit 16 bits, closed by the end marker,
    decodes to the bytes of the runs in order, wherever the region sits in
    the blob, when [size] is the length of the region (the end marker
    included).  A repeat of 32768 bytes is written with the count -32768,
    the value of the end marker, and is still read as a run. *)
Theorem decode_RLE_region (runs : list rle_run) (pre suf : bytes) :
  Forall run_fits runs ->
  decode_RLE (pre ++ rle_region runs ++ suf) (len pre) (len (rle_region runs))
  = Ok (Some (flat_map run_output runs)).
Proof.
  intros Hfit.
  change (decode_RLE ?b ?o ?s) with (rle_finish b (RleState o s [])).
  rewrite rle_region_decodes by assumption. reflexivity.
Qed.

(** ** read_qval: the bytes it consumes *)

Lemma qval_body_length nbits mask dst st st' :
  qval_body nbits mask dst st = Ok st' ->
  length (q_values st') = length (q_values st).
Proof.
  destruct st as [values bl v src]. unfold qval_body.
  destruct (nbits <=? bl).
  - intros H. apply rbind_Ok in H as (sh & _ & H).
    apply rbind_Ok in H as (values' & Hset & [= <-]).
    apply array_I_set_Ok in Hset as (_ & j & ->).
    cbn [q_values]. apply length_insert.
  - intros H. apply rbind_Ok in H as (sh & _ & H).
    destruct src as [|v' src']; [discriminate|].
    apply rbind_Ok in H as (sh' & _ & H).
    apply rbind_Ok in H as (values' & Hset & [= <-]).
    apply array_I_set_Ok in Hset as (_ & j & ->).
    cbn [q_values]. apply length_insert.
Qed.

Lemma qval_loop_length nbits mask dsts : forall st st',
  qval_loop nbits mask dsts st = Ok st' ->
  length (q_values st') = length (q_values st).
Proof.
  induction dsts as [|dst rest IH]; intros st st'; cbn [qval_loop].
  - intros [= <-]. reflexivity.
  - intros H. apply rbind_Ok in H as (st1 & Hbody & H).
    rewrite (IH _ _ H). eapply qval_body_length. eassumption.
Qed.

Lemma unpack_B_Ok blob offset v :
  unpack_B blob offset = Ok v -> 0 <= v < 256.
Proof.
  unfold unpack_B. intros H. apply rbind_Ok in H as (bs & Hbs & [= <-]).
  destruct (Z.ltb_spec offset 0) as [Hneg|Hpos].
  - unfold slice_at in Hbs.
    destruct ((_ <? 0) || _); [discriminate|]. injection Hbs as <-.
    pose proof (le_uint_range
                  (take (Z.to_nat 1)
                     (drop (Z.to_nat (if offset <? 0 then offset + len blob
                                      else offset)) blob))) as Hr.
    assert (Hl : len (take (Z.to_nat 1)
                     (drop (Z.to_nat (if offset <? 0 then offset + len blob
                                      else offset)) blob)) <= 1).
    { unfold len. rewrite length_take. lia. }
    assert (2 ^ (8 * len (take (Z.to_nat 1)
                     (drop (Z.to_nat (if offset <? 0 then offset + len blob
                                      else offset)) blob))) <= 2 ^ 8)
      by (apply Z.pow_le_mono_r; lia).
    change (2 ^ 8) with 256 in *. lia.
  - pose proof (le_uint_range bs) as Hr.
    apply slice_at_len in Hbs; [|lia]. rewrite Hbs in Hr.
    change (2 ^ (8 * 1)) with 256 in Hr. exact Hr.
Qed.

Lemma select3_width i width :
  select3 4 2 1 i = Ok width -> width = 4 \/ width = 2 \/ width = 1.
Proof.
  unfold select3, py_getitem. intros H.
  apply rbind_Ok in H as (j & _ & H).
  destruct j as [|[|[|j]]]; cbn in H; inversion H; auto.
Qed.

(** What [read_qval] returns besides the values.  With no bits per value
    it returns [None] and the offset after the header byte.  Otherwise the
    sequence it returns is never empty, and the offset it returns is the
    one after the header byte, the count field of 4, 2 or 1 bytes chosen
    by the two high bits of the header, and the
    [(count * nbits + 7) // 8] bytes of packed values; all of them lie
    inside the blob. *)
Theorem read_qval_consumes (blob : bytes) (offset header : Z)
        (values : option (list Z)) (offset' : Z) :
  0 <= offset ->
  unpack_B blob offset = Ok header ->
  read_qval blob offset = Ok (values, offset') ->
  offset' <= len blob /\
  match values with
  | None => Z.land header 63 = 0 /\ offset' = offset + 1
  | Some vs =>
      exists width,
        select3 4 2 1 (Z.shiftr header 6) = Ok width /\
        1 <= len vs /\
        offset' = offset + 1 + width + (len vs * Z.land header 63 + 7) / 8
  end.
Proof.
  intros Hoff Hhdr. pose proof Hhdr as Hin.
  unfold unpack_B in Hin. apply rbind_Ok in Hin as (hb & Hin & _).
  apply slice_at_inside in Hin; [|assumption].
  unfold read_qval. rewrite Hhdr. cbn [rbind].
  set (n := Z.land header 63).
  assert (Hn0 : 0 <= n) by (apply Z.land_nonneg; lia).
  destruct (n =? 0) eqn:Hz.
  { apply Z.eqb_eq in Hz. intros [= <- <-]. split; [lia|]. split; [exact Hz|].
    reflexivity. }
  apply Z.eqb_neq in Hz.
  intros H.
  apply rbind_Ok in H as (unpack_count & Hsel & H).
  apply rbind_Ok in H as (count & Hcount & H).
  apply rbind_Ok in H as (width & Hwidth & H).
  pose proof (select3_width _ _ Hwidth) as Hw.
  assert (Hc0 : 0 <= count).
  { unfold select3, py_getitem in Hsel.
    apply rbind_Ok in Hsel as (j & _ & Hsel).
    destruct j as [|[|[|j]]]; cbn in Hsel; inversion Hsel; subst;
      [unfold unpack_I in Hcount|unfold unpack_H in Hcount
       |unfold unpack_B in Hcount];
      apply rbind_Ok in Hcount as (bs & _ & [= <-]);
      apply le_uint_range. }
  set (nbytes := (count * n + 7) / 8) in H.
  assert (Hnb : 0 <= nbytes) by (apply Z.div_pos; nia).
  assert (Hnbytes : nbytes = (count * n + 7) / 8) by reflexivity.
  clearbody nbytes.
  pose proof (Z.mod_pos_bound nbytes 4 ltac:(lia)) as Hmod.
  pose proof (Z.div_mod nbytes 4 ltac:(lia)) as Hdm.
  apply rbind_Ok in H as (values32 & H32 & H).
  apply rbind_Ok in H as ([words off] & Hwords & H).
  destruct words as [|v src]; [discriminate|].
  apply rbind_Ok in H as (st & Hloop & [= <- <-]).
  apply qval_loop_length in Hloop. cbn [q_values] in Hloop.
  rewrite length_replicate in Hloop.
  assert (Hlen : len (q_values st) = count)
    by (unfold len; rewrite Hloop; lia).
  unfold unpack_nI in H32. apply rbind_Ok in H32 as (bs & Hbs & [= <-]).
  pose proof Hbs as Hbs_in. apply slice_at_inside in Hbs_in; [|lia].
  assert (Hoff' : off = offset + 1 + width + nbytes /\ off <= len blob
                  /\ 1 <= nbytes).
  { destruct (negb (0 =? nbytes - nbytes / 4 * 4)) eqn:Hextra.
    - apply rbind_Ok in Hwords as (values8 & H8 & [= _ <-]).
      apply negb_true_iff, Z.eqb_neq in Hextra.
      apply slice_at_inside in H8; [|lia]. lia.
    - apply negb_false_iff, Z.eqb_eq in Hextra.
      injection Hwords as Hw32 <-.
      destruct (Z.to_nat (nbytes / 4)) eqn:Hnint; [discriminate|].
      lia. }
  destruct Hoff' as (-> & Hin' & Hnb1).
  split; [assumption|].
  exists width. split; [assumption|]. rewrite Hlen.
  split; [|rewrite Hnbytes; reflexivity].
  destruct (Z.eq_dec count 0) as [->|]; [|lia].
  rewrite Hnbytes, Z.mul_0_l in Hnb1. change ((0 + 7) / 8) with 0 in Hnb1.
  lia.
Qed.

(** ** bitmask.at: the bit it reads *)

Lemma land_pow2_testbit a j :
  0 <= j -> (0 =? Z.land a (2 ^ j)) = negb (Z.testbit a j).
Proof.
  intros Hj. destruct (Z.testbit a j) eqn:E; cbn [negb].
  - apply Z.eqb_neq. intros H0.
    assert (Hbit : Z.testbit (Z.land a (2 ^ j)) j = true)
      by (rewrite Z.land_spec, E, Z.pow2_bits_true by assumption; reflexivity).
    rewrite <- H0, Z.bits_0 in Hbit. discriminate.
  - apply Z.eqb_eq. symmetry. apply Z.bits_inj'. intros i Hi.
    rewrite Z.land_spec, Z.bits_0, Z.pow2_bits_eqb by assumption.
    destruct (Z.eqb_spec j i) as [<-|]; [rewrite E|]; auto with bool.
Qed.

Lemma shiftr_128 k : 0 <= k <= 7 -> Z.shiftr 128 k = 2 ^ (7 - k).
Proof.
  intros Hk. rewrite Z.shiftr_div_pow2 by lia. change 128 with (2 ^ 7).
  rewrite Z.pow_sub_r by lia. reflexivity.
Qed.

(** [at(x, y)] reads the mask as one string of bits in row-major order,
    most significant bit of each byte first: with [l = y * w + x] and
    [n] the number of bits in the data, it answers with bit [l] when
    [0 <= l < n].  A negative [l] down to [-n] is not refused: the byte
    index counts from the end, and the answer is bit [l + n]. *)
Theorem bitmask_at_reads_bit (self : bitmask) (x y : Z) :
  let l := y * bm_w self + x in
  let n := 8 * len (bm_data self) in
  - n <= l < n ->
  exists v, mask_bit (bm_data self) (l mod n) = Some v /\
            bitmask_at self x y = Ok v.
Proof.
  cbn zeta. set (l := y * bm_w self + x). set (data := bm_data self).
  intros Hl. pose proof (len_nonneg data) as Hlen.
  assert (Hm8 : 0 <= l mod 8 < 8) by (apply Z.mod_pos_bound; lia).
  pose proof (Z.div_mod l 8 ltac:(lia)) as Hdm.
  set (j := if l / 8 <? 0 then l / 8 + len data else l / 8).
  assert (Hj : 0 <= j < len data) by (subst j; destruct (l / 8 <? 0) eqn:E; lia).
  assert (Hmod : l mod (8 * len data) = 8 * j + l mod 8).
  { symmetry. subst j. destruct (Z.ltb_spec (l / 8) 0).
    - apply (Z.mod_unique _ _ (-1)); lia.
    - apply (Z.mod_unique _ _ 0); lia. }
  assert (Hq : (l mod (8 * len data)) / 8 = j).
  { rewrite Hmod. symmetry. apply (Z.div_unique _ _ _ (l mod 8)); lia. }
  assert (Hr : (l mod (8 * len data)) mod 8 = l mod 8).
  { rewrite Hmod. symmetry. apply (Z.mod_unique _ _ j); lia. }
  destruct (lookup_lt_is_Some_2 data (Z.to_nat j)) as [b Hb].
  { unfold len in Hj. lia. }
  exists (Z.testbit (byte_val b) (7 - l mod 8)). split.
  - unfold mask_bit. rewrite Hq, Hb, Hr. reflexivity.
  - unfold bitmask_at. fold l. fold data.
    unfold py_getitem, py_index. fold (len data). fold j.
    replace ((j <? 0) || (len data <=? j)) with false
      by (symmetry; apply orb_false_intro;
          [apply Z.ltb_ge|apply Z.leb_gt]; lia).
    cbn [rbind]. rewrite Hb. unfold py_rshift.
    replace (l mod 8 <? 0) with false by (symmetry; apply Z.ltb_ge; lia).
    cbn [rbind]. rewrite shiftr_128 by lia.
    rewrite land_pow2_testbit by lia. rewrite negb_involutive. reflexivity.
Qed.

(** Outside that range there is no byte to read: [at(x, y)] raises
    [IndexError]; on a mask without data it always does. *)
Theorem bitmask_at_outside (self : bitmask) (x y : Z) :
  let l := y * bm_w self + x in
  let n := 8 * len (bm_data self) in
  l < - n \/ n <= l ->
  bitmask_at self x y = Raise IndexError.
Proof.
  cbn zeta. set (l := y * bm_w self + x). set (data := bm_data self).
  intros Hl. pose proof (len_nonneg data) as Hlen.
  assert (Hm8 : 0 <= l mod 8 < 8) by (apply Z.mod_pos_bound; lia).
  pose proof (Z.div_mod l 8 ltac:(lia)) as Hdm.
  unfold bitmask_at. fold l. fold data.
  unfold py_getitem, py_index. fold (len data).
  set (j := if l / 8 <? 0 then l / 8 + len data else l / 8).
  assert (Hj : j < 0 \/ len data <= j)
    by (subst j; destruct (l / 8 <? 0) eqn:E;
        [apply Z.ltb_lt in E|apply Z.ltb_ge in E]; lia).
  replace ((j <? 0) || (len data <=? j)) with true; [reflexivity|].
  symmetry. apply orb_true_iff. rewrite Z.ltb_lt, Z.leb_le. exact Hj.
Qed.

Section FurtherBlock.
Context {float : Type} {F : PyFloat float}.
Local Abbreviation descriptor := (@descriptor float) (only parsing).
Local Abbreviation lerc := (@lerc float) (only parsing).
Local Abbreviation num := (@num float) (only parsing).

(** ** read_block: the slots it writes *)

Lemma writes_within_refl mask P (data : list float) :
  writes_within mask P data data.
Proof. split; reflexivity. Qed.

Lemma writes_within_weaken mask (P P' : Z * Z -> Prop)
      (data data' : list float) :
  (forall c, P' c -> P c) ->
  writes_within mask P' data data' -> writes_within mask P data data'.
Proof.
  intros Hsub [Hlen Hframe]. split; [assumption|].
  intros j Hj. apply Hframe. intros c Hc. apply Hj, Hsub, Hc.
Qed.

Lemma writes_within_step mask (P P' : Z * Z -> Prop)
      (data : list float) c j s data' :
  P c -> py_index (length data) (slot mask c) = Ok j ->
  (forall c', P' c' -> P c') ->
  writes_within mask P' (<[j := s]> data) data' ->
  writes_within mask P data data'.
Proof.
  intros Hc Hj Hsub [Hlen Hframe]. rewrite length_insert in Hlen, Hframe.
  split; [assumption|]. intros k Hk. rewrite Hframe.
  - apply list_lookup_insert_ne. intros ->. exact (Hk c Hc Hj).
  - intros c' Hc'. apply Hk, Hsub, Hc'.
Qed.

Lemma raw_loop_writes mask blob cells : forall offset (data : list float),
  writes_within mask (fun c => c ∈ cells /\ is_valid mask c = true) data
                (fst (raw_loop mask blob cells offset data)).
Proof.
  induction cells as [|[x y] rest IH]; intros offset data.
  - apply writes_within_refl.
  - assert (Hsub : forall c, c ∈ rest /\ is_valid mask c = true ->
                     c ∈ (x, y) :: rest /\ is_valid mask c = true).
    { intros c [Hin Hv]. split; [right|]; assumption. }
    cbn [raw_loop]. unfold mbind at 1, mlift at 1.
    destruct (bitmask_at mask x y) as [[|]|e] eqn:Hat; cbn [fst].
    + unfold mbind at 1, mlift at 1.
      destruct (unpack_f blob offset) as [s|e]; [|apply writes_within_refl].
      unfold mbind at 1, array_f_set at 1.
      destruct (py_index (length data) (y * bm_w mask + x)) as [j|e] eqn:Hj;
        [|apply writes_within_refl].
      eapply (writes_within_step _ _ _ _ (x, y)); [|exact Hj|exact Hsub|apply IH].
      split; [left|]. unfold is_valid. cbn [fst snd]. rewrite Hat. reflexivity.
    + eapply writes_within_weaken; [exact Hsub|apply IH].
    + apply writes_within_refl.
Qed.

Lemma const_loop_writes mask mval cells : forall (data : list float),
  writes_within mask (fun c => c ∈ cells) data
                (fst (const_loop mask mval cells data)).
Proof.
  induction cells as [|[x y] rest IH]; intros data.
  - apply writes_within_refl.
  - cbn [const_loop]. unfold mbind at 1, array_f_set at 1.
    destruct (py_index (length data) (y * bm_w mask + x)) as [j|e] eqn:Hj;
      [|apply writes_within_refl].
    eapply (writes_within_step _ _ _ _ (x, y)); [left|exact Hj| |apply IH].
    intros c Hc. right. assumption.
Qed.

Lemma quant_loop_writes mask mval Q max_val cells :
  forall src (data : list float),
  writes_within mask (fun c => c ∈ cells /\ is_valid mask c = true) data
                (fst (quant_loop mask mval Q max_val cells src data)).
Proof.
  induction cells as [|[x y] rest IH]; intros src data.
  - apply writes_within_refl.
  - assert (Hsub : forall c, c ∈ rest /\ is_valid mask c = true ->
                     c ∈ (x, y) :: rest /\ is_valid mask c = true).
    { intros c [Hin Hv]. split; [right|]; assumption. }
    cbn [quant_loop]. unfold mbind at 1, mlift at 1.
    destruct (bitmask_at mask x y) as [[|]|e] eqn:Hat; cbn [fst].
    + destruct src as [|n src]; [apply writes_within_refl|].
      unfold mbind at 1, array_f_set at 1.
      destruct (py_index (length data) (y * bm_w mask + x)) as [j|e] eqn:Hj;
        [|apply writes_within_refl].
      eapply (writes_within_step _ _ _ _ (x, y)); [|exact Hj|exact Hsub|apply IH].
      split; [left|]. unfold is_valid. cbn [fst snd]. rewrite Hat. reflexivity.
    + eapply writes_within_weaken; [exact Hsub|apply IH].
    + apply writes_within_refl.
Qed.

(** Whatever the block holds and however the call ends, [read_block]
    leaves the sample array at its length and changes no slot but those of
    the cells of the block, [y * mask.w + x] for [x] in [rx] and [y] in
    [ry]; unless the block is of a constant mode, the cells are those for
    which the mask answered true. *)
Theorem read_block_frame (rx ry : list Z) (mask : bitmask)
        (Q max_val : float) (blob : bytes) (offset : Z) (data : list float) :
  writes_within mask
    (fun c => fst c ∈ rx /\ snd c ∈ ry /\
              (is_valid mask c = true \/ constant_mode blob offset))
    data (fst (read_block rx ry mask Q max_val blob offset data)).
Proof.
  unfold read_block, mbind, mlift.
  destruct (unpack_B blob offset) as [flags|e] eqn:Hflags;
    [|apply writes_within_refl].
  destruct (Z.land flags 63 <? 4); cbn [py_assert];
    [|apply writes_within_refl].
  assert (Hvalid : forall c : Z * Z,
            c ∈ dloop rx ry /\ is_valid mask c = true ->
            fst c ∈ rx /\ snd c ∈ ry /\
            (is_valid mask c = true \/ constant_mode blob offset)).
  { intros [x y] [Hin Hv]. apply elem_of_dloop in Hin as [Hx Hy]. auto. }
  destruct (Z.land flags 63 =? 0).
  { eapply writes_within_weaken; [exact Hvalid|apply raw_loop_writes]. }
  destruct (read_mval _ _ blob (offset + 1)) as [[mval off]|e];
    [|apply writes_within_refl].
  destruct (negb (0 =? Z.land (Z.land flags 63) 2)) eqn:Hconst.
  - pose proof (const_loop_writes mask mval (dloop rx ry) data) as Hloop.
    destruct (const_loop mask mval (dloop rx ry) data) as [data' [[]|e]];
      (eapply writes_within_weaken; [|exact Hloop]);
      intros [x y] Hin; apply elem_of_dloop in Hin as [Hx Hy];
      (split; [assumption|]); (split; [assumption|]); right;
      exists flags; (split; [exact Hflags|]);
      apply negb_true_iff, Z.eqb_neq in Hconst; congruence.
  - destruct (read_qval blob off) as [[[ival|] off']|e];
      try apply writes_within_refl.
    pose proof (quant_loop_writes mask mval Q max_val (dloop rx ry) ival data)
      as Hloop.
    destruct (quant_loop mask mval Q max_val (dloop rx ry) ival data)
      as [data' [[]|e]];
      (eapply writes_within_weaken; [exact Hvalid|exact Hloop]).
Qed.

Lemma read_block_length (rx ry : list Z) (mask : bitmask)
      (Q max_val : float) (blob : bytes) (offset : Z) (data : list float) :
  length (fst (read_block rx ry mask Q max_val blob offset data))
  = length data.
Proof.
  unfold read_block, mbind, mlift.
  destruct (unpack_B blob offset) as [flags|e]; [|reflexivity].
  destruct (Z.land flags 63 <? 4); cbn [py_assert]; [|reflexivity].
  destruct (Z.land flags 63 =? 0); [apply raw_loop_writes|].
  destruct (read_mval _ _ blob (offset + 1)) as [[mval off]|e];
    [|reflexivity].
  destruct (negb (0 =? Z.land (Z.land flags 63) 2)).
  - pose proof (const_loop_writes mask mval (dloop rx ry) data) as [Hlen _].
    destruct (const_loop mask mval (dloop rx ry) data) as [data' [[]|e]];
      exact Hlen.
  - destruct (read_qval blob off) as [[[ival|] off']|e]; try reflexivity.
    pose proof (quant_loop_writes mask mval Q max_val (dloop rx ry) ival data)
      as [Hlen _].
    destruct (quant_loop mask mval Q max_val (dloop rx ry) ival data)
      as [data' [[]|e]]; exact Hlen.
Qed.

(** ** read_block: what the modes with a mask store *)

Lemma slot_injective w x y x' y' :
  0 <= x < w -> 0 <= x' < w -> y * w + x = y' * w + x' -> x = x' /\ y = y'.
Proof.
  intros Hx Hx' Heq.
  assert (Hy : y = y').
  { destruct (Z.lt_trichotomy y y') as [Hlt|[Heq'|Hgt]]; [|assumption|]; nia. }
  subst y'. lia.
Qed.

(** The cells of a block inside the width of the mask have slots of their
    own. *)
Lemma block_slots mask rx ry :
  NoDup rx -> NoDup ry ->
  (forall x, x ∈ rx -> 0 <= x < bm_w mask) ->
  (forall y, y ∈ ry -> 0 <= y) ->
  NoDup (map (slot mask) (dloop rx ry)) /\
  (forall c, c ∈ dloop rx ry -> 0 <= slot mask c).
Proof.
  intros Hrx Hry Hxs Hys. split.
  - change (map (slot mask) (dloop rx ry)) with (slot mask <$> dloop rx ry).
    apply NoDup_fmap_2_strong.
    + intros [x y] [x' y'] Hc Hc' Heq.
      apply elem_of_dloop in Hc as [Hx _]. apply elem_of_dloop in Hc' as [Hx' _].
      unfold slot in Heq. cbn [fst snd] in Heq.
      apply slot_injective in Heq as [-> ->]; auto.
    + unfold dloop.
      change (flat_map ?f ry) with (ry ≫= f).
      apply NoDup_bind; [| |assumption].
      * intros y1 y2 [x y] _ _ H1 H2.
        change (map ?f rx) with (f <$> rx) in H1, H2.
        apply list_elem_of_fmap in H1 as (x1 & [= -> ->] & _).
        apply list_elem_of_fmap in H2 as (x2 & [= _ ->] & _). reflexivity.
      * intros y _. change (map ?f rx) with (f <$> rx).
        apply NoDup_fmap_2; [|assumption]. intros x1 x2 [= ->]. reflexivity.
  - intros [x y] Hc. apply elem_of_dloop in Hc as [Hx Hy].
    unfold slot. cbn [fst snd]. specialize (Hxs x Hx). specialize (Hys y Hy).
    nia.
Qed.

(** A slot written for a cell is not written again for a later cell. *)
Lemma later_cells_elsewhere mask (n : nat) c0 j0 (rest : list (Z * Z)) :
  py_index n (slot mask c0) = Ok j0 ->
  NoDup (map (slot mask) (c0 :: rest)) ->
  (forall c, c ∈ c0 :: rest -> 0 <= slot mask c) ->
  forall c, c ∈ rest /\ is_valid mask c = true ->
            py_index n (slot mask c) <> Ok j0.
Proof.
  intros Hj0 Hnd Hpos c [Hin _] Hj.
  apply py_index_Ok in Hj0 as [_ Hj0]. apply py_index_Ok in Hj as [_ Hj].
  pose proof (Hpos c0 ltac:(left)) as H0.
  pose proof (Hpos c ltac:(right; assumption)) as H1.
  replace (slot mask c0 <? 0) with false in Hj0
    by (symmetry; apply Z.ltb_ge; assumption).
  replace (slot mask c <? 0) with false in Hj
    by (symmetry; apply Z.ltb_ge; assumption).
  cbn [map] in Hnd. apply NoDup_cons in Hnd as [Hfresh _].
  apply Hfresh. rewrite <- Hj0, Hj.
  change (map (slot mask) rest) with (slot mask <$> rest).
  apply list_elem_of_fmap. exists c. auto.
Qed.

Lemma raw_loop_values mask blob cells :
  forall offset (data data' : list float) offset',
  raw_loop mask blob cells offset data = (data', Ok offset') ->
  NoDup (map (slot mask) cells) ->
  (forall c, c ∈ cells -> 0 <= slot mask c) ->
  offset' = offset + 4 * len (valid_cells mask cells) /\
  forall (k : nat) c, valid_cells mask cells !! k = Some c ->
    exists s, unpack_f blob (offset + 4 * Z.of_nat k) = Ok s /\
              data' !! Z.to_nat (slot mask c) = Some (store_f32 s).
Proof.
  induction cells as [|[x y] rest IH]; intros offset data data' offset'.
  - cbn [raw_loop]. unfold mret. intros [= <- <-] _ _.
    split; [unfold valid_cells, len; cbn [List.filter length]; lia|].
    intros k c Hk. discriminate Hk.
  - intros Hrun Hnd Hpos.
    assert (Hnd' : NoDup (map (slot mask) rest))
      by (cbn [map] in Hnd; apply NoDup_cons in Hnd as [_ Hnd]; exact Hnd).
    assert (Hpos' : forall c, c ∈ rest -> 0 <= slot mask c)
      by (intros c Hc; apply Hpos; right; exact Hc).
    cbn [raw_loop] in Hrun. unfold mbind at 1, mlift at 1 in Hrun.
    assert (Hv : is_valid mask (x, y)
                 = match bitmask_at mask x y with Ok true => true | _ => false end)
      by reflexivity.
    unfold valid_cells. cbn [List.filter]. rewrite Hv.
    fold (valid_cells mask rest).
    destruct (bitmask_at mask x y) as [[|]|e] eqn:Hat;
      [| |discriminate Hrun].
    + unfold mbind at 1, mlift at 1 in Hrun.
      destruct (unpack_f blob offset) as [s|e] eqn:Hs; [|discriminate Hrun].
      unfold mbind at 1, array_f_set at 1 in Hrun.
      destruct (py_index (length data) (y * bm_w mask + x)) as [j|e] eqn:Hj;
        [|discriminate Hrun].
      pose proof (raw_loop_writes mask blob rest (offset + 4)
                    (<[j := store_f32 (as_float (NFloat s))]> data))
        as [_ Hframe].
      rewrite Hrun in Hframe. cbn [fst] in Hframe.
      assert (Hj1 : py_index
                      (length (<[j := store_f32 (as_float (NFloat s))]> data))
                      (slot mask (x, y)) = Ok j)
        by (rewrite length_insert; exact Hj).
      specialize (Hframe j (later_cells_elsewhere mask _ (x, y) j rest
                              Hj1 Hnd Hpos)).
      apply IH in Hrun as [-> Hvals]; [|assumption|assumption].
      split; [unfold len; cbn [length]; lia|].
      intros [|k] c Hk.
      * change (Some (x, y) = Some c) in Hk. injection Hk as <-. exists s.
        rewrite Z.mul_0_r, Z.add_0_r. split; [assumption|].
        pose proof Hj as Hj'. apply py_index_Ok in Hj' as [Hlt Hj'].
        pose proof (Hpos (x, y) ltac:(left)) as H0.
        unfold slot in H0 |- *. cbn [fst snd] in H0 |- *.
        replace (y * bm_w mask + x <? 0) with false in Hj'
          by (symmetry; apply Z.ltb_ge; assumption).
        rewrite <- Hj', Nat2Z.id, Hframe.
        apply list_lookup_insert_eq. assumption.
      * destruct (Hvals k c Hk) as (s' & Hs' & Hd). exists s'.
        split; [|assumption].
        replace (offset + 4 * Z.of_nat (S k)) with (offset + 4 + 4 * Z.of_nat k)
          by lia.
        assumption.
    + eapply IH; eassumption.
Qed.

Lemma quant_loop_values mask mval Q max_val cells :
  forall src (data data' : list float),
  quant_loop mask mval Q max_val cells src data = (data', Ok tt) ->
  NoDup (map (slot mask) cells) ->
  (forall c, c ∈ cells -> 0 <= slot mask c) ->
  forall (k : nat) c, valid_cells mask cells !! k = Some c ->
    exists n, src !! k = Some n /\
              data' !! Z.to_nat (slot mask c)
              = Some (quantized mval Q max_val n).
Proof.
  induction cells as [|[x y] rest IH]; intros src data data'.
  - intros _ _ _ k c Hk. discriminate Hk.
  - intros Hrun Hnd Hpos.
    assert (Hnd' : NoDup (map (slot mask) rest))
      by (cbn [map] in Hnd; apply NoDup_cons in Hnd as [_ Hnd]; exact Hnd).
    assert (Hpos' : forall c, c ∈ rest -> 0 <= slot mask c)
      by (intros c Hc; apply Hpos; right; exact Hc).
    cbn [quant_loop] in Hrun. unfold mbind at 1, mlift at 1 in Hrun.
    assert (Hv : is_valid mask (x, y)
                 = match bitmask_at mask x y with Ok true => true | _ => false end)
      by reflexivity.
    unfold valid_cells. cbn [List.filter]. rewrite Hv.
    fold (valid_cells mask rest).
    destruct (bitmask_at mask x y) as [[|]|e] eqn:Hat;
      [| |discriminate Hrun].
    + destruct src as [|n src]; [discriminate Hrun|].
      unfold mbind at 1, array_f_set at 1 in Hrun.
      destruct (py_index (length data) (y * bm_w mask + x)) as [j|e] eqn:Hj;
        [|discriminate Hrun].
      cbn [as_float] in Hrun.
      fold (quantized mval Q max_val n) in Hrun.
      pose proof (quant_loop_writes mask mval Q max_val rest src
                    (<[j := quantized mval Q max_val n]> data))
        as [_ Hframe].
      rewrite Hrun in Hframe. cbn [fst] in Hframe.
      assert (Hj1 : py_index
                      (length (<[j := quantized mval Q max_val n]> data))
                      (slot mask (x, y)) = Ok j)
        by (rewrite length_insert; exact Hj).
      specialize (Hframe j (later_cells_elsewhere mask _ (x, y) j rest
                              Hj1 Hnd Hpos)).
      intros [|k] c Hk.
      * change (Some (x, y) = Some c) in Hk. injection Hk as <-.
        exists n. split; [reflexivity|].
        pose proof Hj as Hj'. apply py_index_Ok in Hj' as [Hlt Hj'].
        pose proof (Hpos (x, y) ltac:(left)) as H0.
        unfold slot in H0 |- *. cbn [fst snd] in H0 |- *.
        replace (y * bm_w mask + x <? 0) with false in Hj'
          by (symmetry; apply Z.ltb_ge; assumption).
        rewrite <- Hj', Nat2Z.id, Hframe.
        apply list_lookup_insert_eq. assumption.
      * exact (IH _ _ _ Hrun Hnd' Hpos' k c Hk).
    + eapply IH; eassumption.
Qed.

(** Mode 0, samples stored as such: when [read_block] returns, the blob
    held one little-endian single-precision float for each cell of the
    block that the mask marks valid, in the order of the loop, right after
    the flag byte; each such cell holds its float and the offset returned
    is the one after the last float.  The block lies inside the width of
    the mask, so that its cells have slots of their own. *)
Theorem raw_block_values (rx ry : list Z) (mask : bitmask)
        (Q max_val : float) (blob : bytes) (offset : Z)
        (data data' : list float) (flags offset' : Z) :
  unpack_B blob offset = Ok flags ->
  Z.land flags 63 = 0 ->
  NoDup rx -> NoDup ry ->
  (forall x, x ∈ rx -> 0 <= x < bm_w mask) ->
  (forall y, y ∈ ry -> 0 <= y) ->
  read_block rx ry mask Q max_val blob offset data = (data', Ok offset') ->
  offset' = offset + 1 + 4 * len (valid_cells mask (dloop rx ry)) /\
  forall (k : nat) c, valid_cells mask (dloop rx ry) !! k = Some c ->
    exists s, unpack_f blob (offset + 1 + 4 * Z.of_nat k) = Ok s /\
              data' !! Z.to_nat (slot mask c) = Some (store_f32 s).
Proof.
  intros Hflags Hmode Hrx Hry Hxs Hys.
  destruct (block_slots mask rx ry Hrx Hry Hxs Hys) as [Hnd Hpos].
  unfold read_block, mbind, mlift. rewrite Hflags, Hmode.
  change (0 <? 4) with true. change (0 =? 0) with true. cbn [py_assert].
  intros Hrun. eapply raw_loop_values; eassumption.
Qed.

(** Mode 1, quantized samples: when [read_block] returns, it has read the
    minimum and a sequence of integers, at least one for each cell of the
    block that the mask marks valid; the k-th valid cell in the order of
    the loop holds [min(mval + Q * n, max_val)] for the k-th integer [n],
    integers beyond the last valid cell are ignored, and the offset
    returned is the one [read_qval] returned. *)
Theorem quantized_block_values (rx ry : list Z) (mask : bitmask)
        (Q max_val : float) (blob : bytes) (offset : Z)
        (data data' : list float) (flags offset' : Z) :
  unpack_B blob offset = Ok flags ->
  Z.land flags 63 = 1 ->
  NoDup rx -> NoDup ry ->
  (forall x, x ∈ rx -> 0 <= x < bm_w mask) ->
  (forall y, y ∈ ry -> 0 <= y) ->
  read_block rx ry mask Q max_val blob offset data = (data', Ok offset') ->
  exists mval off ival,
    read_mval 1 (Z.shiftr flags 6) blob (offset + 1) = Ok (mval, off) /\
    read_qval blob off = Ok (Some ival, offset') /\
    len (valid_cells mask (dloop rx ry)) <= len ival /\
    forall (k : nat) c, valid_cells mask (dloop rx ry) !! k = Some c ->
      exists n, ival !! k = Some n /\
                data' !! Z.to_nat (slot mask c)
                = Some (quantized mval Q max_val n).
Proof.
  intros Hflags Hmode Hrx Hry Hxs Hys.
  destruct (block_slots mask rx ry Hrx Hry Hxs Hys) as [Hnd Hpos].
  unfold read_block, mbind, mlift. rewrite Hflags, Hmode.
  change (1 <? 4) with true. change (1 =? 0) with false.
  change (negb (0 =? Z.land 1 2)) with false. cbn [py_assert].
  destruct (read_mval 1 (Z.shiftr flags 6) blob (offset + 1))
    as [[mval off]|e]; [|discriminate].
  destruct (read_qval blob off) as [[[ival|] off']|e] eqn:Hqval;
    try discriminate.
  destruct (quant_loop mask mval Q max_val (dloop rx ry) ival data)
    as [data1 [[]|e]] eqn:Hloop; [|discriminate].
  intros [= <- <-]. exists mval, off, ival.
  split; [reflexivity|]. split; [exact Hqval|].
  pose proof (quant_loop_values _ _ _ _ _ _ _ _ Hloop Hnd Hpos) as Hvals.
  split; [|exact Hvals].
  unfold len. apply inj_le.
  destruct (valid_cells mask (dloop rx ry)) as [|c0 cs] eqn:Hcells using rev_ind;
    [cbn; lia|].
  destruct (Hvals (length cs) c0) as (n & Hn & _).
  { rewrite lookup_app_r by lia. rewrite Nat.sub_diag. reflexivity. }
  apply lookup_lt_Some in Hn. rewrite length_app. cbn [length]. lia.
Qed.

End FurtherBlock.

(** ** dloop: the order of the cells *)

(** [dloop(xr, yr)] yields the cells row by row, x inner and y outer: the
    cell of the i-th x and the j-th y is item [j * len(xr) + i]. *)
Theorem dloop_row_major (xr yr : list Z) (i j : nat) (x y : Z) :
  xr !! i = Some x -> yr !! j = Some y ->
  length (dloop xr yr) = (length yr * length xr)%nat /\
  dloop xr yr !! (j * length xr + i)%nat = Some (x, y).
Proof.
  intros Hx Hy. split.
  - clear. unfold dloop. induction yr as [|y yr IH]; [reflexivity|].
    cbn [flat_map length]. rewrite length_app, length_map, IH. lia.
  - revert j Hy. unfold dloop. induction yr as [|y0 yr IH]; intros j Hy.
    + discriminate Hy.
    + cbn [flat_map]. destruct j as [|j].
      * injection Hy as ->. rewrite lookup_app_l.
        -- change (map ?f xr) with (f <$> xr). rewrite list_lookup_fmap.
           cbn [Nat.mul Nat.add]. rewrite Hx. reflexivity.
        -- rewrite length_map. apply lookup_lt_Some in Hx. exact Hx.
      * rewrite lookup_app_r by (rewrite length_map; lia).
        rewrite length_map.
        replace (S j * length xr + i - length xr)%nat
          with (j * length xr + i)%nat by lia.
        apply IH. exact Hy.
Qed.

Section FurtherSession.
Context {float : Type} {F : PyFloat float} {Mem : PyMemory}.
Local Abbreviation descriptor := (@descriptor float) (only parsing).
Local Abbreviation lerc := (@lerc float) (only parsing).
Local Abbreviation num := (@num float) (only parsing).

(** ** lerc.__init__: which blobs open a valid session *)

Lemma valid_header_accepted (blob : bytes) :
  valid (lerc_init blob) = Some true -> header_accepted blob.
Proof.
  intros Hvalid. unfold header_accepted.
  destruct (lerc_init_outcome blob)
    as [ | | | |fv it h w u first Hmagic Hhdr Hver Hfirst Hlen
         | |
         |fv it h w u first second Hmagic Hhdr Hver Hfirst Hlen Hcheck Hsecond];
    cbn [valid] in Hvalid; try discriminate Hvalid;
    apply andb_true_iff in Hver as [Hv Ht];
    apply Z.eqb_eq in Hv, Ht; subst fv it;
    (split; [assumption|]); exists h, w, u, first; eauto 10.
Qed.

Lemma valid_is_set (blob : bytes) :
  valid (lerc_init blob) = Some true \/ valid (lerc_init blob) = Some false.
Proof. destruct (lerc_init_outcome blob); cbn [valid]; auto. Qed.

(** The constructor always sets the flag, and sets it to [True] for the
    blobs that pass every check of the header and for no other blob. *)
Theorem lerc_init_valid_iff (blob : bytes) :
  (valid (lerc_init blob) = Some true <-> header_accepted blob) /\
  (valid (lerc_init blob) = Some true \/ valid (lerc_init blob) = Some false).
Proof.
  split; [|apply valid_is_set].
  split; [apply valid_header_accepted|].
  - intros (Hmagic & h & w & u & first & Hhdr & Hfirst & Hrest).
    destruct (lerc_init_outcome blob); cbn [valid]; try reflexivity;
      try contradiction;
      repeat match goal with
        | H : unpack_IIIId blob 10 = _ |- _ =>
            rewrite Hhdr in H; try discriminate H;
            injection H as <- <- <- <- <-
        | H : unpack_IIIf blob 34 = _ |- _ =>
            rewrite Hfirst in H; try discriminate H; injection H as <-
        end;
      try discriminate;
      destruct Hrest as [Hshort|(Hlong & Hcheck & second & Hsecond)];
      try lia; congruence.
Qed.

Lemma field_word bs start : is_word (field bs start 4).
Proof.
  unfold field. apply le_uint_word. unfold len. rewrite length_take. lia.
Qed.

(** What a valid session holds: the height and the width of the header,
    twice the half step, the value descriptor and no mask yet; the sizes
    and the counts are unsigned 32-bit numbers and the blob has at least
    the 50 bytes of the header and one descriptor.  When the session has a
    mask descriptor, the blob has the 66 bytes of the header and two
    descriptors besides the mask bytes, and the value descriptor is the
    one after the mask bytes. *)
Theorem valid_session_attributes (blob : bytes) :
  valid (lerc_init blob) = Some true ->
  exists h w u v,
    unpack_IIIId blob 10 = Ok (11, 8, h, w, u) /\
    lerc_h (lerc_init blob) = Some h /\
    lerc_w (lerc_init blob) = Some w /\
    lerc_u (lerc_init blob) = Some (fmul u (of_int 2)) /\
    lerc_v (lerc_init blob) = Some v /\
    lerc_mask (lerc_init blob) = None /\
    is_word h /\ is_word w /\
    is_word (nbY v) /\ is_word (nbX v) /\ is_word (nB v) /\
    50 <= len blob /\
    (forall m, lerc_m (lerc_init blob) = Some m ->
       unpack_IIIf blob 34 = Ok m /\
       is_word (nB m) /\ 66 + nB m <= len blob /\
       unpack_IIIf blob (50 + nB m) = Ok v).
Proof.
  intros Hvalid.
  assert (Hdesc : forall off (d : descriptor),
            unpack_IIIf blob off = Ok d ->
            is_word (nbY d) /\ is_word (nbX d) /\ is_word (nB d)).
  { intros off d Hd. unfold unpack_IIIf in Hd.
    apply rbind_Ok in Hd as (bs & _ & [= <-]). cbn [nbY nbX nB].
    repeat split; apply field_word. }
  assert (Hdims : forall fv it h w u,
            unpack_IIIId blob 10 = Ok (fv, it, h, w, u) ->
            is_word h /\ is_word w).
  { intros fv it h w u Hd. unfold unpack_IIIId in Hd.
    apply rbind_Ok in Hd as (bs & _ & [= <- <- <- <- <-]).
    split; apply field_word. }
  assert (Hlen : forall d : descriptor,
            unpack_IIIf blob 34 = Ok d -> 50 <= len blob).
  { intros d Hd. unfold unpack_IIIf in Hd.
    apply rbind_Ok in Hd as (bs & Hbs & _).
    apply slice_at_inside in Hbs; lia. }
  destruct (lerc_init_outcome blob)
    as [ | | | |fv it h w u first Hmagic Hhdr Hver Hfirst Hshort
         | |
         |fv it h w u first second Hmagic Hhdr Hver Hfirst Hlong Hcheck Hsecond];
    cbn [valid] in Hvalid; try discriminate Hvalid;
    apply andb_true_iff in Hver as [Hv Ht];
    apply Z.eqb_eq in Hv, Ht; subst fv it;
    destruct (Hdims _ _ _ _ _ Hhdr) as [Hh Hw];
    pose proof (Hlen _ Hfirst) as H50.
  - destruct (Hdesc _ _ Hfirst) as (H1 & H2 & H3).
    exists h, w, u, first.
    cbn [lerc_h lerc_w lerc_u lerc_v lerc_m lerc_mask].
    repeat (split; [first [assumption|reflexivity]|]).
    intros m Hm. discriminate Hm.
  - destruct (Hdesc _ _ Hsecond) as (H1 & H2 & H3).
    destruct (Hdesc _ _ Hfirst) as (_ & _ & H4).
    exists h, w, u, second.
    cbn [lerc_h lerc_w lerc_u lerc_v lerc_m lerc_mask].
    repeat (split; [first [assumption|reflexivity]|]).
    intros m [= <-]. auto.
Qed.

(** ** decode: sessions that cannot be decoded *)

(** A blob too short for a second descriptor opens a valid session with
    the value descriptor only.  [decode] then reads the byte count of the
    mask descriptor, which the session does not have: the call raises
    [AttributeError], and so does every later call. *)
Theorem values_only_blob_raises (blob blob' : bytes) (first : descriptor) :
  valid (lerc_init blob) = Some true ->
  unpack_IIIf blob 34 = Ok first ->
  len blob < 66 + nB first ->
  decode (lerc_init blob) blob' = (lerc_init blob, Raise AttributeError).
Proof.
  intros Hvalid Hfirst Hshort.
  destruct (lerc_init_outcome blob); cbn [valid] in Hvalid;
    try discriminate Hvalid;
    match goal with
    | H : unpack_IIIf blob 34 = _ |- _ =>
        rewrite Hfirst in H; injection H as <-
    end; [reflexivity|lia].
Qed.

(** ** decode: the cached mask *)

(** A second call of [decode] with the same blob returns what the first
    call returned: the mask that the first call cached is the one it
    decoded the samples with. *)
Theorem decode_twice (self : lerc) (blob : bytes) :
  snd (decode (fst (decode self blob)) blob) = snd (decode self blob).
Proof.
  unfold decode.
  destruct self as [[[|]|] h w u m v [mask|]]; cbn; try reflexivity.
  destruct (decode_mask _ blob) as [mask|e] eqn:Hmask; cbn.
  - reflexivity.
  - rewrite Hmask. reflexivity.
Qed.

(** ** read_tiles: the sample array and the block grid *)

Lemma length_tuple_repeat {A} (t : list A) n :
  length (tuple_repeat t n) = (Z.to_nat n * length t)%nat.
Proof.
  unfold tuple_repeat. induction (Z.to_nat n) as [|k IH]; [reflexivity|].
  cbn [replicate mjoin list_join Nat.mul]. rewrite length_app, <- IH.
  reflexivity.
Qed.

Lemma tiles_loop_length (self : lerc) w h bw bh blob origins :
  forall offset (data : list float),
    length (fst (tiles_loop self w h bw bh blob origins offset data))
    = length data.
Proof.
  induction origins as [|[x y] rest IH]; intros offset data; [reflexivity|].
  cbn [tiles_loop]. cbv zeta. unfold mbind, mlift.
  destruct (attr (lerc_mask self)) as [mask|e]; [|reflexivity].
  destruct (attr (lerc_u self)) as [u|e]; [|reflexivity].
  destruct (attr (lerc_v self)) as [v|e]; [|reflexivity].
  match goal with
  | |- context [read_block ?rx ?ry mask u ?mv blob offset data] =>
      pose proof (read_block_length rx ry mask u mv blob offset data)
        as Hlen;
      destruct (read_block rx ry mask u mv blob offset data)
        as [data1 [off|e]]
  end; cbn [fst] in Hlen |- *; [|exact Hlen].
  fold (@mbind (list float)) (@mlift (list float)).
  rewrite <- Hlen. apply IH.
Qed.

Lemma attr_Ok {A} (a : option A) x : attr a = Ok x -> a = Some x.
Proof. destruct a; cbn; congruence. Qed.

Lemma tuple_repeat_alloc_Ok {A} (t l : list A) n :
  tuple_repeat_alloc t n = Ok l ->
  l = tuple_repeat t n /\ len t * Z.max 0 n <= max_items.
Proof.
  unfold tuple_repeat_alloc.
  destruct (max_items <? len t * Z.max 0 n) eqn:E; [discriminate|].
  apply Z.ltb_ge in E. intros [= <-]. auto.
Qed.

Lemma tuple_repeat_alloc_fits {A} (t : list A) n :
  len t * Z.max 0 n <= max_items ->
  tuple_repeat_alloc t n = Ok (tuple_repeat t n).
Proof.
  intros H. unfold tuple_repeat_alloc.
  replace (max_items <? len t * Z.max 0 n) with false
    by (symmetry; apply Z.ltb_ge; assumption).
  reflexivity.
Qed.

Lemma array_f_Ok (t l : list float) :
  array_f t = Ok l -> l = map store_f32 t /\ len t <= max_items.
Proof.
  unfold array_f. destruct (max_items <? len t) eqn:E; [discriminate|].
  apply Z.ltb_ge in E. intros [= <-]. auto.
Qed.

Lemma array_f_fits (t : list float) :
  len t <= max_items -> array_f t = Ok (map store_f32 t).
Proof.
  intros H. unfold array_f.
  replace (max_items <? len t) with false
    by (symmetry; apply Z.ltb_ge; assumption).
  reflexivity.
Qed.

Lemma len_tuple_repeat {A} (t : list A) n :
  len (tuple_repeat t n) = Z.max 0 n * len t.
Proof. unfold len. rewrite length_tuple_repeat. lia. Qed.

(** The allocation of the sample array when it fits. *)
Lemma sample_array_fits w h :
  0 <= w -> 0 <= h -> w <= max_items -> w * h <= max_items ->
  exists row cells : list float,
    tuple_repeat_alloc [f0] w = Ok row /\
    tuple_repeat_alloc row h = Ok cells /\
    array_f cells = Ok (map store_f32 cells) /\
    length cells = (Z.to_nat h * Z.to_nat w)%nat.
Proof.
  intros Hw Hh Hrow Hall.
  exists (tuple_repeat [f0] w), (tuple_repeat (tuple_repeat [f0] w) h).
  assert (Hlen1 : len (tuple_repeat [f0] w) = w).
  { rewrite len_tuple_repeat. unfold len. cbn [length]. lia. }
  assert (Hlen2 : len (tuple_repeat (tuple_repeat [f0] w) h) = w * h).
  { rewrite len_tuple_repeat, Hlen1. lia. }
  split; [|split; [|split]].
  - apply tuple_repeat_alloc_fits. unfold len. cbn [length]. lia.
  - apply tuple_repeat_alloc_fits. rewrite Hlen1. lia.
  - apply array_f_fits. rewrite Hlen2. assumption.
  - rewrite !length_tuple_repeat. cbn [length]. lia.
Qed.

Lemma read_tiles_shape (self : lerc) blob data :
  read_tiles self blob = Ok data ->
  exists h w v m,
    lerc_h self = Some h /\ lerc_w self = Some w /\
    lerc_v self = Some v /\ lerc_m self = Some m /\
    nbY v <> 0 /\ nbX v <> 0 /\ h / nbY v <> 0 /\ w / nbX v <> 0 /\
    length data = (Z.to_nat h * Z.to_nat w)%nat.
Proof.
  unfold read_tiles. intros H.
  apply rbind_Ok in H as (h & Hh & H). apply attr_Ok in Hh.
  apply rbind_Ok in H as (v & Hv & H). apply attr_Ok in Hv.
  apply rbind_Ok in H as (bh & Hbh & H).
  apply rbind_Ok in H as (w & Hw & H). apply attr_Ok in Hw.
  apply rbind_Ok in H as (bw & Hbw & H).
  apply rbind_Ok in H as (m & Hm & H). apply attr_Ok in Hm.
  apply rbind_Ok in H as (row & Hrow & H).
  apply tuple_repeat_alloc_Ok in Hrow as [-> _].
  apply rbind_Ok in H as (cells & Hcells & H).
  apply tuple_repeat_alloc_Ok in Hcells as [-> _].
  apply rbind_Ok in H as (result0 & Hresult & H).
  apply array_f_Ok in Hresult as [-> _].
  apply rbind_Ok in H as (xr & Hxr & H).
  apply rbind_Ok in H as (yr & Hyr & H).
  unfold py_floordiv in Hbh, Hbw.
  destruct (nbY v =? 0) eqn:EY; [discriminate|]. injection Hbh as <-.
  destruct (nbX v =? 0) eqn:EX; [discriminate|]. injection Hbw as <-.
  apply Z.eqb_neq in EY, EX.
  unfold py_range_step in Hxr, Hyr.
  destruct (w / nbX v =? 0) eqn:EW; [discriminate|].
  destruct (h / nbY v =? 0) eqn:EH; [discriminate|].
  apply Z.eqb_neq in EW, EH.
  exists h, w, v, m. repeat (split; [assumption|]).
  match type of H with
  | context [tiles_loop ?s ?w ?h ?bw ?bh ?b ?o ?off ?d] =>
      pose proof (tiles_loop_length s w h bw bh b o off d) as Hlen;
      destruct (tiles_loop s w h bw bh b o off d) as [result [off'|e]]
  end; [|discriminate].
  injection H as <-. cbn [fst] in Hlen. rewrite Hlen, length_map.
  rewrite !length_tuple_repeat. cbn [length]. lia.
Qed.

(** When [decode] returns samples, the session has the height, the width
    and both descriptors, the value descriptor has nonzero block counts
    that give blocks of at least one row and one column, and there are
    height times width samples. *)
Theorem decode_samples_shape (self : lerc) (blob : bytes)
        (data : list float) :
  snd (decode self blob) = Ok (Samples data) ->
  exists h w v m,
    lerc_h self = Some h /\ lerc_w self = Some w /\
    lerc_v self = Some v /\ lerc_m self = Some m /\
    nbY v <> 0 /\ nbX v <> 0 /\ h / nbY v <> 0 /\ w / nbX v <> 0 /\
    length data = (Z.to_nat h * Z.to_nat w)%nat.
Proof.
  unfold decode.
  destruct (attr (valid self)) as [[|]|e]; cbn [negb snd]; try discriminate.
  destruct (lerc_mask self) as [mask|].
  - cbn [snd]. intros H. apply rbind_Ok in H as (d & Hd & [= <-]).
    apply read_tiles_shape in Hd. exact Hd.
  - destruct (decode_mask self blob) as [mask|e]; [|discriminate].
    cbn [snd]. intros H. apply rbind_Ok in H as (d & Hd & [= <-]).
    apply read_tiles_shape in Hd. exact Hd.
Qed.

(** A value descriptor with a block count of zero makes [read_tiles]
    divide by zero before it reads a block. *)
Theorem read_tiles_zero_block_count (self : lerc) (blob : bytes)
        (h w : Z) (v : descriptor) :
  lerc_h self = Some h -> lerc_w self = Some w -> lerc_v self = Some v ->
  nbY v = 0 \/ nbX v = 0 ->
  read_tiles self blob = Raise ZeroDivisionError.
Proof.
  intros Hh Hw Hv Hzero. unfold read_tiles.
  rewrite Hh, Hw, Hv. cbn [attr rbind]. unfold py_floordiv.
  destruct Hzero as [-> | HX]; [reflexivity|].
  destruct (nbY v =? 0); [reflexivity|]. cbn [rbind]. rewrite HX.
  reflexivity.
Qed.

(** A value descriptor that announces more block rows than rows, or more
    block columns than columns, gives a block size of zero, which [range]
    refuses as a step: once the sample array is allocated, [read_tiles]
    raises [ValueError] before it reads a block. *)
Theorem read_tiles_zero_block_size (self : lerc) (blob : bytes)
        (h w : Z) (v m : descriptor) :
  lerc_h self = Some h -> lerc_w self = Some w ->
  lerc_v self = Some v -> lerc_m self = Some m ->
  nbY v <> 0 -> nbX v <> 0 ->
  0 <= h -> 0 <= w -> w <= max_items -> w * h <= max_items ->
  h < nbY v \/ w < nbX v ->
  read_tiles self blob = Raise ValueError.
Proof.
  intros Hh Hw Hv Hm HY HX Hh0 Hw0 Hrow Hall Hsmall. unfold read_tiles.
  rewrite Hh, Hw, Hv, Hm. cbn [attr rbind]. unfold py_floordiv.
  apply Z.eqb_neq in HY, HX. rewrite HY, HX. cbn [rbind].
  destruct (sample_array_fits w h Hw0 Hh0 Hrow Hall)
    as (row & cells & Hr & Hc & Ha & _).
  rewrite Hr. cbn [rbind]. rewrite Hc. cbn [rbind]. rewrite Ha. cbn [rbind].
  unfold py_range_step.
  destruct (w / nbX v =? 0) eqn:EW; [reflexivity|].
  apply Z.eqb_neq in EW.
  destruct Hsmall as [Hs|Hs]; [|rewrite Z.div_small in EW by lia; lia].
  rewrite (Z.div_small h) by lia. cbn [Z.eqb].
  destruct (0 <? w / nbX v); reflexivity.
Qed.

(** A sample array longer than the machine can hold: with a height and a
    width whose product is beyond [max_items], [read_tiles] raises
    [MemoryError] when it builds the array, after the block sizes are
    computed and before [range] is called or a block is read, however
    short the blob is. *)
Theorem read_tiles_out_of_memory (self : lerc) (blob : bytes)
        (h w : Z) (v m : descriptor) :
  lerc_h self = Some h -> lerc_w self = Some w ->
  lerc_v self = Some v -> lerc_m self = Some m ->
  nbY v <> 0 -> nbX v <> 0 ->
  0 <= h -> 0 <= w -> max_items < w * h ->
  read_tiles self blob = Raise MemoryError.
Proof.
  intros Hh Hw Hv Hm HY HX Hh0 Hw0 Hbig. unfold read_tiles.
  rewrite Hh, Hw, Hv, Hm. cbn [attr rbind]. unfold py_floordiv.
  apply Z.eqb_neq in HY, HX. rewrite HY, HX. cbn [rbind].
  destruct (tuple_repeat_alloc [f0] w) as [row|e] eqn:Hr; cbn [rbind].
  2:{ unfold tuple_repeat_alloc in Hr.
      destruct (max_items <? len [f0] * Z.max 0 w); [|discriminate Hr].
      injection Hr as <-. reflexivity. }
  apply tuple_repeat_alloc_Ok in Hr as [-> Erow].
  unfold tuple_repeat_alloc. rewrite len_tuple_repeat.
  replace (max_items <? Z.max 0 w * len [f0] * Z.max 0 h) with true;
    [reflexivity|].
  symmetry. apply Z.ltb_lt. unfold len. cbn [length]. nia.
Qed.

End FurtherSession.

(** ** read_tiles: the blocks tile the image *)

Lemma py_range_app a b c :
  a <= b <= c -> py_range a b ++ py_range b c = py_range a c.
Proof.
  intros H. unfold py_range.
  replace (Z.to_nat (c - a)) with (Z.to_nat (b - a) + Z.to_nat (c - b))%nat
    by lia.
  rewrite seq_app, map_app. f_equal. cbn [Nat.add].
  rewrite <- (Nat.add_0_r (Z.to_nat (b - a))) at 1.
  rewrite <- fmap_add_seq.
  change (map ?f (?g <$> ?l)) with (map f (map g l)). rewrite map_map.
  apply map_ext. intros i. lia.
Qed.

Lemma py_range_empty a b : b <= a -> py_range a b = [].
Proof. intros H. unfold py_range. replace (Z.to_nat (b - a)) with 0%nat by lia. reflexivity. Qed.

Lemma blocks_cover w bw (k : nat) : forall s,
  0 < bw ->
  ((0 < k)%nat -> s + (Z.of_nat k - 1) * bw < w) ->
  flat_map (fun x => py_range x (x + Z.min bw (w - x)))
           (map (fun i => s + Z.of_nat i * bw) (seq 0 k))
  = py_range s (Z.max s (Z.min w (s + Z.of_nat k * bw))).
Proof.
  induction k as [|k IH]; intros s Hbw Hlast.
  - cbn [seq map flat_map]. symmetry. apply py_range_empty. lia.
  - cbn [seq map flat_map]. rewrite <- seq_shift, map_map.
    rewrite (map_ext _ (fun i => (s + bw) + Z.of_nat i * bw)) by (intros i; lia).
    rewrite IH; [|assumption|lia].
    assert (Hs : s < w) by nia.
    destruct k as [|k].
    + rewrite (py_range_empty (s + bw)) by lia. rewrite app_nil_r.
      f_equal; lia.
    + assert (s + bw < w) by nia.
      replace (s + Z.of_nat 0 * bw + Z.min bw (w - (s + Z.of_nat 0 * bw)))
        with (s + bw) by lia.
      replace (s + Z.of_nat 0 * bw) with s by lia.
      rewrite py_range_app by lia. f_equal. lia.
Qed.

(** Along an axis of [w] pixels cut into blocks of [bw], the blocks that
    [read_tiles] visits, [range(x, x + min(bw, w - x))] for [x] in
    [range(0, w, bw)], are the pixels [range(0, w)] in order: every pixel
    is in one block and the last block is cut at the edge. *)
Theorem block_ranges_tile_axis (w bw : Z) (xr : list Z) :
  0 < bw ->
  py_range_step 0 w bw = Ok xr ->
  flat_map (fun x => py_range x (x + Z.min bw (w - x))) xr = py_range 0 w.
Proof.
  intros Hbw. unfold py_range_step.
  replace (bw =? 0) with false by (symmetry; apply Z.eqb_neq; lia).
  replace (0 <? bw) with true by (symmetry; apply Z.ltb_lt; lia).
  intros [= <-].
  set (n := (w - 0 + bw - 1) / bw).
  assert (Hn : n * bw <= w + bw - 1 < (n + 1) * bw).
  { pose proof (Z.div_mod (w - 0 + bw - 1) bw ltac:(lia)) as Hdm.
    pose proof (Z.mod_pos_bound (w - 0 + bw - 1) bw Hbw) as Hmod.
    fold n in Hdm. nia. }
  rewrite blocks_cover; [|assumption|].
  - destruct (Z.le_gt_cases n 0) as [Hle|Hgt].
    + replace (Z.to_nat n) with 0%nat by lia.
      rewrite !py_range_empty; [reflexivity|nia|lia].
    + rewrite Z2Nat.id by lia. f_equal. nia.
  - intros Hk. rewrite Z2Nat.id by lia. nia.
Qed.

Section FurtherDecode.
Context {float : Type} {F : PyFloat float} {Mem : PyMemory}.
Local Abbreviation descriptor := (@descriptor float) (only parsing).
Local Abbreviation lerc := (@lerc float) (only parsing).
Local Abbreviation num := (@num float) (only parsing).

(** ** decode: blobs that the header parser rejects *)

(** For a blob that fails a check of the header, [decode] raises nothing
    and reads nothing: it returns the triple of [None] and leaves the
    session as the constructor built it, whatever blob it is given. *)
Theorem rejected_blob_decodes_to_nothing (blob blob' : bytes) :
  ~ header_accepted blob ->
  decode (lerc_init blob) blob' = (lerc_init blob, Ok NoResult).
Proof.
  intros Hrej.
  destruct (valid_is_set blob) as [Hvalid|Hvalid].
  - exfalso. apply Hrej, valid_header_accepted, Hvalid.
  - unfold decode. rewrite Hvalid. reflexivity.
Qed.

(** ** decode_mask: the mask it builds from the run-length region *)

(** When the mask bytes at offset 50 are a region of runs closed by the
    end marker, and the mask descriptor counts them all, [decode_mask]
    returns the mask with the bytes of the runs as its data.  It does not
    compare their number with the size of the image. *)
Theorem decode_mask_region (self : lerc) (m : descriptor) (w h : Z)
        (runs : list rle_run) (pre suf : bytes) :
  lerc_m self = Some m -> lerc_w self = Some w -> lerc_h self = Some h ->
  len pre = 50 ->
  nB m = len (rle_region runs) ->
  Forall run_fits runs ->
  decode_mask self (pre ++ rle_region runs ++ suf)
  = Ok (Bitmask w h (flat_map run_output runs)).
Proof.
  intros Hm Hw Hh Hpre HnB Hfit. unfold decode_mask.
  rewrite Hm, Hw, Hh. cbn [attr rbind].
  assert (Hregion : 2 <= len (rle_region runs)).
  { unfold rle_region. rewrite len_app, len_le_bytes.
    pose proof (len_nonneg (flat_map run_bytes runs)). lia. }
  replace (0 =? nB m) with false by (symmetry; apply Z.eqb_neq; lia).
  rewrite HnB, <- Hpre.
  change (decode_RLE ?b ?o ?s) with (rle_finish b (RleState o s [])).
  rewrite rle_region_decodes by assumption. reflexivity.
Qed.

(** ** read_block and read_qval: headers that are refused *)

(** A flag byte whose low six bits are 4 or more fails the assertion:
    [read_block] raises [AssertionError] before it writes anything. *)
Theorem read_block_unknown_mode (rx ry : list Z) (mask : bitmask)
        (Q max_val : float) (blob : bytes) (offset : Z) (data : list float)
        (flags : Z) :
  unpack_B blob offset = Ok flags ->
  4 <= Z.land flags 63 ->
  read_block rx ry mask Q max_val blob offset data
  = (data, Raise AssertionError).
Proof.
  intros Hflags Hmode. unfold read_block, mbind, mlift. rewrite Hflags.
  replace (Z.land flags 63 <? 4) with false
    by (symmetry; apply Z.ltb_ge; assumption).
  reflexivity.
Qed.

(** A flag byte that announces a minimum (modes 1 and 3) in format 3
    indexes past the three formats of the minimum: [read_block] raises
    [IndexError] before it writes anything. *)
Theorem read_block_bad_min_format (rx ry : list Z) (mask : bitmask)
        (Q max_val : float) (blob : bytes) (offset : Z) (data : list float)
        (flags : Z) :
  unpack_B blob offset = Ok flags ->
  Z.land flags 63 = 1 \/ Z.land flags 63 = 3 ->
  Z.shiftr flags 6 = 3 ->
  read_block rx ry mask Q max_val blob offset data
  = (data, Raise IndexError).
Proof.
  intros Hflags Hmode Hsel. unfold read_block, mbind, mlift.
  rewrite Hflags, Hsel. destruct Hmode as [-> | ->]; reflexivity.
Qed.

(** A quantized block whose packed integers have no bits per value has
    no sequence to iterate over: [read_qval] returns [None] and
    [read_block] raises [TypeError] before it writes anything, whether or
    not the block has a valid cell. *)
Theorem quantized_block_without_bits (rx ry : list Z) (mask : bitmask)
        (Q max_val : float) (blob : bytes) (offset : Z) (data : list float)
        (flags : Z) (mval : num) (off header : Z) :
  unpack_B blob offset = Ok flags ->
  Z.land flags 63 = 1 ->
  read_mval 1 (Z.shiftr flags 6) blob (offset + 1) = Ok (mval, off) ->
  unpack_B blob off = Ok header ->
  Z.land header 63 = 0 ->
  read_block rx ry mask Q max_val blob offset data = (data, Raise TypeError).
Proof.
  intros Hflags Hmode Hmval Hhdr Hbits.
  unfold read_block, mbind, mlift. rewrite Hflags, Hmode.
  change (1 <? 4) with true. change (1 =? 0) with false.
  change (negb (0 =? Z.land 1 2)) with false. cbn [py_assert].
  rewrite Hmval. unfold read_qval. rewrite Hhdr. cbn [rbind].
  rewrite Hbits. reflexivity.
Qed.

(** ** read_tiles: an image of one constant block *)

Lemma elem_of_py_range a b x : x ∈ py_range a b <-> a <= x < b.
Proof.
  unfold py_range. change (map ?f ?l) with (f <$> l).
  rewrite list_elem_of_fmap. split.
  - intros (i & -> & Hi). apply elem_of_seq in Hi. lia.
  - intros Hx. exists (Z.to_nat (x - a)). split; [lia|].
    apply elem_of_seq. lia.
Qed.

Lemma py_range_step_single w : 0 < w -> py_range_step 0 w w = Ok [0].
Proof.
  intros Hw. unfold py_range_step.
  replace (w =? 0) with false by (symmetry; apply Z.eqb_neq; lia).
  replace (0 <? w) with true by (symmetry; apply Z.ltb_lt; lia).
  replace ((w - 0 + w - 1) / w) with 1
    by (apply (Z.div_unique _ _ _ (w - 1)); lia).
  reflexivity.
Qed.

Lemma read_block_constant rx ry mask (Q max_val : float) blob offset
      (data data' : list float) flags (mval : num) offset' :
  unpack_B blob offset = Ok flags ->
  Z.land flags 63 = 2 \/ Z.land flags 63 = 3 ->
  read_mval (Z.land flags 63) (Z.shiftr flags 6) blob (offset + 1)
    = Ok (mval, offset') ->
  const_loop mask mval (dloop rx ry) data = (data', Ok tt) ->
  read_block rx ry mask Q max_val blob offset data = (data', Ok offset').
Proof.
  intros Hflags Hmode Hmval Hrun.
  unfold read_block, mbind, mlift. rewrite Hflags.
  set (mode := Z.land flags 63) in *.
  assert (Hlt : (mode <? 4) = true) by (apply Z.ltb_lt; lia).
  rewrite Hlt. cbn [py_assert].
  assert (Hnz : (mode =? 0) = false) by (apply Z.eqb_neq; lia).
  rewrite Hnz, Hmval.
  assert (Hbit : negb (0 =? Z.land mode 2) = true)
    by (destruct Hmode as [-> | ->]; reflexivity).
  rewrite Hbit, Hrun. reflexivity.
Qed.

(** An image stored as one block (one block row, one block column) of a
    constant mode, with a sample array that the machine can hold:
    [read_tiles] returns height times width samples, all equal to the
    minimum of the block (0.0 in mode 2), whatever the mask holds and
    whatever follows the block in the blob. *)
Theorem single_constant_block (self : lerc) (blob : bytes) (h w : Z)
        (u : float) (v m : descriptor) (mask : bitmask)
        (flags : Z) (mval : num) (off : Z) :
  lerc_h self = Some h -> lerc_w self = Some w -> lerc_u self = Some u ->
  lerc_v self = Some v -> lerc_m self = Some m ->
  lerc_mask self = Some mask ->
  0 < h -> 0 < w -> h * w <= max_items -> bm_w mask = w ->
  nbY v = 1 -> nbX v = 1 ->
  unpack_B blob (66 + nB m) = Ok flags ->
  Z.land flags 63 = 2 \/ Z.land flags 63 = 3 ->
  read_mval (Z.land flags 63) (Z.shiftr flags 6) blob (66 + nB m + 1)
    = Ok (mval, off) ->
  read_tiles self blob
  = Ok (replicate (Z.to_nat (h * w)) (store_f32 (as_float mval))).
Proof.
  intros Hh Hw Hu Hv Hm Hmask Hhpos Hwpos Hfits Hbw HnbY HnbX
         Hflags Hmode Hmval.
  unfold read_tiles. rewrite Hh, Hw, Hv, Hm. cbn [attr rbind].
  rewrite HnbY, HnbX. unfold py_floordiv. cbn [Z.eqb rbind].
  assert (Hrow : w <= max_items) by nia.
  assert (Hall : w * h <= max_items) by (rewrite Z.mul_comm; exact Hfits).
  destruct (sample_array_fits w h ltac:(lia) ltac:(lia) Hrow Hall)
    as (row & cells & Hr & Hc & Ha & Hcells).
  rewrite Hr. cbn [rbind]. rewrite Hc. cbn [rbind]. rewrite Ha. cbn [rbind].
  rewrite !Z.div_1_r, !py_range_step_single by assumption. cbn [rbind].
  set (result := map store_f32 cells).
  assert (Hlen : length result = Z.to_nat (h * w)).
  { unfold result. rewrite length_map, Hcells.
    rewrite Z2Nat.inj_mul by lia. lia. }
  change (dloop [0] [0]) with [(0, 0)]. cbn [tiles_loop]. cbv zeta.
  unfold mbind at 1, mlift at 1. rewrite Hmask. cbn [attr].
  unfold mbind at 1, mlift at 1. rewrite Hu. cbn [attr].
  unfold mbind at 1, mlift at 1. rewrite Hv. cbn [attr].
  replace (0 + Z.min w (w - 0)) with w by lia.
  replace (0 + Z.min h (h - 0)) with h by lia.
  destruct (const_loop_fills mask mval (dloop (py_range 0 w) (py_range 0 h))
              result)
    as (data' & Hrun & Hlen' & _ & Hfill).
  { intros x y Hin. apply elem_of_dloop in Hin as [Hx Hy].
    apply elem_of_py_range in Hx, Hy. unfold len. rewrite Hlen, Hbw. nia. }
  unfold mbind at 1.
  rewrite (read_block_constant _ _ _ _ _ _ _ _ data' flags mval off
             Hflags Hmode Hmval Hrun).
  unfold mret. f_equal.
  apply list_eq. intros i.
  destruct (decide (i < Z.to_nat (h * w))%nat) as [Hi|Hi].
  - rewrite lookup_replicate_2 by assumption.
    set (x := Z.of_nat i mod w). set (y := Z.of_nat i / w).
    pose proof (Z.mod_pos_bound (Z.of_nat i) w Hwpos) as Hx.
    pose proof (Z.div_mod (Z.of_nat i) w ltac:(lia)) as Hdm.
    fold x y in Hx, Hdm.
    assert (Hy : 0 <= y < h) by (subst y; split;
      [apply Z.div_pos; lia|apply Z.div_lt_upper_bound; lia]).
    specialize (Hfill x y). rewrite Hbw in Hfill.
    replace (y * w + x) with (Z.of_nat i) in Hfill by lia.
    unfold py_getitem, py_index in Hfill. rewrite Hlen', Hlen in Hfill.
    replace (Z.of_nat i <? 0) with false in Hfill
      by (symmetry; apply Z.ltb_ge; lia).
    replace ((Z.of_nat i <? 0) || (Z.of_nat (Z.to_nat (h * w)) <=? Z.of_nat i))
      with false in Hfill
      by (symmetry; apply orb_false_intro;
          [apply Z.ltb_ge|apply Z.leb_gt]; lia).
    cbn [rbind] in Hfill. rewrite Nat2Z.id in Hfill.
    assert (Hin : (x, y) ∈ dloop (py_range 0 w) (py_range 0 h))
      by (apply elem_of_dloop; split; apply elem_of_py_range; lia).
    specialize (Hfill Hin).
    destruct (data' !! i) as [s|] eqn:Hs; [|discriminate Hfill].
    injection Hfill as ->. reflexivity.
  - transitivity (@None float).
    + apply lookup_ge_None. lia.
    + symmetry. apply lookup_replicate_None. lia.
Qed.

End FurtherDecode.

(** A header byte of [read_qval] with bits per value and the count format
    3 indexes past the three formats: [IndexError]. *)
Theorem read_qval_bad_selector (blob : bytes) (offset header : Z) :
  unpack_B blob offset = Ok header ->
  Z.land header 63 <> 0 ->
  Z.shiftr header 6 = 3 ->
  read_qval blob offset = Raise IndexError.
Proof.
  intros Hhdr Hn Hsel. unfold read_qval. rewrite Hhdr. cbn [rbind].
  apply Z.eqb_neq in Hn. rewrite Hn, Hsel. reflexivity.
Qed.

(** * IEEE 754 rounding

    The standard library gives the operations of [SpecFloat] without
    their properties.  This part proves what the clamp of the quantized
    mode needs: [binary_round] returns a float of the format whose value
    is the value it was given shifted to the exponent of the format and
    rounded to one of its two neighbours there, comparison on floats of a
    format is comparison of their values, and so narrowing to binary32
    keeps a value on its side of a binary32 bound. *)

Lemma digits2_pos_bounds m :
  2 ^ (Zpos (digits2_pos m) - 1) <= Zpos m < 2 ^ Zpos (digits2_pos m).
Proof.
  induction m as [p IH|p IH|]; cbn [digits2_pos];
    rewrite ?Pos2Z.inj_succ.
  - rewrite (Pos2Z.inj_xI p).
    replace (Z.succ (Zpos (digits2_pos p)) - 1)
      with (Z.succ (Zpos (digits2_pos p) - 1)) by lia.
    rewrite !Z.pow_succ_r by lia. lia.
  - rewrite (Pos2Z.inj_xO p).
    replace (Z.succ (Zpos (digits2_pos p)) - 1)
      with (Z.succ (Zpos (digits2_pos p) - 1)) by lia.
    rewrite !Z.pow_succ_r by lia. lia.
  - cbn. lia.
Qed.

Lemma digits2_pos_unique m d :
  2 ^ (d - 1) <= Zpos m < 2 ^ d -> Zpos (digits2_pos m) = d.
Proof.
  intros [Hlo Hhi]. pose proof (digits2_pos_bounds m) as [Hlo' Hhi'].
  destruct (Z.lt_trichotomy (Zpos (digits2_pos m)) d) as [Hlt|[Heq|Hgt]];
    [|assumption|].
  - assert (2 ^ Zpos (digits2_pos m) <= 2 ^ (d - 1))
      by (apply Z.pow_le_mono_r; lia). lia.
  - assert (2 ^ d <= 2 ^ (Zpos (digits2_pos m) - 1))
      by (apply Z.pow_le_mono_r; lia). lia.
Qed.

(** The digits of a mantissa shifted to the left. *)
Lemma digits2_pos_shift m (mz : positive) k :
  0 <= k -> Zpos mz = Zpos m * 2 ^ k ->
  Zpos (digits2_pos mz) = Zpos (digits2_pos m) + k.
Proof.
  intros Hk Hmz. apply digits2_pos_unique. rewrite Hmz.
  pose proof (digits2_pos_bounds m) as [Hlo Hhi].
  replace (Zpos (digits2_pos m) + k - 1)
    with (Zpos (digits2_pos m) - 1 + k) by lia.
  rewrite !Z.pow_add_r by lia.
  assert (0 < 2 ^ k) by (apply Z.pow_pos_nonneg; lia). nia.
Qed.

(** ** Shifts *)

Lemma iter_pos_iter {A} (f : A -> A) (p : positive) : forall x : A,
  SpecFloat.iter_pos f p x = Pos.iter f x p.
Proof.
  induction p as [p IH|p IH|]; intros x; cbn [SpecFloat.iter_pos Pos.iter].
  - rewrite !IH, <- !Pos.iter_swap. reflexivity.
  - rewrite !IH. reflexivity.
  - reflexivity.
Qed.

Lemma shr_1_spec m r s :
  0 <= m -> shr_1 (Build_shr_record m r s)
            = Build_shr_record (m / 2) (Z.odd m) (r || s).
Proof.
  intros Hm. destruct m as [|[p|p|]|p]; try lia; cbn [shr_1 Z.odd].
  - reflexivity.
  - rewrite (Pos2Z.inj_xI p).
    replace ((2 * Zpos p + 1) / 2) with (Zpos p)
      by (apply (Z.div_unique _ _ _ 1); lia).
    reflexivity.
  - rewrite (Pos2Z.inj_xO p).
    replace (2 * Zpos p / 2) with (Zpos p)
      by (apply (Z.div_unique _ _ _ 0); lia).
    reflexivity.
  - reflexivity.
Qed.

(** After [p] shifts of an exact record: the quotient, and no round or
    sticky bit when the shift loses nothing. *)
Lemma shr_iter_spec m p :
  0 <= m ->
  let mrs := Pos.iter shr_1 (Build_shr_record m false false) p in
  shr_m mrs = m / 2 ^ Zpos p /\
  (m mod 2 ^ Zpos p = 0 -> shr_r mrs = false /\ shr_s mrs = false).
Proof.
  intros Hm. cbn zeta.
  induction p as [|p IH] using Pos.peano_ind.
  - cbn [Pos.iter]. rewrite shr_1_spec by assumption. cbn [shr_m shr_r shr_s].
    change (2 ^ 1) with 2. split; [reflexivity|].
    intros Hmod. split; [|reflexivity].
    destruct (Z.odd m) eqn:E; [|reflexivity].
    apply Z.odd_spec in E as [k ->]. exfalso.
    revert Hmod. clear. intros Hmod. Z.div_mod_to_equations. lia.
  - rewrite Pos.iter_succ, Pos2Z.inj_succ.
    destruct (Pos.iter shr_1 (Build_shr_record m false false) p)
      as [mp rp sp].
    cbn [shr_m shr_r shr_s] in IH. destruct IH as [-> IH].
    assert (Hpow : 0 < 2 ^ Zpos p) by (apply Z.pow_pos_nonneg; lia).
    rewrite shr_1_spec by (apply Z.div_pos; lia).
    cbn [shr_m shr_r shr_s]. rewrite Z.pow_succ_r by lia.
    split.
    + rewrite Z.div_div by lia. f_equal. lia.
    + intros Hmod. apply Z.mod_divide in Hmod as [c Hc]; [|lia].
      assert (Hm' : m = c * 2 * 2 ^ Zpos p) by lia.
      assert (Hmodp : m mod 2 ^ Zpos p = 0)
        by (rewrite Hm'; apply Z.mod_mul; lia).
      destruct (IH Hmodp) as [-> ->].
      split; [|reflexivity].
      rewrite Hm', Z.div_mul by lia. rewrite Z.odd_mul. cbn [Z.odd].
      apply andb_false_r.
Qed.

Lemma round_nearest_even_bounds q l :
  q <= round_nearest_even q l <= q + 1 /\
  (l = loc_Exact -> round_nearest_even q l = q).
Proof.
  unfold round_nearest_even.
  destruct l as [|[| |]]; try destruct (Z.even q); split; try lia;
    try discriminate; reflexivity.
Qed.

Lemma shl_iter_spec m d : Zpos (Pos.iter xO m d) = Zpos m * 2 ^ Zpos d.
Proof.
  induction d as [|d IH] using Pos.peano_ind.
  - cbn [Pos.iter]. rewrite (Pos2Z.inj_xO m). change (2 ^ 1) with 2. lia.
  - rewrite Pos.iter_succ, (Pos2Z.inj_xO (Pos.iter xO m d)), IH.
    rewrite Pos2Z.inj_succ, Z.pow_succ_r by lia. lia.
Qed.

Lemma shl_align_spec m e et :
  exists mz,
    shl_align m e et = (mz, Z.min e et) /\
    Zpos mz = Zpos m * 2 ^ (e - Z.min e et).
Proof.
  unfold shl_align. destruct (et - e) as [|p|p] eqn:E.
  - exists m. replace (Z.min e et) with e by lia.
    rewrite Z.sub_diag. split; [reflexivity|]. cbn. lia.
  - exists m. replace (Z.min e et) with e by lia.
    rewrite Z.sub_diag. split; [reflexivity|]. cbn. lia.
  - exists (Pos.iter xO m p). replace (Z.min e et) with et by lia.
    split; [reflexivity|]. rewrite shl_iter_spec. f_equal. f_equal. lia.
Qed.

Section Rounding.
Variables prec emax : Z.
Hypothesis Hprec : 0 < prec.

Local Abbreviation fexp := (SpecFloat.fexp prec emax).
Local Abbreviation emin := (SpecFloat.emin prec emax).
Local Abbreviation dig m := (Zpos (digits2_pos m)).

Lemma fexp_eq e : fexp e = Z.max (e - prec) emin.
Proof. reflexivity. Qed.

Lemma canonical_mantissa_eq m e :
  canonical_mantissa prec emax m e = true <-> fexp (dig m + e) = e.
Proof. unfold canonical_mantissa. apply Z.eqb_eq. Qed.

(** What a canonical mantissa looks like: at most [prec] digits, exactly
    [prec] above the least exponent. *)
Lemma canonical_digits m e :
  canonical_mantissa prec emax m e = true ->
  emin <= e /\ dig m <= prec /\ (emin < e -> dig m = prec).
Proof. rewrite canonical_mantissa_eq, fexp_eq. lia. Qed.

Lemma shr_fexp_spec m e :
  0 <= m ->
  let k := Z.max 0 (fexp (Zdigits2 m + e) - e) in
  exists mrs,
    shr_fexp prec emax m e loc_Exact = (mrs, e + k) /\
    shr_m mrs = m / 2 ^ k /\
    (m mod 2 ^ k = 0 -> loc_of_shr_record mrs = loc_Exact).
Proof.
  intros Hm. cbn zeta. unfold shr_fexp, shr. cbn [shr_record_of_loc].
  destruct (fexp (Zdigits2 m + e) - e) as [|p|p] eqn:E.
  - exists (Build_shr_record m false false). cbn [Z.max Z.compare].
    rewrite Z.add_0_r. cbn [shr_m]. rewrite Z.pow_0_r, Z.div_1_r. auto.
  - rewrite iter_pos_iter.
    destruct (shr_iter_spec m p Hm) as [Hq Hexact].
    exists (Pos.iter shr_1 (Build_shr_record m false false) p).
    replace (Z.max 0 (Zpos p)) with (Zpos p) by lia.
    split; [reflexivity|]. split; [exact Hq|].
    intros Hmod. destruct (Hexact Hmod) as [Hr Hs].
    destruct (Pos.iter shr_1 (Build_shr_record m false false) p)
      as [mp rp sp].
    cbn [shr_r shr_s] in Hr, Hs. subst. reflexivity.
  - exists (Build_shr_record m false false).
    replace (Z.max 0 (Zneg p)) with 0 by lia.
    rewrite Z.add_0_r. cbn [shr_m]. rewrite Z.pow_0_r, Z.div_1_r. auto.
Qed.

(** The second shift of [binary_round_aux]: a rounded mantissa of at most
    [prec] digits, or 2 ^ prec, becomes canonical without loss. *)
Lemma normalize_spec mr et :
  emin <= et -> 0 < mr <= 2 ^ prec -> (emin < et -> 2 ^ (prec - 1) <= mr) ->
  exists mrs m' e',
    shr_fexp prec emax mr et loc_Exact = (mrs, e') /\
    shr_m mrs = Zpos m' /\
    Zpos m' * 2 ^ (e' - et) = mr /\ et <= e' /\
    canonical_mantissa prec emax m' e' = true.
Proof.
  intros Het Hmr Hnormal.
  destruct mr as [|pr|pr]; try lia.
  destruct (shr_fexp_spec (Zpos pr) et ltac:(lia)) as (mrs & Heq & Hm & _).
  cbn [Zdigits2] in Heq, Hm.
  pose proof (digits2_pos_bounds pr) as [Hlo Hhi].
  destruct (Z.eq_dec (Zpos pr) (2 ^ prec)) as [Htop|Htop].
  - (* the mantissa overflowed to 2 ^ prec: one more shift *)
    assert (Hd : dig pr = prec + 1).
    { apply digits2_pos_unique. rewrite Htop.
      replace (prec + 1 - 1) with prec by lia.
      split; [lia|]. apply Z.pow_lt_mono_r; lia. }
    rewrite Hd, fexp_eq in Heq, Hm.
    replace (Z.max 0 (Z.max (prec + 1 + et - prec) emin - et)) with 1
      in Heq, Hm by lia.
    assert (Hp2 : 2 ^ prec = 2 * 2 ^ (prec - 1))
      by (rewrite <- Z.pow_succ_r by lia; f_equal; lia).
    assert (Hhalf : Zpos pr / 2 ^ 1 = 2 ^ (prec - 1)).
    { rewrite Htop, Hp2. change (2 ^ 1) with 2.
      symmetry. apply (Z.div_unique _ _ _ 0); lia. }
    assert (Hpos : 0 < 2 ^ (prec - 1)) by (apply Z.pow_pos_nonneg; lia).
    destruct (2 ^ (prec - 1)) as [|m'|m'] eqn:Em'; try lia.
    exists mrs, m', (et + 1).
    split; [exact Heq|]. split; [rewrite Hm; exact Hhalf|].
    split; [|split; [lia|]].
    + replace (et + 1 - et) with 1 by lia. change (2 ^ 1) with 2.
      rewrite Htop, Hp2. lia.
    + apply canonical_mantissa_eq.
      assert (Hd' : dig m' = prec).
      { apply digits2_pos_unique. rewrite <- Em'.
        split; [lia|]. apply Z.pow_lt_mono_r; lia. }
      rewrite Hd', fexp_eq. lia.
  - (* at most [prec] digits: nothing to do *)
    assert (Hd : dig pr <= prec).
    { destruct (Z.le_gt_cases (dig pr) prec) as [H|H]; [exact H|].
      assert (2 ^ prec <= 2 ^ (dig pr - 1))
        by (apply Z.pow_le_mono_r; lia). lia. }
    rewrite fexp_eq in Heq, Hm.
    replace (Z.max 0 (Z.max (dig pr + et - prec) emin - et)) with 0
      in Heq, Hm by lia.
    rewrite Z.add_0_r in Heq. rewrite Z.pow_0_r, Z.div_1_r in Hm.
    exists mrs, pr, et.
    split; [exact Heq|]. split; [exact Hm|].
    rewrite Z.sub_diag, Z.pow_0_r. split; [lia|]. split; [lia|].
    apply canonical_mantissa_eq. rewrite fexp_eq.
    destruct (Z.eq_dec et emin) as [->|Hne]; [lia|].
    assert (Hn : 2 ^ (prec - 1) <= Zpos pr) by (apply Hnormal; lia).
    assert (Hd' : dig pr = prec).
    { apply digits2_pos_unique. lia. }
    lia.
Qed.

(** [binary_round_aux] on an exact mantissa whose exponent is not above
    the exponent that the format gives it: the rounded mantissa [mr] at
    that exponent is the quotient of the shift or its successor, the
    quotient itself when the shift loses nothing, and the result is a zero
    when [mr] is 0 and else a canonical mantissa of the same value,
    replaced by an infinity when its exponent is too large. *)
Lemma binary_round_aux_spec s m0 e0 :
  e0 <= fexp (dig m0 + e0) ->
  let et := fexp (dig m0 + e0) in
  let q := Zpos m0 / 2 ^ (et - e0) in
  exists mr,
    q <= mr <= q + 1 /\
    (Zpos m0 mod 2 ^ (et - e0) = 0 -> mr = q) /\
    ((mr = 0 /\
      binary_round_aux prec emax s (Zpos m0) e0 loc_Exact = S754_zero s) \/
     (exists m' e',
        Zpos m' * 2 ^ (e' - et) = mr /\ et <= e' /\
        canonical_mantissa prec emax m' e' = true /\
        binary_round_aux prec emax s (Zpos m0) e0 loc_Exact
        = if e' <=? emax - prec then S754_finite s m' e'
          else S754_infinity s)).
Proof.
  intros Halign. cbn zeta.
  set (et := fexp (dig m0 + e0)) in *. set (k := et - e0).
  assert (Hk : 0 <= k) by (unfold k; lia).
  assert (Hpk : 0 < 2 ^ k) by (apply Z.pow_pos_nonneg; lia).
  unfold binary_round_aux.
  destruct (shr_fexp_spec (Zpos m0) e0 ltac:(lia)) as (mrs & Heq & Hm & Hex).
  cbn [Zdigits2] in Heq, Hm, Hex. fold et in Heq, Hm, Hex.
  replace (Z.max 0 (et - e0)) with k in Heq, Hm, Hex by (unfold k; lia).
  replace (e0 + k) with et in Heq by (unfold k; lia).
  rewrite Heq.
  destruct (round_nearest_even_bounds (shr_m mrs) (loc_of_shr_record mrs))
    as [Hbounds Hexact].
  set (mr := round_nearest_even (shr_m mrs) (loc_of_shr_record mrs)) in *.
  rewrite Hm in Hbounds, Hexact.
  assert (Hq0 : 0 <= Zpos m0 / 2 ^ k) by (apply Z.div_pos; lia).
  pose proof (digits2_pos_bounds m0) as [Hlo Hhi].
  assert (Het : emin <= et) by (unfold et; rewrite fexp_eq; lia).
  exists mr. split; [exact Hbounds|]. split; [intros H; auto|].
  destruct (Z.eq_dec mr 0) as [Hz|Hnz].
  - left. split; [exact Hz|]. rewrite Hz.
    destruct (shr_fexp_spec 0 et ltac:(lia)) as (mrs2 & Heq2 & Hm2 & _).
    rewrite Heq2, Hm2. cbn [Z.div]. reflexivity.
  - right.
    assert (Hqtop : Zpos m0 / 2 ^ k < 2 ^ prec).
    { apply Z.div_lt_upper_bound; [lia|].
      rewrite <- Z.pow_add_r by lia.
      assert (2 ^ dig m0 <= 2 ^ (k + prec))
        by (apply Z.pow_le_mono_r; [lia|];
            unfold k, et; rewrite fexp_eq; lia).
      lia. }
    assert (Hqlow : emin < et -> 2 ^ (prec - 1) <= Zpos m0 / 2 ^ k).
    { intros Hn. apply Z.div_le_lower_bound; [lia|].
      rewrite <- Z.pow_add_r by lia.
      replace (k + (prec - 1)) with (dig m0 - 1)
        by (unfold k, et in *; rewrite fexp_eq in *; lia).
      exact Hlo. }
    destruct (normalize_spec mr et Het ltac:(lia) ltac:(lia))
      as (mrs2 & m' & e' & Heq2 & Hm2 & Hval & Hle & Hcan).
    rewrite Heq2, Hm2. exists m', e'. auto.
Qed.

(** [binary_round] on any mantissa and exponent. *)
Lemma binary_round_spec s m e :
  let et := fexp (dig m + e) in
  exists mr,
    (et <= e -> mr = Zpos m * 2 ^ (e - et)) /\
    (e < et ->
       Zpos m / 2 ^ (et - e) <= mr <= Zpos m / 2 ^ (et - e) + 1 /\
       (Zpos m mod 2 ^ (et - e) = 0 -> mr = Zpos m / 2 ^ (et - e))) /\
    ((mr = 0 /\ binary_round prec emax s m e = S754_zero s) \/
     (exists m' e',
        Zpos m' * 2 ^ (e' - et) = mr /\ et <= e' /\
        canonical_mantissa prec emax m' e' = true /\
        binary_round prec emax s m e
        = if e' <=? emax - prec then S754_finite s m' e'
          else S754_infinity s)).
Proof.
  cbn zeta. set (et := fexp (dig m + e)).
  unfold binary_round. fold et.
  destruct (shl_align_spec m e et) as (mz & Heq & Hmz). rewrite Heq.
  assert (Hdz : dig mz + Z.min e et = dig m + e).
  { rewrite (digits2_pos_shift m mz (e - Z.min e et)) by (lia || exact Hmz).
    lia. }
  assert (Halign : Z.min e et <= fexp (dig mz + Z.min e et))
    by (rewrite Hdz; fold et; lia).
  destruct (binary_round_aux_spec s mz (Z.min e et) Halign)
    as (mr & Hbounds & Hexact & Hres).
  rewrite Hdz in Hbounds, Hexact, Hres. fold et in Hbounds, Hexact, Hres.
  exists mr. split; [|split; [|exact Hres]].
  - intros Hle. replace (Z.min e et) with et in * by lia.
    rewrite Z.sub_diag, Z.pow_0_r, Z.div_1_r in Hbounds, Hexact.
    rewrite <- Hmz. apply Hexact. apply Z.mod_1_r.
  - intros Hlt. replace (Z.min e et) with e in * by lia.
    rewrite Z.sub_diag, Z.pow_0_r, Z.mul_1_r in Hmz. rewrite Hmz in *.
    auto.
Qed.

(** What [binary_round] returns is a float of the format. *)
Lemma binary_round_valid s m e :
  valid_binary prec emax (binary_round prec emax s m e) = true.
Proof.
  destruct (binary_round_spec s m e) as (mr & _ & _ & [[_ ->]|Hres]);
    [reflexivity|].
  destruct Hres as (m' & e' & _ & _ & Hcan & ->).
  destruct (e' <=? emax - prec) eqn:E; [|reflexivity].
  cbn [valid_binary]. unfold bounded. rewrite Hcan, E. reflexivity.
Qed.

(** ** Comparison

    On canonical mantissas the comparison of [SFcompare], exponents first,
    is the comparison of the values.  The values are scaled by 2 ^ o, for
    an [o] that makes every exponent at hand non-negative. *)
Lemma canonical_compare o m1 e1 m2 e2 :
  canonical_mantissa prec emax m1 e1 = true ->
  canonical_mantissa prec emax m2 e2 = true ->
  0 <= e1 + o -> 0 <= e2 + o ->
  match e1 ?= e2 with
  | Lt => Lt
  | Gt => Gt
  | Eq => Pos.compare_cont Eq m1 m2
  end = (Zpos m1 * 2 ^ (e1 + o) ?= Zpos m2 * 2 ^ (e2 + o)).
Proof.
  intros H1 H2 Ho1 Ho2.
  apply canonical_digits in H1 as (Hmin1 & Hd1 & Hn1).
  apply canonical_digits in H2 as (Hmin2 & Hd2 & Hn2).
  pose proof (digits2_pos_bounds m1) as [Hlo1 Hhi1].
  pose proof (digits2_pos_bounds m2) as [Hlo2 Hhi2].
  assert (Hless : forall ma ea mb eb,
            dig ma <= prec -> dig mb = prec -> ea < eb ->
            0 <= ea + o -> 0 <= eb + o ->
            Zpos ma * 2 ^ (ea + o) < Zpos mb * 2 ^ (eb + o)).
  { intros ma ea mb eb Hda Hdb Hlt Hoa Hob.
    pose proof (digits2_pos_bounds ma) as [_ Hhia].
    pose proof (digits2_pos_bounds mb) as [Hlob _]. rewrite Hdb in Hlob.
    assert (Ha : 2 ^ dig ma <= 2 ^ prec) by (apply Z.pow_le_mono_r; lia).
    assert (Hpa : 0 < 2 ^ (ea + o)) by (apply Z.pow_pos_nonneg; lia).
    assert (Hpb : 0 < 2 ^ (eb + o)) by (apply Z.pow_pos_nonneg; lia).
    assert (Hstep : 2 ^ prec * 2 ^ (ea + o) <= 2 ^ (prec - 1) * 2 ^ (eb + o)).
    { rewrite <- !Z.pow_add_r by lia. apply Z.pow_le_mono_r; lia. }
    nia. }
  destruct (Z.compare_spec e1 e2) as [->|Hlt|Hgt].
  - change (Pos.compare_cont Eq m1 m2) with (Zpos m1 ?= Zpos m2).
    assert (Hp : 0 < 2 ^ (e2 + o)) by (apply Z.pow_pos_nonneg; lia).
    destruct (Z.compare_spec (Zpos m1) (Zpos m2)) as [H|H|H]; symmetry.
    + apply Z.compare_eq_iff. rewrite H. reflexivity.
    + apply Z.compare_lt_iff. nia.
    + apply Z.compare_gt_iff. nia.
  - symmetry. apply Z.compare_lt_iff. apply Hless; lia.
  - symmetry. apply Z.compare_gt_iff. apply Hless; lia.
Qed.

Lemma SFltb_positive o m1 e1 m2 e2 :
  canonical_mantissa prec emax m1 e1 = true ->
  canonical_mantissa prec emax m2 e2 = true ->
  0 <= e1 + o -> 0 <= e2 + o ->
  SFltb (S754_finite false m1 e1) (S754_finite false m2 e2)
  = (Zpos m1 * 2 ^ (e1 + o) <? Zpos m2 * 2 ^ (e2 + o)).
Proof.
  intros H1 H2 Ho1 Ho2. unfold SFltb, SFcompare, Z.ltb.
  rewrite (canonical_compare o) by assumption.
  destruct (_ ?= _); reflexivity.
Qed.

Lemma SFltb_negative o m1 e1 m2 e2 :
  canonical_mantissa prec emax m1 e1 = true ->
  canonical_mantissa prec emax m2 e2 = true ->
  0 <= e1 + o -> 0 <= e2 + o ->
  SFltb (S754_finite true m1 e1) (S754_finite true m2 e2)
  = (Zpos m2 * 2 ^ (e2 + o) <? Zpos m1 * 2 ^ (e1 + o)).
Proof.
  intros H1 H2 Ho1 Ho2. unfold SFltb, SFcompare, Z.ltb.
  rewrite (Z.compare_antisym (Zpos m1 * 2 ^ (e1 + o))).
  rewrite <- (canonical_compare o m1 e1 m2 e2) by assumption.
  destruct (e1 ?= e2); try reflexivity.
  all: destruct (Pos.compare_cont Eq m1 m2); reflexivity.
Qed.

End Rounding.

(** ** Binary32 values as binary64 floats *)

Import IEEE.

Section Narrowing.

(** A binary32 value: a canonical mantissa of the format with an exponent
    in range. *)
Local Abbreviation single m e :=
  (canonical_mantissa 24 128 m e = true /\ e <= 104).
Local Abbreviation double m e :=
  (canonical_mantissa 53 1024 m e = true /\ e <= 971).

(** The value of a finite float, in units of 2 ^ -1074. *)
Local Abbreviation V m e := (Zpos m * 2 ^ (e + 1074)).

Lemma single_range m e :
  single m e -> -149 <= e <= 104 /\ Zpos (digits2_pos m) <= 24.
Proof.
  intros [Hcan Hle]. apply canonical_digits in Hcan as (Hmin & Hd & _).
  change (emin 24 128) with (-149) in Hmin. lia.
Qed.

Lemma double_range m e :
  double m e -> -1074 <= e <= 971 /\ Zpos (digits2_pos m) <= 53.
Proof.
  intros [Hcan Hle]. apply canonical_digits in Hcan as (Hmin & Hd & _).
  change (emin 53 1024) with (-1074) in Hmin. lia.
Qed.

(** A finite float with a canonical mantissa is below 2 to its number of
    digits plus its exponent, and not below half of that. *)
Lemma V_bounds m e :
  -1074 <= e ->
  2 ^ (Zpos (digits2_pos m) - 1 + e + 1074) <= V m e
  < 2 ^ (Zpos (digits2_pos m) + e + 1074).
Proof.
  intros He. pose proof (digits2_pos_bounds m) as [Hlo Hhi].
  assert (Hp : 0 < 2 ^ (e + 1074)) by (apply Z.pow_pos_nonneg; lia).
  replace (Zpos (digits2_pos m) - 1 + e + 1074)
    with (Zpos (digits2_pos m) - 1 + (e + 1074)) by lia.
  replace (Zpos (digits2_pos m) + e + 1074)
    with (Zpos (digits2_pos m) + (e + 1074)) by lia.
  rewrite (Z.pow_add_r 2 (Zpos (digits2_pos m) - 1) (e + 1074)) by lia.
  rewrite (Z.pow_add_r 2 (Zpos (digits2_pos m)) (e + 1074)) by lia.
  nia.
Qed.

(** Rounding a binary32 value to binary64 is exact. *)
Lemma to_double_exact s m e :
  single m e ->
  exists m' e',
    to_double (S754_finite s m e) = S754_finite s m' e' /\
    double m' e' /\ V m' e' = V m e.
Proof.
  intros Hs. destruct (single_range m e Hs) as [He Hd].
  cbn [to_double].
  destruct (binary_round_spec 53 1024 ltac:(lia) s m e)
    as (mr & Hexact & _ & Hres).
  rewrite fexp_eq in Hexact, Hres. change (emin 53 1024) with (-1074) in *.
  set (et := Z.max (Zpos (digits2_pos m) + e - 53) (-1074)) in *.
  assert (Het : et <= e) by (unfold et; lia).
  assert (Het' : -1074 <= et) by (unfold et; lia).
  specialize (Hexact Het).
  assert (Hmr : 0 < mr).
  { rewrite Hexact. apply Z.mul_pos_pos; [lia|].
    apply Z.pow_pos_nonneg; lia. }
  destruct Hres as [[Hz _]|(m' & e' & Hval & Hle & Hcan & ->)]; [lia|].
  assert (HV : V m' e' = V m e).
  { replace (e' + 1074) with ((e' - et) + (et + 1074)) by lia.
    replace (e + 1074) with ((e - et) + (et + 1074)) by lia.
    rewrite (Z.pow_add_r 2 (e' - et) (et + 1074)) by lia.
    rewrite (Z.pow_add_r 2 (e - et) (et + 1074)) by lia.
    rewrite !Z.mul_assoc, Hval, Hexact. reflexivity. }
  assert (Hfit : e' <= 971).
  { destruct (Z.le_gt_cases e' 971) as [H|H]; [exact H|]. exfalso.
    apply canonical_digits in Hcan as (_ & _ & Hn).
    change (emin 53 1024) with (-1074) in Hn.
    pose proof (V_bounds m' e' ltac:(lia)) as [Hlo _].
    pose proof (V_bounds m e ltac:(lia)) as [_ Hhi].
    rewrite Hn in Hlo by lia.
    assert (2 ^ (Zpos (digits2_pos m) + e + 1074) <= 2 ^ (53 - 1 + e' + 1074))
      by (apply Z.pow_le_mono_r; lia).
    lia. }
  exists m', e'.
  replace (e' <=? 1024 - 53) with true by (symmetry; apply Z.leb_le; lia).
  auto.
Qed.

Lemma V_pos m e : -1074 <= e -> 0 < V m e.
Proof.
  intros He. apply Z.mul_pos_pos; [lia|]. apply Z.pow_pos_nonneg; lia.
Qed.

(** The value that [binary_round] leaves, from its rounded mantissa. *)
Lemma rounded_value m' e' mr et :
  Zpos m' * 2 ^ (e' - et) = mr -> et <= e' -> -1074 <= et ->
  V m' e' = mr * 2 ^ (et + 1074).
Proof.
  intros Hval Hle Het.
  replace (e' + 1074) with ((e' - et) + (et + 1074)) by lia.
  rewrite (Z.pow_add_r 2 (e' - et) (et + 1074)) by lia.
  rewrite Z.mul_assoc, Hval. reflexivity.
Qed.

(** A canonical binary32 mantissa with an exponent out of range is at
    least 2 ^ 128. *)
Lemma single_overflow m' e' :
  canonical_mantissa 24 128 m' e' = true -> 104 < e' ->
  2 ^ (128 + 1074) <= V m' e'.
Proof.
  intros Hcan He. apply canonical_digits in Hcan as (_ & _ & Hn).
  change (emin 24 128) with (-149) in Hn.
  pose proof (V_bounds m' e' ltac:(lia)) as [Hlo _].
  rewrite Hn in Hlo by lia.
  assert (2 ^ (128 + 1074) <= 2 ^ (24 - 1 + e' + 1074))
    by (apply Z.pow_le_mono_r; lia).
  lia.
Qed.

Lemma single_below_overflow p eb : single p eb -> V p eb < 2 ^ (128 + 1074).
Proof.
  intros Hs. destruct (single_range p eb Hs) as [He Hd].
  pose proof (V_bounds p eb ltac:(lia)) as [_ Hhi].
  assert (2 ^ (Zpos (digits2_pos p) + eb + 1074) <= 2 ^ (128 + 1074))
    by (apply Z.pow_le_mono_r; lia).
  lia.
Qed.

(** Narrowing does not carry a value above a binary32 value that it is
    not above. *)
Lemma to_single_up s m e p eb :
  -1074 <= e -> single p eb -> V m e <= V p eb ->
  to_single (S754_finite s m e) = S754_zero s \/
  exists m' e',
    to_single (S754_finite s m e) = S754_finite s m' e' /\
    single m' e' /\ V m' e' <= V p eb.
Proof.
  intros He Hs Hv. destruct (single_range p eb Hs) as [Heb Hdp].
  destruct Hs as [Hcanp Hebmax].
  cbn [to_single].
  destruct (binary_round_spec 24 128 ltac:(lia) s m e)
    as (mr & Hexact & Hinexact & Hres).
  rewrite fexp_eq in Hexact, Hinexact, Hres.
  change (emin 24 128) with (-149) in *.
  set (et := Z.max (Zpos (digits2_pos m) + e - 24) (-149)) in *.
  assert (Het : -149 <= et) by (unfold et; lia).
  (* the bound is on the grid of the rounding *)
  assert (Hbinade : Zpos (digits2_pos m) + e <= Zpos (digits2_pos p) + eb).
  { pose proof (V_bounds m e He) as [Hlo _].
    pose proof (V_bounds p eb ltac:(lia)) as [_ Hhi].
    assert (Hlt : 2 ^ (Zpos (digits2_pos m) - 1 + e + 1074)
                  < 2 ^ (Zpos (digits2_pos p) + eb + 1074)) by lia.
    apply Z.pow_lt_mono_r_iff in Hlt; lia. }
  assert (Hgrid : et <= eb).
  { apply canonical_mantissa_eq in Hcanp. rewrite fexp_eq in Hcanp.
    change (emin 24 128) with (-149) in Hcanp. unfold et. lia. }
  set (N := Zpos p * 2 ^ (eb - et)).
  assert (HN : V p eb = N * 2 ^ (et + 1074)).
  { unfold N. rewrite <- Z.mul_assoc, <- Z.pow_add_r by lia.
    f_equal. f_equal. lia. }
  assert (Hpt : 0 < 2 ^ (et + 1074)) by (apply Z.pow_pos_nonneg; lia).
  assert (Hmr : mr <= N).
  { destruct (Z.le_gt_cases et e) as [Hle|Hlt].
    - rewrite (Hexact Hle).
      assert (V m e = Zpos m * 2 ^ (e - et) * 2 ^ (et + 1074)).
      { rewrite <- Z.mul_assoc, <- Z.pow_add_r by lia.
        f_equal. f_equal. lia. }
      nia.
    - destruct (Hinexact Hlt) as [Hb Hex].
      set (k := et - e) in *.
      assert (Hpk : 0 < 2 ^ k) by (apply Z.pow_pos_nonneg; unfold k; lia).
      assert (Hpe : 0 < 2 ^ (e + 1074)) by (apply Z.pow_pos_nonneg; lia).
      assert (Hsplit : 2 ^ (et + 1074) = 2 ^ k * 2 ^ (e + 1074)).
      { rewrite <- Z.pow_add_r by (unfold k; lia). f_equal. unfold k. lia. }
      assert (Hm : Zpos m <= 2 ^ k * N).
      { rewrite HN, Hsplit in Hv. nia. }
      destruct (Z.eq_dec (Zpos m mod 2 ^ k) 0) as [Hz|Hnz].
      + rewrite (Hex Hz). apply Z.div_le_upper_bound; lia.
      + assert (Zpos m <> 2 ^ k * N).
        { intros Heq. apply Hnz. rewrite Heq, Z.mul_comm.
          apply Z.mod_mul. lia. }
        assert (Zpos m / 2 ^ k < N)
          by (apply Z.div_lt_upper_bound; lia).
        lia. }
  destruct Hres as [[_ ->]|(m' & e' & Hval & Hle & Hcan & ->)];
    [left; reflexivity|right].
  pose proof (rounded_value m' e' mr et Hval Hle ltac:(lia)) as HV.
  assert (HVle : V m' e' <= V p eb) by (rewrite HV, HN; nia).
  assert (Hfit : e' <= 104).
  { destruct (Z.le_gt_cases e' 104) as [H|H]; [exact H|]. exfalso.
    pose proof (single_overflow m' e' Hcan H).
    pose proof (single_below_overflow p eb (conj Hcanp Hebmax)). lia. }
  exists m', e'.
  replace (e' <=? 128 - 24) with true by (symmetry; apply Z.leb_le; lia).
  auto.
Qed.

(** Narrowing does not carry a value below a binary32 value that it is
    not below. *)
Lemma to_single_down s m e p eb :
  -1074 <= e -> single p eb -> V p eb <= V m e ->
  to_single (S754_finite s m e) = S754_infinity s \/
  exists m' e',
    to_single (S754_finite s m e) = S754_finite s m' e' /\
    single m' e' /\ V p eb <= V m' e'.
Proof.
  intros He Hs Hv. destruct (single_range p eb Hs) as [Heb Hdp].
  destruct Hs as [Hcanp Hebmax].
  cbn [to_single].
  destruct (binary_round_spec 24 128 ltac:(lia) s m e)
    as (mr & Hexact & Hinexact & Hres).
  rewrite fexp_eq in Hexact, Hinexact, Hres.
  change (emin 24 128) with (-149) in *.
  set (et := Z.max (Zpos (digits2_pos m) + e - 24) (-149)) in *.
  assert (Het : -149 <= et) by (unfold et; lia).
  assert (Hpt : 0 < 2 ^ (et + 1074)) by (apply Z.pow_pos_nonneg; lia).
  assert (Hmr : V p eb <= mr * 2 ^ (et + 1074)).
  { destruct (Z.le_gt_cases et e) as [Hle|Hlt].
    - rewrite (Hexact Hle).
      rewrite <- Z.mul_assoc, <- Z.pow_add_r by lia.
      replace (e - et + (et + 1074)) with (e + 1074) by lia. exact Hv.
    - destruct (Hinexact Hlt) as [Hb _].
      set (k := et - e) in *.
      assert (Hk : 0 < k) by (unfold k; lia).
      assert (Hpk : 0 < 2 ^ k) by (apply Z.pow_pos_nonneg; lia).
      assert (Hpe : 0 < 2 ^ (e + 1074)) by (apply Z.pow_pos_nonneg; lia).
      assert (Hsplit : 2 ^ (et + 1074) = 2 ^ k * 2 ^ (e + 1074)).
      { rewrite <- Z.pow_add_r by lia. f_equal. unfold k. lia. }
      destruct (Z.le_gt_cases et eb) as [Hgrid|Hgrid].
      + (* the bound is on the grid of the rounding *)
        set (N := Zpos p * 2 ^ (eb - et)).
        assert (HN : V p eb = N * 2 ^ (et + 1074)).
        { unfold N. rewrite <- Z.mul_assoc, <- Z.pow_add_r by lia.
          f_equal. f_equal. lia. }
        assert (Hm : 2 ^ k * N <= Zpos m).
        { rewrite HN, Hsplit in Hv. nia. }
        assert (N <= Zpos m / 2 ^ k)
          by (apply Z.div_le_lower_bound; lia).
        rewrite HN. nia.
      + (* the bound is in a binade below *)
        assert (Hetn : et = Zpos (digits2_pos m) + e - 24)
          by (unfold et in *; lia).
        pose proof (digits2_pos_bounds m) as [Hlo _].
        assert (Hq : 2 ^ 23 <= Zpos m / 2 ^ k).
        { apply Z.div_le_lower_bound; [lia|].
          rewrite <- Z.pow_add_r by lia.
          replace (k + 23) with (Zpos (digits2_pos m) - 1)
            by (unfold k; lia).
          exact Hlo. }
        pose proof (V_bounds p eb ltac:(lia)) as [_ Hhi].
        assert (Hstep : 2 ^ (Zpos (digits2_pos p) + eb + 1074)
                        <= 2 ^ 23 * 2 ^ (et + 1074)).
        { rewrite <- Z.pow_add_r by lia. apply Z.pow_le_mono_r; lia. }
        nia. }
  pose proof (V_pos p eb ltac:(lia)) as Hpos.
  destruct Hres as [[Hz _]|(m' & e' & Hval & Hle & Hcan & ->)]; [nia|].
  pose proof (rounded_value m' e' mr et Hval Hle ltac:(lia)) as HV.
  destruct (e' <=? 128 - 24) eqn:E; [right|left; reflexivity].
  apply Z.leb_le in E. exists m', e'.
  split; [reflexivity|]. split; [split; [exact Hcan|lia]|].
  rewrite HV. exact Hmr.
Qed.

(** The bits of a binary32 denote a binary32 value. *)
Lemma of_bits_single bits :
  match of_bits 23 8 bits with
  | S754_finite s m e => single m e
  | _ => True
  end.
Proof.
  unfold of_bits. cbv zeta.
  change (2 ^ 23 - 1) with (Z.ones 23). change (2 ^ 8 - 1) with (Z.ones 8).
  rewrite !Z.land_ones by lia.
  pose proof (Z.mod_pos_bound bits (2 ^ 23) ltac:(lia)) as Hm.
  pose proof (Z.mod_pos_bound (Z.shiftr bits 23) (2 ^ 8) ltac:(lia)) as He.
  set (m := bits mod 2 ^ 23) in *.
  set (e := Z.shiftr bits 23 mod 2 ^ 8) in *.
  change (2 ^ (8 - 1) - 1) with 127. change (Z.ones 8) with 255.
  change (2 ^ 8) with 256 in He.
  destruct (e =? 0) eqn:E0.
  - destruct m as [|p|p] eqn:Em; try exact I.
    change (1 - 127 - 23) with (-149). split; [|lia].
    apply canonical_mantissa_eq. rewrite fexp_eq.
    change (emin 24 128) with (-149).
    pose proof (digits2_pos_bounds p) as [Hlo _].
    assert (Hlt : 2 ^ (Zpos (digits2_pos p) - 1) < 2 ^ 23) by lia.
    apply Z.pow_lt_mono_r_iff in Hlt; lia.
  - apply Z.eqb_neq in E0.
    destruct (e =? 255) eqn:E1; [destruct (m =? 0); exact I|].
    apply Z.eqb_neq in E1.
    destruct (m + 2 ^ 23) as [|p|p] eqn:Ep; try exact I.
    assert (Hd : Zpos (digits2_pos p) = 24).
    { apply digits2_pos_unique. rewrite <- Ep.
      change (2 ^ (24 - 1)) with (2 ^ 23).
      change (2 ^ 24) with (2 ^ 23 + 2 ^ 23). lia. }
    split; [|lia].
    apply canonical_mantissa_eq. rewrite fexp_eq, Hd.
    change (emin 24 128) with (-149). lia.
Qed.

Lemma binary_round_cases prec emax s m e :
  0 < prec ->
  binary_round prec emax s m e = S754_zero s \/
  binary_round prec emax s m e = S754_infinity s \/
  exists m' e', binary_round prec emax s m e = S754_finite s m' e'.
Proof.
  intros Hprec.
  destruct (binary_round_spec prec emax Hprec s m e)
    as (mr & _ & _ & [[_ ->]|(m' & e' & _ & _ & _ & ->)]); [auto|].
  destruct (e' <=? emax - prec); eauto.
Qed.

Lemma narrow_cases s m e :
  to_double (to_single (S754_finite s m e)) = S754_zero s \/
  to_double (to_single (S754_finite s m e)) = S754_infinity s \/
  exists m' e',
    to_double (to_single (S754_finite s m e)) = S754_finite s m' e'.
Proof.
  cbn [to_single].
  destruct (binary_round_cases 24 128 s m e ltac:(lia))
    as [-> | [-> | (m1 & e1 & ->)]]; cbn [to_double]; auto.
  apply binary_round_cases. lia.
Qed.

(** A float of the binary64 format with a canonical mantissa. *)
Lemma valid_double s m e :
  valid_binary 53 1024 (S754_finite s m e) = true -> double m e.
Proof.
  cbn [valid_binary]. unfold bounded. intros H.
  apply andb_true_iff in H as [Hcan Hle]. apply Z.leb_le in Hle.
  change (1024 - 53) with 971 in Hle. auto.
Qed.

(** Narrowing keeps a value on its side of a binary32 bound: when the
    bound is not less than a binary64 value, it is not less than that
    value narrowed to binary32 either. *)
Lemma narrowing_keeps_bound bits y :
  valid_binary 53 1024 y = true ->
  SFltb (to_double (of_bits 23 8 bits)) y = false ->
  SFltb (to_double (of_bits 23 8 bits)) (to_double (to_single y)) = false.
Proof.
  intros Hvalid Hlt.
  destruct y as [sy|sy| |sy m e]; try exact Hlt.
  apply valid_double in Hvalid.
  destruct (double_range m e Hvalid) as [He Hd].
  pose proof (of_bits_single bits) as Hb.
  destruct (of_bits 23 8 bits) as [sb|sb| |sb p eb].
  - (* the bound is a zero *)
    cbn [to_double] in *. destruct sy; [|discriminate Hlt].
    destruct (narrow_cases true m e) as [-> | [-> | (m' & e' & ->)]];
      reflexivity.
  - (* the bound is an infinity *)
    cbn [to_double] in *. destruct sb; [discriminate Hlt|].
    destruct (narrow_cases sy m e) as [-> | [-> | (m' & e' & ->)]];
      destruct sy; reflexivity.
  - reflexivity.
  - (* the bound is finite *)
    destruct (to_double_exact sb p eb Hb) as (mb & eb' & Eb & Hdb & HVb).
    rewrite Eb in Hlt |- *. clear Eb.
    destruct (single_range p eb Hb) as [Heb _].
    destruct (double_range mb eb' Hdb) as [Heb' _].
    destruct Hvalid as [Hcan _]. destruct Hdb as [Hcanb _].
    destruct sb, sy.
    + (* both negative *)
      rewrite (SFltb_negative 53 1024 ltac:(lia) 1074) in Hlt
        by (assumption || lia).
      apply Z.ltb_ge in Hlt. rewrite HVb in Hlt.
      destruct (to_single_down true m e p eb ltac:(lia) Hb Hlt)
        as [-> | (m1 & e1 & -> & Hs1 & HV1)]; [reflexivity|].
      destruct (to_double_exact true m1 e1 Hs1) as (m2 & e2 & -> & Hd2 & HV2).
      destruct (double_range m2 e2 Hd2) as [He2 _]. destruct Hd2 as [Hcan2 _].
      rewrite (SFltb_negative 53 1024 ltac:(lia) 1074) by (assumption || lia).
      apply Z.ltb_ge. lia.
    + (* a negative bound and a positive value *)
      discriminate Hlt.
    + (* a positive bound and a negative value *)
      destruct (narrow_cases true m e) as [-> | [-> | (m' & e' & ->)]];
        reflexivity.
    + (* both positive *)
      rewrite (SFltb_positive 53 1024 ltac:(lia) 1074) in Hlt
        by (assumption || lia).
      apply Z.ltb_ge in Hlt. rewrite HVb in Hlt.
      destruct (to_single_up false m e p eb ltac:(lia) Hb Hlt)
        as [-> | (m1 & e1 & -> & Hs1 & HV1)]; [reflexivity|].
      destruct (to_double_exact false m1 e1 Hs1) as (m2 & e2 & -> & Hd2 & HV2).
      destruct (double_range m2 e2 Hd2) as [He2 _]. destruct Hd2 as [Hcan2 _].
      rewrite (SFltb_positive 53 1024 ltac:(lia) 1074) by (assumption || lia).
      apply Z.ltb_ge. lia.
Qed.

(** ** The floats that the decoder computes with are floats of the format *)

Lemma binary_normalize_valid n :
  valid_binary 53 1024 (binary_normalize 53 1024 n 0 false) = true.
Proof.
  destruct n; cbn [binary_normalize]; [reflexivity| |];
    apply binary_round_valid; lia.
Qed.

(** The float of a nonzero integer has a mantissa of 53 digits. *)
Lemma binary_normalize_normal n :
  match binary_normalize 53 1024 n 0 false with
  | S754_finite _ m _ => Zpos (digits2_pos m) = 53
  | _ => True
  end.
Proof.
  assert (H : forall s p,
            match binary_round 53 1024 s p 0 with
            | S754_finite _ m _ => Zpos (digits2_pos m) = 53
            | _ => True
            end).
  { intros s p.
    destruct (binary_round_spec 53 1024 ltac:(lia) s p 0)
      as (mr & _ & _ & [[_ ->]|(m' & e' & _ & Hle & Hcan & ->)]);
      [exact I|].
    destruct (e' <=? 1024 - 53); [|exact I].
    apply canonical_digits in Hcan as (_ & _ & Hn). apply Hn.
    rewrite fexp_eq in Hle. change (emin 53 1024) with (-1074) in *.
    pose proof (Pos2Z.is_pos (digits2_pos p)). lia. }
  destruct n; cbn [binary_normalize]; [exact I| |]; apply H.
Qed.

Lemma to_double_valid x : valid_binary 53 1024 (to_double x) = true.
Proof.
  destruct x; cbn [to_double]; try reflexivity.
  apply binary_round_valid. lia.
Qed.

(** A product with a factor of 53 digits. *)
Lemma SFmul_valid x y :
  match y with
  | S754_finite _ m _ => Zpos (digits2_pos m) = 53
  | _ => True
  end ->
  valid_binary 53 1024 (SFmul 53 1024 x y) = true.
Proof.
  intros Hy.
  destruct x as [sx|sx| |sx mx ex], y as [sy|sy| |sy my ey];
    try reflexivity.
  cbn [SFmul].
  assert (Hd : 53 <= Zpos (digits2_pos (mx * my))).
  { pose proof (digits2_pos_bounds my) as [Hlo _]. rewrite Hy in Hlo.
    pose proof (digits2_pos_bounds (mx * my)) as [_ Hhi].
    rewrite Pos2Z.inj_mul in Hhi.
    assert (Hlt : 2 ^ (53 - 1) < 2 ^ Zpos (digits2_pos (mx * my))) by nia.
    apply Z.pow_lt_mono_r_iff in Hlt; lia. }
  destruct (binary_round_aux_spec 53 1024 ltac:(lia) (xorb sx sy)
              (mx * my) (ex + ey))
    as (mr & _ & _ & [[_ ->]|(m' & e' & _ & _ & Hcan & ->)]).
  - rewrite fexp_eq. lia.
  - reflexivity.
  - destruct (e' <=? 1024 - 53) eqn:E; [|reflexivity].
    cbn [valid_binary]. unfold bounded. rewrite Hcan, E. reflexivity.
Qed.

Lemma SFadd_valid x y :
  valid_binary 53 1024 x = true -> valid_binary 53 1024 y = true ->
  valid_binary 53 1024 (SFadd 53 1024 x y) = true.
Proof.
  intros Hx Hy.
  destruct x as [sx|sx| |sx mx ex], y as [sy|sy| |sy my ey];
    try reflexivity; try assumption;
    try (destruct sx, sy; reflexivity).
  cbn [SFadd].
  match goal with
  | |- valid_binary _ _ (binary_normalize _ _ ?m ?e _) = true =>
      destruct m; cbn [binary_normalize];
      [reflexivity| |]; apply binary_round_valid; lia
  end.
Qed.

Lemma SFltb_irrefl x : SFltb x x = false.
Proof.
  destruct x as [s|s| |s m e]; try (destruct s; reflexivity);
    try reflexivity.
  unfold SFltb, SFcompare. rewrite Z.compare_refl.
  change (Pos.compare_cont Eq m m) with (Pos.compare m m).
  rewrite Pos.compare_refl. destruct s; reflexivity.
Qed.

End Narrowing.

(** ** The clamp of the quantized mode on IEEE floats *)

Lemma of_int_valid n : valid_binary 53 1024 (of_int n) = true.
Proof. apply binary_normalize_valid. Qed.

Lemma of_f32_valid bits : valid_binary 53 1024 (of_f32 bits) = true.
Proof. apply to_double_valid. Qed.

(** The minimum of a block is a binary64 float. *)
Lemma read_mval_valid flags mf blob offset (mval : @num spec_float) off :
  read_mval flags mf blob offset = Ok (mval, off) ->
  valid_binary 53 1024 (as_float mval) = true.
Proof.
  unfold read_mval.
  destruct (negb (0 =? Z.land flags 1)); [|intros [= <- _]; reflexivity].
  intros H. apply rbind_Ok in H as (unpack_min & Hsel & H).
  apply rbind_Ok in H as (m & Hm & H).
  apply rbind_Ok in H as (width & _ & [= <- _]).
  unfold select3, py_getitem in Hsel.
  apply rbind_Ok in Hsel as (j & _ & Hsel).
  destruct j as [|[|[|j]]]; cbn in Hsel; inversion Hsel; subst unpack_min.
  - unfold unpack_min_f in Hm. apply rbind_Ok in Hm as (x & Hx & [= <-]).
    unfold unpack_f in Hx. apply rbind_Ok in Hx as (bs & _ & [= <-]).
    apply of_f32_valid.
  - unfold unpack_min_h in Hm. apply rbind_Ok in Hm as (k & _ & [= <-]).
    apply of_int_valid.
  - unfold unpack_min_b in Hm. apply rbind_Ok in Hm as (k & _ & [= <-]).
    apply of_int_valid.
Qed.

(** A sample of the quantized mode, [min(mval + Q * n, max_val)] narrowed
    to single precision, is not above a maximum read with format "<f". *)
Lemma sample_clamped (a Q : spec_float) (n bits : Z) :
  valid_binary 53 1024 a = true ->
  flt (of_f32 bits)
      (store_f32 (py_min (fadd a (fmul Q (of_int n))) (of_f32 bits))) = false.
Proof.
  intros Ha.
  assert (Hsum : valid_binary 53 1024 (fadd a (fmul Q (of_int n))) = true).
  { apply SFadd_valid; [exact Ha|].
    apply SFmul_valid. apply binary_normalize_normal. }
  unfold py_min.
  destruct (flt (of_f32 bits) (fadd a (fmul Q (of_int n)))) eqn:E.
  - apply narrowing_keeps_bound; [apply of_f32_valid|apply SFltb_irrefl].
  - apply narrowing_keeps_bound; [exact Hsum|exact E].
Qed.

(** C5, amended: for every block whose flag byte's low six bits equal 1
    (the quantized mode; mode 3 is a constant mode), every input buffer,
    every mask, every quantization step and every maximum that a value
    descriptor can hold (a float read with format "<f"), no sample value
    that [read_block] writes into the sample array exceeds the maximum,
    whether the block is read to its end or an exception stops it.  The
    floats are the IEEE 754 floats: the sum and the product are rounded
    to binary64, and the array narrows what it stores to binary32. *)
Theorem quantized_block_clamped (rx ry : list Z) (mask : bitmask)
        (Q : spec_float) (bits : Z) (blob : bytes) (offset : Z)
        (data : list spec_float) (flags : Z) :
  unpack_B blob offset = Ok flags ->
  Z.land flags 63 = 1 ->
  block_clamped rx ry mask Q (of_f32 bits) blob offset data.
Proof.
  intros Hflags Hmode.
  apply (quantized_block_writes_clamped rx ry mask Q (of_f32 bits) blob
           offset data flags Hflags Hmode).
  intros mval off n Hmval. apply sample_clamped.
  eapply read_mval_valid. exact Hmval.
Qed.
(** * The properties on IEEE floats and sample inputs *)

Import IEEE.

Lemma decode_RLE_meets_spec_witness :
  rle_spec rle_sample 0 9 [] (Ok (Some [x07; x07; x07; x01; x02])).
Proof.
  apply (decode_RLE_meets_spec rle_sample 0 9
           (Ok (Some [x07; x07; x07; x01; x02]))).
  - lia.
  - vm_compute. reflexivity.
Defined.

Lemma read_qval_values_in_range_witness :
  1 <= Z.land 131 63 /\
  Forall (fun x => 0 <= x < 2 ^ Z.land 131 63) [4; 0; 1; 3].
Proof.
  apply (read_qval_values_in_range [x83; x04; xb0; x80] 0 131 [4; 0; 1; 3] 4);
    vm_compute; reflexivity.
Defined.

(** The intact 1x1 blob opens as a valid session and decodes to the one
    sample 7.0, leaving the decoded mask in the session. *)
Example intact_blob_decodes :
  valid (lerc_init (blob_1x1 32768)) = Some true /\
  snd (decode (lerc_init (blob_1x1 32768)) (blob_1x1 32768))
  = Ok (Samples [of_int 7]) /\
  lerc_mask (fst (decode (lerc_init (blob_1x1 32768)) (blob_1x1 32768)))
  = Some (Bitmask 1 1 [x80]).
Proof. vm_compute. auto. Qed.

Lemma mask_descriptor_validated_witness :
  let first := Descriptor 0 0 5 ieee_one in
  (forall d, lerc_m (lerc_init (blob_1x1 32768)) = Some d ->
     d = first /\ nbY first = 0 /\ nbX first = 0 /\
     (feq f1 (maxVal first) = true \/ feq f0 (maxVal first) = true)) /\
  (nbY first <> 0 \/ nbX first <> 0 ->
   lerc_m (lerc_init (blob_1x1 32768)) = None).
Proof.
  apply (mask_descriptor_validated (blob_1x1 32768) (Descriptor 0 0 5 ieee_one)).
  - vm_compute. reflexivity.
  - apply Z.leb_le. vm_compute. reflexivity.
Defined.

(** C2 fails on the code: the blob [blob_tiled_first] is long enough for a
    mask descriptor, its first descriptor has nonzero block counts, and the
    session is not valid. *)
Lemma failed_mask_not_reinterpreted :
  ~ failed_mask_becomes_values blob_tiled_first.
Proof.
  intros H.
  destruct (H (Descriptor 1 1 0 ieee_one)) as [Hvalid _].
  - vm_compute. reflexivity.
  - apply Z.leb_le. vm_compute. reflexivity.
  - vm_compute. reflexivity.
  - vm_compute in Hvalid. discriminate Hvalid.
Qed.

Lemma failed_mask_invalidates_witness :
  valid (lerc_init blob_tiled_first) = Some false /\
  lerc_m (lerc_init blob_tiled_first) = None /\
  lerc_v (lerc_init blob_tiled_first) = None.
Proof.
  apply (failed_mask_invalidates blob_tiled_first (Descriptor 1 1 0 ieee_one)).
  - vm_compute. reflexivity.
  - apply Z.leb_le. vm_compute. reflexivity.
  - vm_compute. reflexivity.
Defined.

Lemma corrupt_end_marker_raises_witness :
  decode (lerc_init (blob_1x1 0)) (blob_1x1 0)
  = (lerc_init (blob_1x1 0), Raise TypeError).
Proof.
  apply (corrupt_end_marker_raises (lerc_init (blob_1x1 0)) (blob_1x1 0)
           (Descriptor 0 0 5 ieee_one) 1 1).
  - vm_compute. reflexivity.
  - vm_compute. reflexivity.
  - vm_compute. reflexivity.
  - cbn. lia.
  - vm_compute. reflexivity.
  - vm_compute. reflexivity.
  - vm_compute. reflexivity.
Defined.

Lemma uniform_fill_raises_witness :
  bitmask_init 1 1 255 None = Raise TypeError /\
  decode_mask (lerc_init blob_uniform) blob_uniform = Raise TypeError.
Proof.
  apply (uniform_fill_raises (lerc_init blob_uniform) blob_uniform
           (Descriptor 0 0 0 ieee_one) 1 1 255); vm_compute; reflexivity.
Defined.

(** A mask descriptor with byte count 0 and fill 1.0: [decode] raises. *)
Example uniform_blob_raises :
  valid (lerc_init blob_uniform) = Some true /\
  decode_mask (lerc_init blob_uniform) blob_uniform = Raise TypeError /\
  snd (decode (lerc_init blob_uniform) blob_uniform) = Raise TypeError.
Proof. vm_compute. auto. Qed.

(** C4 fails on the code: a block of mode 1 whose one pixel is masked out
    leaves the sample at 0.0 although its minimum is 5. *)
Lemma mode1_is_not_constant :
  ~ mode1_fills_block [0] [0] (Bitmask 1 1 [x00]) ieee_one ieee_ten
      block_mode1 0 [f0].
Proof.
  intros H.
  specialize (H 129 eq_refl eq_refl 129 (NInt 5) 2 eq_refl eq_refl 0 0).
  assert (Hin : 0 ∈ [0]) by apply list_elem_of_here.
  specialize (H Hin Hin). vm_compute in H. discriminate H.
Qed.

Lemma constant_block_fills_witness :
  block_filled_with_min [0] [0] (Bitmask 1 1 [x00]) ieee_one ieee_ten
    block_mode3 0 [f0] /\
  snd (read_block [0] [0] (Bitmask 1 1 [x00]) ieee_one ieee_ten
         block_mode3 0 [f0]) = Ok 2.
Proof.
  apply (constant_block_fills [0] [0] (Bitmask 1 1 [x00]) ieee_one ieee_ten
           block_mode3 0 [f0] 131 (NInt 2) 2).
  - vm_compute. reflexivity.
  - right. reflexivity.
  - vm_compute. reflexivity.
  - intros x y Hx Hy.
    apply list_elem_of_singleton in Hx, Hy. subst.
    unfold len. cbn [length bm_w]. lia.
Defined.

(** C5 fails on the code: a block of mode 3 with minimum 2 writes 2.0
    where the maximum is 1.0. *)
Lemma mode3_is_not_clamped :
  ~ mode3_clamped [0] [0] (Bitmask 1 1 [x80]) ieee_one ieee_one
      block_mode3 0 [f0].
Proof.
  intros H. specialize (H 131 eq_refl eq_refl 0%nat).
  destruct H as [H|(s & Hs & Hlt)].
  - vm_compute in H. discriminate H.
  - vm_compute in Hs. injection Hs as <-. vm_compute in Hlt. discriminate Hlt.
Qed.

Lemma quantized_block_clamped_witness :
  block_clamped [0; 1] [0; 1] (Bitmask 2 2 [xf0]) ieee_one
    (of_f32 0x41200000) block_quantized 0 [f0; f0; f0; f0].
Proof.
  apply (quantized_block_clamped [0; 1] [0; 1] (Bitmask 2 2 [xf0])
           ieee_one 0x41200000 block_quantized 0 [f0; f0; f0; f0] 129).
  - vm_compute. reflexivity.
  - reflexivity.
Defined.

(** The maximum of the witness is 10.0. *)
Example witness_maximum : of_f32 0x41200000 = ieee_ten.
Proof. reflexivity. Qed.

(** A block with the minimum -3, the step 1.0 and the maximum 0.0: the
    minimum plus 4, 0, 1 and 3 steps gives 0.0 (clamped from 1.0), -3.0,
    -2.0 and 0.0. *)
Example quantized_negative_example :
  read_block [0; 1] [0; 1] (Bitmask 2 2 [xf0]) ieee_one ieee_zero
    block_quantized_negative 0 [f0; f0; f0; f0]
  = ([f0; of_int (-3); of_int (-2); f0], Ok 6).
Proof. vm_compute. reflexivity. Qed.

(** The quantized block of the samples with maximum 10.0: the minimum 7
    plus 4, 0, 1 and 3 steps of 1.0 gives 10.0 (clamped from 11.0), 7.0,
    8.0 and 10.0. *)
Example quantized_block_example :
  read_block [0; 1] [0; 1] (Bitmask 2 2 [xf0]) ieee_one ieee_ten
    block_quantized 0 [f0; f0; f0; f0]
  = ([of_int 10; of_int 7; of_int 8; of_int 10], Ok 6).
Proof. vm_compute. reflexivity. Qed.

(** The constant block of mode 2 stores no minimum and fills with 0.0. *)
Example mode2_block_example :
  read_block [0; 1] [0] (Bitmask 2 1 [x00]) ieee_one ieee_ten
    block_mode2 0 [of_int 9; of_int 9]
  = ([f0; f0], Ok 1).
Proof. vm_compute. reflexivity. Qed.


Lemma packed_round_trip_witness :
  read_qval ([x00] ++ pack_qval CountU8 1 [] ++ [x00]) (len [x00])
  = Raise StopIteration.
Proof.
  apply (packed_round_trip CountU8 1 [] [x00] [x00]).
  - lia.
  - constructor.
  - vm_compute. reflexivity.
Defined.

(** The packed empty sequence on its own, as the failing input reads:
    [read_qval(bytes([0x81, 0x00]), 0)]. *)
Example empty_sequence_raises :
  pack_qval CountU8 1 [] = [x81; x00] /\
  read_qval [x81; x00] 0 = Raise StopIteration.
Proof. split; vm_compute; reflexivity. Qed.

(** Thirty-three 31-bit values, which span the word boundaries. *)
Example round_trip_33_values :
  let vals := map (fun i => (i * 1234567891 + 77) mod 2 ^ 31) (seqZ 0 33) in
  read_qval (pack_qval CountU16 31 vals) 0
  = Ok (Some vals, len (pack_qval CountU16 31 vals)).
Proof. vm_compute. reflexivity. Qed.

(** * The further properties on sample inputs *)

Lemma decode_RLE_needs_region_witness : 0 + 9 <= len rle_sample.
Proof.
  apply (decode_RLE_needs_region rle_sample 0 9
           (Some [x07; x07; x07; x01; x02])).
  - lia.
  - vm_compute. reflexivity.
Defined.

Lemma decode_RLE_region_witness :
  decode_RLE ([x00] ++ rle_region [RunRepeat 3 x07; RunLiteral [x01; x02]]
                    ++ [xff])
             (len [x00])
             (len (rle_region [RunRepeat 3 x07; RunLiteral [x01; x02]]))
  = Ok (Some (flat_map run_output [RunRepeat 3 x07; RunLiteral [x01; x02]])).
Proof.
  apply (decode_RLE_region [RunRepeat 3 x07; RunLiteral [x01; x02]]
           [x00] [xff]).
  repeat apply List.Forall_cons; try apply List.Forall_nil;
    cbn [run_fits]; unfold len; cbn [length]; lia.
Defined.

Lemma read_qval_consumes_witness :
  4 <= len [x83; x04; xb0; x80] /\
  exists width,
    select3 4 2 1 (Z.shiftr 131 6) = Ok width /\
    1 <= len [4; 0; 1; 3] /\
    4 = 0 + 1 + width + (len [4; 0; 1; 3] * Z.land 131 63 + 7) / 8.
Proof.
  apply (read_qval_consumes [x83; x04; xb0; x80] 0 131 (Some [4; 0; 1; 3]) 4).
  - lia.
  - vm_compute. reflexivity.
  - vm_compute. reflexivity.
Defined.

Lemma bitmask_at_reads_bit_witness :
  exists v, mask_bit [xa0] ((1 * 2 + 0) mod (8 * len [xa0])) = Some v /\
            bitmask_at (Bitmask 2 2 [xa0]) 0 1 = Ok v.
Proof.
  apply (bitmask_at_reads_bit (Bitmask 2 2 [xa0]) 0 1).
  cbn [bm_w bm_data]. unfold len. cbn [length]. lia.
Defined.

(** The last bit of the mask is what a linear index of -1 reads. *)
Example bitmask_at_negative :
  bitmask_at (Bitmask 2 2 [x01]) (-1) 0 = Ok true.
Proof. vm_compute. reflexivity. Qed.

Lemma bitmask_at_outside_witness :
  bitmask_at (Bitmask 4 4 [xa0]) 0 2 = Raise IndexError.
Proof.
  apply (bitmask_at_outside (Bitmask 4 4 [xa0]) 0 2).
  cbn [bm_w bm_data]. unfold len. cbn [length]. lia.
Defined.

Lemma raw_block_values_witness :
  9 = 0 + 1 + 4 * len (valid_cells (Bitmask 2 2 [xa0]) (dloop [0; 1] [0; 1])) /\
  forall (k : nat) c,
    valid_cells (Bitmask 2 2 [xa0]) (dloop [0; 1] [0; 1]) !! k = Some c ->
    exists s, unpack_f block_raw (0 + 1 + 4 * Z.of_nat k) = Ok s /\
              [ieee_one; f0; ieee_ten; f0]
                !! Z.to_nat (slot (Bitmask 2 2 [xa0]) c)
              = Some (store_f32 s).
Proof.
  apply (raw_block_values [0; 1] [0; 1] (Bitmask 2 2 [xa0]) ieee_one ieee_ten
           block_raw 0 [f0; f0; f0; f0] [ieee_one; f0; ieee_ten; f0] 0 9).
  - vm_compute. reflexivity.
  - reflexivity.
  - apply (bool_decide_unpack (NoDup [0; 1])). vm_compute. exact I.
  - apply (bool_decide_unpack (NoDup [0; 1])). vm_compute. exact I.
  - intros x Hx. cbn [bm_w].
    apply elem_of_cons in Hx as [->|Hx]; [lia|].
    apply list_elem_of_singleton in Hx as ->. lia.
  - intros y Hy.
    apply elem_of_cons in Hy as [->|Hy]; [lia|].
    apply list_elem_of_singleton in Hy as ->. lia.
  - vm_compute. reflexivity.
Defined.

Lemma quantized_block_values_witness :
  exists mval off ival,
    read_mval 1 (Z.shiftr 129 6) block_quantized (0 + 1) = Ok (mval, off) /\
    read_qval block_quantized off = Ok (Some ival, 6) /\
    len (valid_cells (Bitmask 2 2 [xa0]) (dloop [0; 1] [0; 1])) <= len ival /\
    forall (k : nat) c,
      valid_cells (Bitmask 2 2 [xa0]) (dloop [0; 1] [0; 1]) !! k = Some c ->
      exists n, ival !! k = Some n /\
                [of_int 10; f0; of_int 7; f0]
                  !! Z.to_nat (slot (Bitmask 2 2 [xa0]) c)
                = Some (quantized mval ieee_one ieee_ten n).
Proof.
  apply (quantized_block_values [0; 1] [0; 1] (Bitmask 2 2 [xa0])
           ieee_one ieee_ten block_quantized 0 [f0; f0; f0; f0]
           [of_int 10; f0; of_int 7; f0] 129 6).
  - vm_compute. reflexivity.
  - reflexivity.
  - apply (bool_decide_unpack (NoDup [0; 1])). vm_compute. exact I.
  - apply (bool_decide_unpack (NoDup [0; 1])). vm_compute. exact I.
  - intros x Hx. cbn [bm_w].
    apply elem_of_cons in Hx as [->|Hx]; [lia|].
    apply list_elem_of_singleton in Hx as ->. lia.
  - intros y Hy.
    apply elem_of_cons in Hy as [->|Hy]; [lia|].
    apply list_elem_of_singleton in Hy as ->. lia.
  - vm_compute. reflexivity.
Defined.

Lemma dloop_row_major_witness :
  length (dloop [10; 11; 12] [20; 21]) = (length [20; 21] * length [10; 11; 12])%nat /\
  dloop [10; 11; 12] [20; 21] !! (1 * length [10; 11; 12] + 2)%nat
  = Some (12, 21).
Proof.
  apply (dloop_row_major [10; 11; 12] [20; 21] 2 1 12 21); reflexivity.
Defined.

Lemma valid_session_attributes_witness :
  exists h w u v,
    unpack_IIIId (blob_1x1 32768) 10 = Ok (11, 8, h, w, u) /\
    lerc_h (lerc_init (blob_1x1 32768)) = Some h /\
    lerc_w (lerc_init (blob_1x1 32768)) = Some w /\
    lerc_u (lerc_init (blob_1x1 32768)) = Some (fmul u (of_int 2)) /\
    lerc_v (lerc_init (blob_1x1 32768)) = Some v /\
    lerc_mask (lerc_init (blob_1x1 32768)) = None /\
    is_word h /\ is_word w /\
    is_word (nbY v) /\ is_word (nbX v) /\ is_word (nB v) /\
    50 <= len (blob_1x1 32768) /\
    (forall m, lerc_m (lerc_init (blob_1x1 32768)) = Some m ->
       unpack_IIIf (blob_1x1 32768) 34 = Ok m /\
       is_word (nB m) /\ 66 + nB m <= len (blob_1x1 32768) /\
       unpack_IIIf (blob_1x1 32768) (50 + nB m) = Ok v).
Proof.
  apply (valid_session_attributes (blob_1x1 32768)).
  vm_compute. reflexivity.
Defined.

Lemma values_only_blob_raises_witness :
  decode (lerc_init blob_values_only) blob_values_only
  = (lerc_init blob_values_only, Raise AttributeError).
Proof.
  apply (values_only_blob_raises blob_values_only blob_values_only
           (Descriptor 1 1 2 ieee_ten)).
  - vm_compute. reflexivity.
  - vm_compute. reflexivity.
  - vm_compute. reflexivity.
Defined.

Lemma decode_samples_shape_witness :
  exists h w v m,
    lerc_h (lerc_init (blob_1x1 32768)) = Some h /\
    lerc_w (lerc_init (blob_1x1 32768)) = Some w /\
    lerc_v (lerc_init (blob_1x1 32768)) = Some v /\
    lerc_m (lerc_init (blob_1x1 32768)) = Some m /\
    nbY v <> 0 /\ nbX v <> 0 /\ h / nbY v <> 0 /\ w / nbX v <> 0 /\
    length [of_int 7] = (Z.to_nat h * Z.to_nat w)%nat.
Proof.
  apply (decode_samples_shape (lerc_init (blob_1x1 32768)) (blob_1x1 32768)
           [of_int 7]).
  vm_compute. reflexivity.
Defined.

Lemma read_tiles_zero_block_count_witness :
  read_tiles (Lerc (Some true) (Some 2) (Some 2) (Some ieee_one)
                   (Some (Descriptor 0 0 5 ieee_one))
                   (Some (Descriptor 0 1 2 ieee_ten))
                   (Some (Bitmask 2 2 [xf0]))) []
  = Raise ZeroDivisionError.
Proof.
  apply (read_tiles_zero_block_count
           (Lerc (Some true) (Some 2) (Some 2) (Some ieee_one)
                 (Some (Descriptor 0 0 5 ieee_one))
                 (Some (Descriptor 0 1 2 ieee_ten))
                 (Some (Bitmask 2 2 [xf0])))
           [] 2 2 (Descriptor 0 1 2 ieee_ten));
    try reflexivity.
  left. reflexivity.
Defined.

(** Three block rows announced for two rows. *)
Lemma read_tiles_zero_block_size_witness :
  read_tiles (Lerc (Some true) (Some 2) (Some 2) (Some ieee_one)
                   (Some (Descriptor 0 0 5 ieee_one))
                   (Some (Descriptor 3 1 2 ieee_ten))
                   (Some (Bitmask 2 2 [xf0]))) []
  = Raise ValueError.
Proof.
  apply (read_tiles_zero_block_size
           (Lerc (Some true) (Some 2) (Some 2) (Some ieee_one)
                 (Some (Descriptor 0 0 5 ieee_one))
                 (Some (Descriptor 3 1 2 ieee_ten))
                 (Some (Bitmask 2 2 [xf0])))
           [] 2 2 (Descriptor 3 1 2 ieee_ten) (Descriptor 0 0 5 ieee_one));
    try reflexivity; cbn [nbY nbX max_items sample_memory]; lia.
Defined.

(** A header of 2 ^ 32 - 1 rows and 2 ^ 28 columns on the machine of the
    examples. *)
Lemma read_tiles_out_of_memory_witness :
  read_tiles (Lerc (Some true) (Some (2 ^ 32 - 1)) (Some (2 ^ 28))
                   (Some ieee_one)
                   (Some (Descriptor 0 0 5 ieee_one))
                   (Some (Descriptor 1 1 2 ieee_ten))
                   (Some (Bitmask 2 2 [xf0]))) []
  = Raise MemoryError.
Proof.
  apply (read_tiles_out_of_memory
           (Lerc (Some true) (Some (2 ^ 32 - 1)) (Some (2 ^ 28))
                 (Some ieee_one)
                 (Some (Descriptor 0 0 5 ieee_one))
                 (Some (Descriptor 1 1 2 ieee_ten))
                 (Some (Bitmask 2 2 [xf0])))
           [] (2 ^ 32 - 1) (2 ^ 28)
           (Descriptor 1 1 2 ieee_ten) (Descriptor 0 0 5 ieee_one));
    try reflexivity; cbn [nbY nbX max_items sample_memory]; lia.
Defined.

(** The 73 bytes of the intact 1x1 blob with the height and the width of
    the header replaced: the session is valid and the mask decodes, and
    [decode] raises [MemoryError]. *)
Example huge_header_out_of_memory :
  len blob_huge = 73 /\
  valid (lerc_init blob_huge) = Some true /\
  snd (decode (lerc_init blob_huge) blob_huge) = Raise MemoryError.
Proof. vm_compute. auto. Qed.

Lemma block_ranges_tile_axis_witness :
  flat_map (fun x => py_range x (x + Z.min 2 (5 - x))) [0; 2; 4]
  = py_range 0 5.
Proof.
  apply (block_ranges_tile_axis 5 2 [0; 2; 4]).
  - lia.
  - vm_compute. reflexivity.
Defined.

Lemma rejected_blob_decodes_to_nothing_witness :
  decode (lerc_init []) (blob_1x1 32768) = (lerc_init [], Ok NoResult).
Proof.
  apply (rejected_blob_decodes_to_nothing [] (blob_1x1 32768)).
  intros [Hmagic _]. discriminate Hmagic.
Defined.

Lemma decode_mask_region_witness :
  decode_mask (lerc_init (blob_1x1 32768))
    (take 50 (blob_1x1 32768) ++ rle_region [RunLiteral [x80]]
       ++ drop 55 (blob_1x1 32768))
  = Ok (Bitmask 1 1 (flat_map run_output [RunLiteral [x80]])).
Proof.
  apply (decode_mask_region (lerc_init (blob_1x1 32768))
           (Descriptor 0 0 5 ieee_one) 1 1 [RunLiteral [x80]]
           (take 50 (blob_1x1 32768)) (drop 55 (blob_1x1 32768))).
  - vm_compute. reflexivity.
  - vm_compute. reflexivity.
  - vm_compute. reflexivity.
  - vm_compute. reflexivity.
  - vm_compute. reflexivity.
  - apply List.Forall_cons; [|apply List.Forall_nil].
    cbn [run_fits]. unfold len. cbn [length]. lia.
Defined.

(** The mask region of the intact 1x1 blob is the region of one literal
    run. *)
Example blob_1x1_region :
  take 50 (blob_1x1 32768) ++ rle_region [RunLiteral [x80]]
    ++ drop 55 (blob_1x1 32768)
  = blob_1x1 32768.
Proof. vm_compute. reflexivity. Qed.

Lemma read_block_unknown_mode_witness :
  read_block [0] [0] (Bitmask 1 1 [x80]) ieee_one ieee_ten [x04] 0 [f0]
  = ([f0], Raise AssertionError).
Proof.
  apply (read_block_unknown_mode [0] [0] (Bitmask 1 1 [x80])
           ieee_one ieee_ten [x04] 0 [f0] 4).
  - vm_compute. reflexivity.
  - vm_compute. discriminate.
Defined.

Lemma read_block_bad_min_format_witness :
  read_block [0] [0] (Bitmask 1 1 [x80]) ieee_one ieee_ten [xc1; x05] 0 [f0]
  = ([f0], Raise IndexError).
Proof.
  apply (read_block_bad_min_format [0] [0] (Bitmask 1 1 [x80])
           ieee_one ieee_ten [xc1; x05] 0 [f0] 193).
  - vm_compute. reflexivity.
  - left. reflexivity.
  - reflexivity.
Defined.

Lemma read_qval_bad_selector_witness :
  read_qval [xc3; x04; xb0; x80] 0 = Raise IndexError.
Proof.
  apply (read_qval_bad_selector [xc3; x04; xb0; x80] 0 195).
  - vm_compute. reflexivity.
  - vm_compute. discriminate.
  - reflexivity.
Defined.

Lemma quantized_block_without_bits_witness :
  read_block [0] [0] (Bitmask 1 1 [x00]) ieee_one ieee_ten block_no_bits 0 [f0]
  = ([f0], Raise TypeError).
Proof.
  apply (quantized_block_without_bits [0] [0] (Bitmask 1 1 [x00])
           ieee_one ieee_ten block_no_bits 0 [f0] 129 (NInt 5) 2 0).
  - vm_compute. reflexivity.
  - reflexivity.
  - vm_compute. reflexivity.
  - vm_compute. reflexivity.
  - reflexivity.
Defined.

(** The intact 1x1 blob is an image of one constant block. *)
Lemma single_constant_block_witness :
  read_tiles (set_mask (Bitmask 1 1 [x80]) (lerc_init (blob_1x1 32768)))
             (blob_1x1 32768)
  = Ok (replicate (Z.to_nat (1 * 1)) (store_f32 (as_float (NInt 7)))).
Proof.
  apply (single_constant_block
           (set_mask (Bitmask 1 1 [x80]) (lerc_init (blob_1x1 32768)))
           (blob_1x1 32768) 1 1 ieee_one
           (Descriptor 1 1 2 ieee_ten) (Descriptor 0 0 5 ieee_one)
           (Bitmask 1 1 [x80]) 131 (NInt 7) 73).
  - vm_compute. reflexivity.
  - vm_compute. reflexivity.
  - vm_compute. reflexivity.
  - vm_compute. reflexivity.
  - vm_compute. reflexivity.
  - vm_compute. reflexivity.
  - lia.
  - lia.
  - cbn [max_items sample_memory]. lia.
  - reflexivity.
  - reflexivity.
  - reflexivity.
  - vm_compute. reflexivity.
  - right. reflexivity.
  - vm_compute. reflexivity.
Defined.
